(** * chainline-js: codec primitives, wallet and transaction core

    A shallow embedding of the hex-string codec and fee ceiling
    ([utils.js]), the transaction serializer ([transactions/index.js]) and
    the wallet functions ([wallet.js]), with the properties stated about
    them.

    Conventions of the embedding.
    - Hex strings are [string]s; byte arrays ([Uint8Array], [Buffer]) are
      [list Z] with entries in [0, 256); plain arrays of parse results are
      [list number].
    - A JavaScript number that comes out of [parseInt] is a [number]: either
      [NaN] or an exact integer.  Integers are kept exact (the 53-bit
      mantissa of a double is not modelled).  Amounts of GAS are exact
      rationals.
    - A function that can [throw] returns a [result].
    - The component serializers of [components.js] and [exclusive.js], and
      the library functions (CryptoJS, base-x, ecurve, elliptic), are
      parameters. *)

From Stdlib Require Import ZArith List String Ascii Bool Lia QArith Qround.
Import ListNotations.

#[local] Open Scope string_scope.
#[local] Open Scope Z_scope.

(** ** Exceptions *)

Inductive result (A : Type) : Type :=
| Ok (a : A)
| Throw (msg : string).
Arguments Ok {A} a.
Arguments Throw {A} msg.

Definition bind {A B : Type} (c : result A) (k : A -> result B) : result B :=
  match c with
  | Ok a => k a
  | Throw m => Throw m
  end.

Notation "x <- c ;; k" := (bind c (fun x => k))
  (at level 61, c at next level, right associativity).

(** [out += f(x)] over a [for ... of] loop, where [f] may throw. *)
Fixpoint concat_map {A : Type} (f : A -> result string) (xs : list A)
  : result string :=
  match xs with
  | [] => Ok ""
  | x :: xs' => s <- f x ;; rest <- concat_map f xs' ;; Ok (s ++ rest)
  end.

(** ** Numbers *)

Inductive number : Type :=
| NaN
| Int (n : Z).

Module Utils.

(** *** String helpers named after the JavaScript methods *)

(** [s.substr(start, len)] *)
Definition substr (s : string) (start len : nat) : string :=
  String.substring start len s.

(** [s.substring(start)] *)
Fixpoint substring_from (start : nat) (s : string) : string :=
  match start, s with
  | O, _ => s
  | S n, EmptyString => EmptyString
  | S n, String _ s' => substring_from n s'
  end.

(** ['0'.repeat(n)] *)
Fixpoint repeat0 (n : nat) : string :=
  match n with
  | O => ""
  | S n' => String "0" (repeat0 n')
  end.

Definition slen (s : string) : Z := Z.of_nat (String.length s).

(** *** Hexadecimal digits *)

Definition hexdigit (d : Z) : ascii :=
  match d with
  | 0 => "0" | 1 => "1" | 2 => "2" | 3 => "3" | 4 => "4" | 5 => "5"
  | 6 => "6" | 7 => "7" | 8 => "8" | 9 => "9" | 10 => "a" | 11 => "b"
  | 12 => "c" | 13 => "d" | 14 => "e" | _ => "f"
  end%char.

(** Value of a character as a digit in radix 16, either case, from its
    character code. *)
Definition digit_of (c : ascii) : option Z :=
  let code := Z.of_N (N_of_ascii c) in
  if ((48 <=? code) && (code <=? 57))%bool then Some (code - 48)
  else if ((97 <=? code) && (code <=? 102))%bool then Some (code - 87)
  else if ((65 <=? code) && (code <=? 70))%bool then Some (code - 55)
  else None.

(** Digits of a non-negative integer, most significant first.  [fuel]
    bounds the number of digits. *)
Fixpoint hex_digits (fuel : nat) (n : Z) (acc : string) : string :=
  match fuel with
  | O => acc
  | S fuel' =>
      let acc' := String (hexdigit (n mod 16)) acc in
      if n / 16 =? 0 then acc' else hex_digits fuel' (n / 16) acc'
  end.

Definition hex_of_nonneg (n : Z) : string :=
  hex_digits (S (Z.to_nat (Z.log2 n))) n "".

(** [n.toString(16)] for an integer [n]. *)
Definition toString16 (n : Z) : string :=
  if n <? 0 then String "-" (hex_of_nonneg (- n)) else hex_of_nonneg n.

(** [x.toString(16)] for a [number]. *)
Definition number_toString16 (x : number) : string :=
  match x with
  | NaN => "NaN"
  | Int n => toString16 n
  end.

(** *** [parseInt(s, 16)] *)

Definition is_white (c : ascii) : bool :=
  match c with
  | " " | "009" | "010" | "011" | "012" | "013" => true
  | _ => false
  end%char.

Fixpoint skip_white (s : string) : string :=
  match s with
  | String c s' => if is_white c then skip_white s' else s
  | EmptyString => s
  end.

(** Value of a string read as radix-16 digits; a character that is not a
    digit counts as zero. *)
Fixpoint hexval_from (acc : Z) (s : string) : Z :=
  match s with
  | String c s' =>
      hexval_from (16 * acc + match digit_of c with Some d => d | None => 0 end) s'
  | EmptyString => acc
  end.

Definition hexval (s : string) : Z := hexval_from 0 s.

Fixpoint all_hex (s : string) : bool :=
  match s with
  | String c s' =>
      match digit_of c with
      | Some _ => all_hex s'
      | None => false
      end
  | EmptyString => true
  end.

(** Longest prefix of radix-16 digits, folded left to right; [None] when
    the prefix is empty. *)
Fixpoint parse_digits (s : string) (acc : option Z) : option Z :=
  match s with
  | String c s' =>
      match digit_of c with
      | Some d =>
          parse_digits s' (Some (16 * match acc with Some a => a | None => 0 end + d))
      | None => acc
      end
  | EmptyString => acc
  end.

Definition strip_0x (s : string) : string :=
  match s with
  | String "0" (String "x" s') => s'
  | String "0" (String "X" s') => s'
  | _ => s
  end.

Definition parseInt16 (s : string) : number :=
  let s1 := skip_white s in
  let '(sign, s2) :=
    match s1 with
    | String "-" r => (-1, r)
    | String "+" r => (1, r)
    | _ => (1, s1)
    end in
  match parse_digits (strip_0x s2) None with
  | Some v => Int (sign * v)
  | None => NaN
  end.

(** *** Byte-array and hex-string conversions *)

(** [hexstring2ab]: two characters at a time while at least two remain. *)
Fixpoint hexstring2ab (str : string) : list number :=
  match str with
  | String a (String b rest) =>
      parseInt16 (String a (String b "")) :: hexstring2ab rest
  | _ => []
  end.

(** [ab2hexstring]: each element printed in radix 16, left-padded to two
    characters. *)
Definition pad2 (str : string) : string :=
  match String.length str with
  | O => "00"
  | 1%nat => String "0" str
  | _ => str
  end.

Fixpoint ab2hexstring (arr : list number) : string :=
  match arr with
  | [] => ""
  | x :: arr' => pad2 (number_toString16 x) ++ ab2hexstring arr'
  end.

(** A typed array or [Buffer] seen as an array of numbers. *)
Definition of_bytes (bs : list Z) : list number := map Int bs.

(** *** [reverseHex] *)

Fixpoint reverse_pairs (hex : string) : string :=
  match hex with
  | String a (String b rest) => reverse_pairs rest ++ String a (String b "")
  | _ => ""
  end.

Definition reverseHex (hex : string) : result string :=
  if Nat.even (String.length hex) then Ok (reverse_pairs hex)
  else Throw ("Incorrect Length: " ++ hex).

(** *** [num2hexstring], [num2fixed8], [num2VarInt] *)

(** The body of [num2hexstring] once [num.toString(16)] is known. *)
Definition fit_hexstring (hexstring : string) (size : nat) : string :=
  if (negb (size =? 0)%nat && (String.length hexstring mod size =? 0)%nat)%bool
  then hexstring
  else substring_from (String.length hexstring) (repeat0 size ++ hexstring).

Definition num2hexstring (num : number) (size : nat) : string :=
  fit_hexstring (number_toString16 num) size.



Fixpoint strip_trailing_zeros (s : string) : string :=
  match s with
  | EmptyString => EmptyString
  | String c s' =>
      match strip_trailing_zeros s', c with
      | EmptyString, "0"%char => EmptyString
      | r, _ => String c r
      end
  end.

(** [(num / Math.pow(2, 32)).toString(16)] for an integer [num >= 0]: the
    quotient is a dyadic rational with at most 32 fractional bits, printed
    as the integer part followed, when the fraction is not zero, by a point
    and the fraction's digits without trailing zeros. *)
Definition toString16_div_2_32 (num : Z) : string :=
  let hi := num / 2 ^ 32 in
  let lo := num mod 2 ^ 32 in
  if lo =? 0 then toString16 hi
  else toString16 hi ++ "." ++
       strip_trailing_zeros (fit_hexstring (toString16 lo) 8).

Definition num2VarInt (num : Z) : string :=
  if num <? 0xfd then num2hexstring (Int num) 2
  else if num <=? 0xffff then "fd" ++ num2hexstring (Int num) 4
  else if num <=? 0xffffffff then "fe" ++ num2hexstring (Int num) 8
  else "ff" ++ num2hexstring (Int num) 8
            ++ fit_hexstring (toString16_div_2_32 num) 8.

(** *** [StringStream] *)

Record StringStream : Type := mkStream { str : string; pter : nat }.

(** A method of the stream: it returns a value and the updated stream, or
    throws. *)
Definition stream (A : Type) : Type := StringStream -> result (A * StringStream).

Definition ret {A : Type} (a : A) : stream A := fun ss => Ok (a, ss).

Definition sbind {A B : Type} (m : stream A) (k : A -> stream B) : stream B :=
  fun ss => match m ss with
            | Ok (a, ss') => k a ss'
            | Throw e => Throw e
            end.

Definition lift {A : Type} (r : result A) : stream A :=
  fun ss => match r with Ok a => Ok (a, ss) | Throw e => Throw e end.

Notation "x <~ m ;; k" := (sbind m (fun x => k))
  (at level 61, m at next level, right associativity).

Definition new_StringStream (s : string) : StringStream := mkStream s 0.

Definition isEmpty (ss : StringStream) : bool :=
  (String.length (str ss) <=? pter ss)%nat.

Definition read (bytes : nat) : stream string :=
  fun ss =>
    if isEmpty ss then Throw ""
    else Ok (substr (str ss) (pter ss) (bytes * 2),
             mkStream (str ss) (pter ss + bytes * 2)).

(** [x === n] for an integer literal [n]. *)
Definition is_int (x : number) (n : Z) : bool :=
  match x with
  | NaN => false
  | Int m => m =? n
  end.

Definition readVarInt : stream number :=
  len <~ read 1 ;;
  let len := parseInt16 len in
  if is_int len 0xfd then
    h <~ read 2 ;; r <~ lift (reverseHex h) ;; ret (parseInt16 r)
  else if is_int len 0xfe then
    h <~ read 4 ;; r <~ lift (reverseHex h) ;; ret (parseInt16 r)
  else if is_int len 0xff then
    h <~ read 8 ;; r <~ lift (reverseHex h) ;; ret (parseInt16 r)
  else ret len.

(** The value that [readVarInt] returns on a fresh stream over [s]. *)
Definition decoded_VarInt (s : string) : result number :=
  match readVarInt (new_StringStream s) with
  | Ok (n, _) => Ok n
  | Throw e => Throw e
  end.

(** The stream has consumed [pre] and still has [post] to read. *)
Definition positioned (ss : StringStream) (pre post : string) : Prop :=
  str ss = pre ++ post /\ pter ss = String.length pre.

End Utils.

Import Utils.

(** ** Fee ceiling ([utils.js]) *)

Module Gas.




End Gas.

(** ** Byte buffers of the runtime and of the libraries

    [Buffer], [Uint8Array], CryptoJS word arrays and bn.js byte output, as
    far as the wallet uses them. *)

Module Bytes.

Definition is_byte (b : Z) : Prop := 0 <= b < 256.

(** Two lower-case digits per byte: [Buffer.toString('hex')] and the
    [toString()] of a CryptoJS word array. *)
Fixpoint bytes2hex (bs : list Z) : string :=
  match bs with
  | [] => ""
  | b :: bs' => String (hexdigit (b / 16)) (String (hexdigit (b mod 16)) (bytes2hex bs'))
  end.

(** [Buffer.from(s, 'hex')]: decoding stops at the first pair that is not
    two hex digits. *)
Fixpoint Buffer_from_hex (s : string) : list Z :=
  match s with
  | String a (String b rest) =>
      match digit_of a, digit_of b with
      | Some x, Some y => (16 * x + y) :: Buffer_from_hex rest
      | _, _ => []
      end
  | _ => []
  end.

(** [arr.slice(from, to)] *)
Definition slice {A : Type} (l : list A) (from to : nat) : list A :=
  firstn (to - from) (skipn from l).

(** Conversion of a number stored into a [Uint8Array]. *)
Definition ToUint8 (x : number) : Z :=
  match x with
  | NaN => 0
  | Int n => n mod 256
  end.

Definition Uint8Array_new (n : nat) : list Z := repeat 0 n.

(** [arr.set(src, offset)]: a [RangeError] when the source does not fit. *)
Definition Uint8Array_set (arr : list Z) (src : list number) (offset : nat)
  : result (list Z) :=
  if (List.length arr <? offset + List.length src)%nat then Throw "RangeError"
  else Ok (firstn offset arr ++ map ToUint8 src
           ++ skipn (offset + List.length src) arr)%list.

(** [z.toArrayLike(Buffer, 'be', len)] of bn.js, for [z >= 0]. *)
Fixpoint be_bytes (len : nat) (z : Z) : list Z :=
  match len with
  | O => []
  | S l => (z / 256 ^ Z.of_nat l) mod 256 :: be_bytes l z
  end.

Definition toArrayLike_be (z : Z) (len : nat) : result (list Z) :=
  if z <? 256 ^ Z.of_nat len then Ok (be_bytes len z)
  else Throw "byte array longer than desired length".

End Bytes.

(** ** Transactions ([transactions/index.js]) *)

Module Transactions.

Record Witness : Type := mkWitness {
  invocationScript : string;
  verificationScript : string
}.

Section Model.

(** JavaScript arrays are untyped: the elements of [attributes], [inputs]
    and [outputs] are values of one type [object].  [exclusive] stands for
    the own properties that the kind adds to a transaction. *)
Context {object exclusive : Type}.

Record Transaction : Type := mkTransaction {
  type : number;
  version : number;
  attributes : list object;
  inputs : list object;
  outputs : list object;
  scripts : option (list Witness);
  exclusiveData : exclusive
}.

(** The tables [serialize] and [deserialize].  Their entries are defined
    in [components.js] and [exclusive.js]; [exclusiveData] is indexed by
    the transaction type. *)
Record Serialize : Type := mkSerialize {
  ser_attribute : object -> result string;
  ser_input : object -> result string;
  ser_output : object -> result string;
  ser_script : Witness -> result string;
  ser_exclusiveData : number -> option (Transaction -> result string)
}.

Record Deserialize : Type := mkDeserialize {
  de_attribute : stream object;
  de_input : stream object;
  de_output : stream object;
  de_script : stream Witness;
  de_exclusiveData : number -> option (stream exclusive)
}.

Context (serialize : Serialize) (deserialize : Deserialize).

(** A component that is read back from the place where it was written. *)
Definition round_trips {A : Type} (ser : A -> result string) (de : stream A)
  (a : A) : Prop :=
  exists s, ser a = Ok s /\
    forall ss pre post, positioned ss pre (s ++ post) ->
      exists ss', de ss = Ok (a, ss') /\ positioned ss' (pre ++ s) post.

(** Calling a table entry; an absent entry is [undefined], and calling it
    throws. *)
Definition call {A B : Type} (f : option (A -> result B)) (a : A) : result B :=
  match f with
  | Some g => g a
  | None => Throw "TypeError"
  end.

Definition len {A : Type} (l : list A) : Z := Z.of_nat (List.length l).

Definition serializeTransaction (tx : Transaction) (signed : bool)
  : result string :=
  let out := "" in
  let out := out ++ num2hexstring (type tx) 2 in
  let out := out ++ num2hexstring (version tx) 2 in
  e <- call (ser_exclusiveData serialize (type tx)) tx ;;
  let out := out ++ e in
  let out := out ++ num2VarInt (len (attributes tx)) in
  a <- concat_map (ser_attribute serialize) (attributes tx) ;;
  let out := out ++ a in
  let out := out ++ num2VarInt (len (inputs tx)) in
  i <- concat_map (ser_input serialize) (inputs tx) ;;
  let out := out ++ i in
  let out := out ++ num2VarInt (len (outputs tx)) in
  o <- concat_map (ser_output serialize) (outputs tx) ;;
  let out := out ++ o in
  match scripts tx with
  | Some ws =>
      if (signed && (0 <? len ws))%bool then
        let out := out ++ num2VarInt (len ws) in
        w <- concat_map (ser_script serialize) ws ;;
        Ok (out ++ w)
      else Ok out
  | None => Ok out
  end.

(** [tx.inputs.push(o)], [tx.outputs.push(o)], [tx.scripts.push(w)] *)
Definition push_inputs (tx : Transaction) (o : object) : Transaction :=
  mkTransaction (type tx) (version tx) (attributes tx) (inputs tx ++ [o])%list
                (outputs tx) (scripts tx) (exclusiveData tx).

Definition push_outputs (tx : Transaction) (o : object) : Transaction :=
  mkTransaction (type tx) (version tx) (attributes tx) (inputs tx)
                (outputs tx ++ [o])%list (scripts tx) (exclusiveData tx).

Definition push_scripts (tx : Transaction) (w : Witness) : Transaction :=
  mkTransaction (type tx) (version tx) (attributes tx) (inputs tx)
                (outputs tx)
                (Some (match scripts tx with Some ws => ws | None => [] end ++ [w])%list)
                (exclusiveData tx).

(** [for (let i = 0; i < length; i++) body]: no iteration when the count
    is [NaN] or not positive. *)
Definition iterations (count : number) : nat :=
  match count with
  | NaN => O
  | Int n => Z.to_nat n
  end.

Fixpoint for_loop (n : nat) (body : Transaction -> stream Transaction)
  (tx : Transaction) : stream Transaction :=
  match n with
  | O => ret tx
  | S n' => tx' <~ body tx ;; for_loop n' body tx'
  end.

Definition scall {A : Type} (f : option (stream A)) : stream A :=
  match f with
  | Some g => g
  | None => fun _ => Throw "TypeError"
  end.

(** The transaction object is built field by field as in the source; the
    kind-specific properties, read right after the version, are merged
    into it by the final [Object.assign]. *)
Definition deserializeTransaction (data : string) : result Transaction :=
  let ss := new_StringStream data in
  let body : stream Transaction :=
    t <~ read 1 ;;
    v <~ read 1 ;;
    exclusiveData <~ scall (de_exclusiveData deserialize (parseInt16 t)) ;;
    let tx := mkTransaction (parseInt16 t) (parseInt16 v) [] [] [] (Some [])
                            exclusiveData in
    attrLength <~ readVarInt ;;
    tx <~ for_loop (iterations attrLength)
            (fun tx => a <~ de_attribute deserialize ;; ret (push_inputs tx a)) tx ;;
    inputLength <~ readVarInt ;;
    tx <~ for_loop (iterations inputLength)
            (fun tx => i <~ de_input deserialize ;; ret (push_inputs tx i)) tx ;;
    outputLength <~ readVarInt ;;
    tx <~ for_loop (iterations outputLength)
            (fun tx => o <~ de_output deserialize ;; ret (push_outputs tx o)) tx ;;
    fun ss =>
      if negb (isEmpty ss) then
        (scriptLength <~ readVarInt ;;
         for_loop (iterations scriptLength)
           (fun tx => w <~ de_script deserialize ;; ret (push_scripts tx w)) tx) ss
      else ret tx ss
  in
  match body ss with
  | Ok (tx, _) => Ok tx
  | Throw e => Throw e
  end.

(** The kind-specific data of [tx] is read back right after the type and
    version bytes. *)
Definition exclusive_round_trips (tx : Transaction) : Prop :=
  exists s, call (ser_exclusiveData serialize (type tx)) tx = Ok s /\
    forall ss post,
      positioned ss (num2hexstring (type tx) 2 ++ num2hexstring (version tx) 2)
                 (s ++ post) ->
      exists ss',
        scall (de_exclusiveData deserialize (type tx)) ss
          = Ok (exclusiveData tx, ss') /\
        positioned ss'
          ((num2hexstring (type tx) 2 ++ num2hexstring (version tx) 2) ++ s) post.

End Model.

Arguments Transaction : clear implicits.
Arguments Serialize : clear implicits.
Arguments Deserialize : clear implicits.

End Transactions.

(** ** Wallet ([wallet.js]) *)

Module Wallet.

Import Bytes.

(** The capabilities taken from the libraries: CryptoJS (hex parsing,
    SHA-256, RIPEMD-160), base-x with the base58 alphabet, ecurve and
    elliptic on the curve secp256r1. *)
Class Primitives : Type := {
  (** [CryptoJS.enc.Hex.parse] *)
  Hex_parse : string -> list Z;
  SHA256 : list Z -> list Z;
  RIPEMD160 : list Z -> list Z;
  (** [base58.encode], [base58.decode] *)
  base58_encode : list Z -> string;
  base58_decode : string -> result (list Z);
  (** [ecparams.G.multiply(BigInteger.fromBuffer(k)).getEncoded(encode)] *)
  G_multiply_getEncoded : list number -> bool -> list Z;
  (** [ecurve.Point.decodeFrom(ecparams, Buffer.from(pk, 'hex')).affineY.toBuffer(32)] *)
  decodeFrom_affineY : string -> result (list Z);
  (** [new EC('p256').sign(msgHash, privateKey, null)], as the pair (r, s) *)
  ec_sign : list Z -> string -> Z * Z
}.

(** What the wallet relies on from these capabilities. *)
Class PrimitivesLaws (P : Primitives) : Prop := {
  Hex_parse_bytes2hex :
    forall bs, Forall is_byte bs -> Hex_parse (bytes2hex bs) = bs;
  SHA256_length : forall m, List.length (SHA256 m) = 32%nat;
  SHA256_bytes : forall m, Forall is_byte (SHA256 m);
  RIPEMD160_length : forall m, List.length (RIPEMD160 m) = 20%nat;
  RIPEMD160_bytes : forall m, Forall is_byte (RIPEMD160 m);
  base58_decode_encode :
    forall bs, Forall is_byte bs -> base58_decode (base58_encode bs) = Ok bs;
  base58_decode_bytes :
    forall s bs, base58_decode s = Ok bs -> Forall is_byte bs;
  base58_encode_nonempty :
    forall bs, bs <> [] -> base58_encode bs <> "";
  ec_sign_range :
    forall h k, 0 <= fst (ec_sign h k) < 2 ^ 256 /\ 0 <= snd (ec_sign h k) < 2 ^ 256
}.

(** A function that returns a value or a numeric error code. *)
Inductive or_code (A : Type) : Type :=
| Code (n : Z)
| Val (a : A).
Arguments Code {A} n.
Arguments Val {A} a.

Record Account : Type := mkAccount {
  privateKey : option string;
  publicKeyEncoded : string;
  publicKeyHash : string;
  programHash : string;
  address : string
}.

Definition wallet_script_head : string :=
  "5fc56b6a51527ac46a51c34c097369676e61747572656175754c21".

Definition wallet_script_tail : string :=
  "6a52527ac44c20e72d286979ee6cb103e65dfddfb2e384100b8d148e7758de42e4168b71" ++
  "792c606a53527ac4616168164e656f2e52756e74696d652e476574547269676765726161" ++
  "9c5186009c630700006c75666a51c36a52c361617c65ed01009e630800006c7566616168" ++
  "2953797374656d2e457865637574696f6e456e67696e652e476574536372697074436f6e" ++
  "7461696e65726a54527ac46161682d53797374656d2e457865637574696f6e456e67696e" ++
  "652e476574457865637574696e67536372697074486173686a55527ac46a54c376009e63" ++
  "0500616161681a4e656f2e5472616e73616374696f6e2e4765744f7574707574736a5652" ++
  "7ac4006a5d527ac46a56c36a57527ac4006a58527ac46a58c36a57c3c0a26397006a57c3" ++
  "6a58c3c36a59527ac46a59c36a5a527ac46a5ac3616168184e656f2e4f75747075742e47" ++
  "6574536372697074486173686a55c3619c009c634c006a5ac3616168154e656f2e4f7574" ++
  "7075742e476574417373657449646a53c3619c009c6326006a5dc36a5ac3616168134e65" ++
  "6f2e4f75747075742e47657456616c7565936a5d527ac4616a58c351936a58527ac46264" ++
  "ff616a5dc300948d00a1638b006a56c300c3616168184e656f2e4f75747075742e476574" ++
  "536372697074486173686a57527ac44c1377616c6c65745f7265717565737454784f7574" ++
  "54c576006a51c3c476516a52c3c476526a57c3764c09726563697069656e74617575c476" ++
  "536a5dc361c461617c6730a2b04139d714564eb956896498616cf8acc8db6a58527ac46a" ++
  "58c36c7566516c75666153c56b6a00527ac46a51527ac46a00c36a51c361ac6c756661".

(** Wallet revision a6e6bc6a503123fac7542efcbb26da3ab5b01efc. *)
Definition createChainLineWalletScript (publicKeyEncoded : string) : string :=
  wallet_script_head ++ publicKeyEncoded ++ wallet_script_tail.

Definition createSignatureScript (publicKeyEncoded : string) : string :=
  "21" ++ publicKeyEncoded ++ "ac".

Section Model.

Context {P : Primitives}.

Definition addressToScriptHash (address : string) : result string :=
  data <- base58_decode address ;;
  Ok (ab2hexstring (of_bytes (slice data 1 21))).

Definition getHash (signatureScript : string) : string :=
  let ProgramHexString := Hex_parse signatureScript in
  let ProgramSha256 := SHA256 ProgramHexString in
  bytes2hex (RIPEMD160 ProgramSha256).

Definition toAddress (ProgramHash : list number) : result string :=
  if negb (List.length ProgramHash =? 20)%nat then Throw "Invalid ProgramHash length"
  else
    let data := Uint8Array_new (1 + List.length ProgramHash) in
    data <- Uint8Array_set data [Int 23] 0 ;;
    data <- Uint8Array_set data ProgramHash 1 ;;
    let scriptHashHex := Hex_parse (ab2hexstring (of_bytes data)) in
    let scriptHashSha := SHA256 scriptHashHex in
    let scriptHashSha2 := SHA256 scriptHashSha in
    let scriptHashShaBuffer := hexstring2ab (bytes2hex scriptHashSha2) in
    let datas := Uint8Array_new (1 + List.length ProgramHash + 4) in
    datas <- Uint8Array_set datas (of_bytes data) 0 ;;
    datas <- Uint8Array_set datas (slice scriptHashShaBuffer 0 4) 21 ;;
    Ok (base58_encode datas).

(** The bytes that an address encodes: the version byte 23, the script
    hash, and the first four bytes of the double SHA-256 of those 21
    bytes. *)
Definition address_bytes (scriptHash : list Z) : list Z :=
  let data := 23 :: scriptHash in
  (data ++ firstn 4 (SHA256 (SHA256 data)))%list.

(** The conditions on decoded WIF bytes: 38 bytes, first byte 0x80, byte
    33 equal to 0x01, and the last four bytes equal to the first four
    bytes of the double SHA-256 of the first 34. *)
Definition wif_conditions (data : list Z) : Prop :=
  List.length data = 38%nat /\
  nth_error data 0 = Some 0x80 /\
  nth_error data 33 = Some 0x01 /\
  slice data 34 38 = firstn 4 (SHA256 (SHA256 (firstn 34 data))).

Definition getPublicKey (privateKey : string) (encode : bool) : list Z :=
  G_multiply_getEncoded (hexstring2ab privateKey) encode.

Definition verifyPublicKeyEncoded (publicKeyEncoded : string) : result bool :=
  let publicKeyArray := hexstring2ab publicKeyEncoded in
  let first := nth_error publicKeyArray 0 in
  match first with
  | Some (Int 2) | Some (Int 3) =>
      curvePtY <- decodeFrom_affineY publicKeyEncoded ;;
      let parity := option_map (fun y => Z.rem y 2) (nth_error curvePtY 31) in
      match first, parity with
      | Some (Int 2), Some 0 => Ok true
      | Some (Int 3), Some 1 => Ok true
      | _, _ => Ok false
      end
  | _ => Ok false
  end.

Definition getAccountFromPublicKey (publicKeyEncoded : string)
  (privateKey : option string) : result (or_code Account) :=
  ok <- verifyPublicKeyEncoded publicKeyEncoded ;;
  if negb ok then Ok (Code (-1))
  else
    let publicKeyHash := getHash publicKeyEncoded in
    let script := createChainLineWalletScript publicKeyEncoded in
    let programHash := getHash script in
    address <- toAddress (hexstring2ab programHash) ;;
    Ok (Val (mkAccount privateKey publicKeyEncoded publicKeyHash programHash address)).

Definition getAccountFromPrivateKey (privateKey : string)
  : result (or_code Account) :=
  if negb (String.length privateKey =? 64)%nat then Ok (Code (-1))
  else
    let publicKeyEncoded := getPublicKey privateKey true in
    getAccountFromPublicKey (ab2hexstring (of_bytes publicKeyEncoded))
                            (Some privateKey).

(** A private key of 64 characters whose public key passes
    [verifyPublicKeyEncoded]. *)
Definition valid_key (k : string) : Prop :=
  String.length k = 64%nat /\
  verifyPublicKeyEncoded (ab2hexstring (of_bytes (getPublicKey k true))) = Ok true.

Definition getPrivateKeyFromWIF (wif : string) : result (or_code string) :=
  data <- base58_decode wif ;;
  if (negb (List.length data =? 38)%nat
      || negb (match nth_error data 0 with Some b => b =? 0x80 | None => false end)
      || negb (match nth_error data 33 with Some b => b =? 0x01 | None => false end))%bool
  then Ok (Code (-1))
  else
    let dataHexString :=
      Hex_parse (ab2hexstring (of_bytes (slice data 0 (List.length data - 4)))) in
    let dataSha := SHA256 dataHexString in
    let dataSha2 := SHA256 dataSha in
    let dataShaBuffer := hexstring2ab (bytes2hex dataSha2) in
    if negb (ab2hexstring (slice dataShaBuffer 0 4)
             =? ab2hexstring (of_bytes (slice data (List.length data - 4) (List.length data))))%string
    then Ok (Code (-2))
    else Ok (Val (bytes2hex (slice data 1 33))).

Definition getAccountFromWIFKey (WIFKey : string) : result (or_code Account) :=
  privateKey <- getPrivateKeyFromWIF WIFKey ;;
  match privateKey with
  | Code c => Ok (Code c)
  | Val k => getAccountFromPrivateKey k
  end.

Definition signatureData (data : string) (privateKey : string) : result string :=
  let msg := Hex_parse data in
  let msgHash := SHA256 msg in
  let msgHashHex := Buffer_from_hex (bytes2hex msgHash) in
  let sig := ec_sign msgHashHex privateKey in
  r <- toArrayLike_be (fst sig) 32 ;;
  s <- toArrayLike_be (snd sig) 32 ;;
  Ok (bytes2hex (r ++ s)%list).

End Model.

End Wallet.

(** ** Signing and hashing a transaction ([transactions/index.js]) *)

Module Signing.

Import Bytes Transactions Wallet.

Section Model.

Context {object exclusive : Type} {P : Primitives}.
Context (serialize : Serialize object exclusive).

#[local] Abbreviation Transaction := (Transactions.Transaction object exclusive).

(** Reading [.publicKeyEncoded] off the result of
    [getAccountFromPrivateKey]: [undefined] when the result is the number
    [-1], and [undefined] is then concatenated as text. *)
Definition publicKeyEncoded_of (r : or_code Account) : string :=
  match r with
  | Val a => publicKeyEncoded a
  | Code _ => "undefined"
  end.

Definition signTransaction (transaction : Transaction) (privateKey : string)
  : result Transaction :=
  data <- serializeTransaction serialize transaction false ;;
  sig <- signatureData data privateKey ;;
  let invocationScript := "40" ++ sig in
  account <- getAccountFromPrivateKey privateKey ;;
  let verificationScript :=
    createChainLineWalletScript (publicKeyEncoded_of account) in
  let witness := mkWitness invocationScript verificationScript in
  Ok (push_scripts transaction witness).

(** The witness that a signer with key [privateKey] adds for the unsigned
    bytes [data]: 0x40, then r and s of the signature over the SHA-256
    digest of [data], each on 32 bytes, most significant first; and the
    wallet script of the signer's public key. *)
Definition witness_of (data : string) (privateKey : string) : Witness :=
  let sig := ec_sign (SHA256 (Hex_parse data)) privateKey in
  mkWitness
    ("40" ++ bytes2hex (be_bytes 32 (fst sig) ++ be_bytes 32 (snd sig))%list)
    (createChainLineWalletScript
       (ab2hexstring (of_bytes (getPublicKey privateKey true)))).

Definition getTransactionHash (transaction : Transaction) : result string :=
  data <- serializeTransaction serialize transaction false ;;
  let txString := Hex_parse data in
  let hash := bytes2hex (SHA256 (SHA256 txString)) in
  reverseHex hash.

End Model.

End Signing.

(** ** The other conversions of [utils.js] *)

Module MoreUtils.

Import Bytes.

(** [int2hex], for an integer argument. *)
Definition int2hex (mNumber : Z) (reverse : bool) : result string :=
  let h := toString16 mNumber in
  let hex := if Nat.odd (String.length h) then "0" ++ h else h in
  if reverse then reverseHex hex else Ok hex.

Definition hex2int (hex : string) : result number :=
  r <- reverseHex hex ;; Ok (parseInt16 r).

(** [fixed82num]: the quotient is an exact rational; [None] is [NaN]. *)
Definition fixed82num (fixed8 : string) : result (option Q) :=
  r <- reverseHex fixed8 ;;
  Ok (match parseInt16 r with
      | Int n => Some (inject_Z n / inject_Z 100000000)%Q
      | NaN => None
      end).

(** The operator [^]: both operands are converted to 32-bit integers. *)
Definition ToInt32 (x : number) : Z :=
  match x with
  | NaN => 0
  | Int n => (n + 2 ^ 31) mod 2 ^ 32 - 2 ^ 31
  end.

Definition bitxor (a b : number) : number :=
  Int (Z.lxor (ToInt32 a) (ToInt32 b)).

(** The loop of [hexXor], on two strings of the same even length. *)
Fixpoint xor_pairs (str1 str2 : string) : list number :=
  match str1, str2 with
  | String a (String b r1), String c (String d r2) =>
      bitxor (parseInt16 (String a (String b "")))
             (parseInt16 (String c (String d ""))) :: xor_pairs r1 r2
  | _, _ => []
  end.

Definition hexXor (str1 str2 : string) : result string :=
  if negb (String.length str1 =? String.length str2)%nat then Throw ""
  else if negb (String.length str1 mod 2 =? 0)%nat then Throw ""
  else Ok (ab2hexstring (xor_pairs str1 str2)).

(** [reverseArray]: the result is a [Uint8Array] filled index by index. *)
Definition reverseArray (arr : list number) : list Z :=
  map (fun i => ToUint8 (nth (List.length arr - 1 - i) arr NaN))
      (seq 0 (List.length arr)).

(** The value of a byte list read most significant byte first. *)
Definition be_value (bs : list Z) : Z :=
  fold_left (fun acc b => acc * 256 + b) bs 0.

(** Every character is a lower-case digit of radix 16. *)
Fixpoint lower_hex (s : string) : bool :=
  match s with
  | String c s' =>
      match digit_of c with
      | Some d => (Ascii.eqb (hexdigit d) c && lower_hex s')%bool
      | None => false
      end
  | EmptyString => true
  end.

(** [String.fromCharCode(x)]: the code unit of the character. *)
Definition ToUint16 (x : number) : Z :=
  match x with
  | NaN => 0
  | Int n => n mod 65536
  end.

(** [hexstring2a]: one character per two-character step, a last single
    character included; the result as its list of code units. *)
Fixpoint hexstring2a (hex : string) : list Z :=
  match hex with
  | EmptyString => []
  | String a EmptyString => [ToUint16 (parseInt16 (String a ""))]
  | String a (String b rest) =>
      ToUint16 (parseInt16 (String a (String b ""))) :: hexstring2a rest
  end.

End MoreUtils.

(** ** The other functions of [wallet.js] *)

Module MoreWallet.

Import Bytes Wallet.

(** [getPublicKeyEncoded]: the parity of byte 64 picks the prefix; a
    missing byte or [NaN] is not odd. *)
Definition getPublicKeyEncoded (publicKey : string) : string :=
  let publicKeyArray := hexstring2ab publicKey in
  let odd :=
    match nth_error publicKeyArray 64 with
    | Some (Int n) => Z.rem n 2 =? 1
    | _ => false
    end in
  if odd then "03" ++ ab2hexstring (slice publicKeyArray 1 33)
  else "02" ++ ab2hexstring (slice publicKeyArray 1 33).

Definition addContract (txData sign publicKeyEncoded : string) : string :=
  let signatureScript := createChainLineWalletScript publicKeyEncoded in
  let data := txData ++ "01" in
  let data := data ++ "41" in
  let data := data ++ "40" in
  let data := data ++ sign in
  let data := data ++ "23" in
  let data := data ++ signatureScript in
  data.

Section Model.

Context {P : Primitives}.

(** [WIF.encode] of the wif package. *)
Context (WIF_encode : Z -> list Z -> bool -> result string).

Definition getWIFFromPrivateKey (privateKey : list number) : result string :=
  let hexKey := ab2hexstring privateKey in
  WIF_encode 128 (Buffer_from_hex hexKey) true.

(** The bytes of a WIF string for a key: 0x80, the key, 0x01, and the
    first four bytes of the double SHA-256 of those 34 bytes. *)
Definition wif_bytes (key : list Z) : list Z :=
  let body := (0x80 :: key ++ [0x01])%list in
  (body ++ firstn 4 (SHA256 (SHA256 body)))%list.

Definition getScriptHashFromAddress (address : string) : result string :=
  data <- base58_decode address ;;
  let hash := ab2hexstring (of_bytes data) in
  reverseHex (substr hash 2 40).

Definition getScriptHashFromPublicKey (publicKey : string) : result string :=
  address <- toAddress (hexstring2ab (getHash (createChainLineWalletScript publicKey))) ;;
  getScriptHashFromAddress address.

Definition verifyAddress (address : string) : result bool :=
  programHash <- base58_decode address ;;
  let programHexString :=
    Hex_parse (ab2hexstring (of_bytes (slice programHash 0 21))) in
  let programSha256 := SHA256 programHexString in
  let programSha256Twice := SHA256 programSha256 in
  let programSha256Buffer := hexstring2ab (bytes2hex programSha256Twice) in
  if negb (ab2hexstring (slice programSha256Buffer 0 4)
           =? ab2hexstring (of_bytes (slice programHash 21 25)))%string
  then Ok false
  else
    a <- toAddress (of_bytes (slice programHash 1 21)) ;;
    if negb (a =? address)%string then Ok false else Ok true.

End Model.

End MoreWallet.

(** ** Demand and travel records ([chainline.js]) *)

Module Chainline.

Import MoreUtils.

Definition DEMAND_SIZE : nat := 160.
Definition TRAVEL_SIZE : nat := 27.
Definition TIMESTAMP_SIZE : nat := 4.
Definition VALUE_SIZE : nat := 5.
Definition REP_REQUIRED_SIZE : nat := 2.
Definition CARRY_SPACE_SIZE : nat := 1.
Definition HASH160_SIZE : nat := 20.
Definition INFO_BLOB_SIZE : nat := 128.

(** [consumeBytes]: the state is the hex string still to be read. *)
Definition consumeBytes (bytes : nat) (hex : string) : string * string :=
  (substr hex 0 (bytes * 2), substring_from (bytes * 2) hex).

(** [isDemandHex] and [isTravelHex] on a string. *)
Definition isDemandHex (hex : string) : bool :=
  let expectedSize := (DEMAND_SIZE * 2)%nat in
  let expectedSizeWithTimestamp := (expectedSize + TIMESTAMP_SIZE * 2)%nat in
  ((String.length hex =? expectedSize)%nat
   || (String.length hex =? expectedSizeWithTimestamp)%nat)%bool.

Definition isTravelHex (hex : string) : bool :=
  let expectedSize := (TRAVEL_SIZE * 2)%nat in
  let expectedSizeWithTimestamp := (expectedSize + TIMESTAMP_SIZE * 2)%nat in
  ((String.length hex =? expectedSize)%nat
   || (String.length hex =? expectedSizeWithTimestamp)%nat)%bool.

(** [x || 0] on a number. *)
Definition or_zero (x : number) : Z :=
  match x with
  | NaN => 0
  | Int n => n
  end.

Definition or_zeroQ (x : option Q) : Q :=
  match x with
  | None => 0
  | Some q => q
  end.

(** A date is held as its time value in milliseconds. *)
Record Demand : Type := mkDemand {
  isDemand : bool;
  demand_expiry : Z;
  itemValue : Q;
  demand_owner : string;
  demand_repRequired : Z;
  itemSize : Z;
  infoBlob : list Z
}.

Record Travel : Type := mkTravel {
  isTravel : bool;
  travel_expiry : Z;
  travel_repRequired : Z;
  carrySpace : Z;
  travel_owner : string
}.

(** [parseDemandHex] on a string; [None] is [null]. *)
Definition parseDemandHex (hex : string) : result (option Demand) :=
  if negb (isDemandHex hex) then Ok None
  else
    let '(expiry, state) := consumeBytes TIMESTAMP_SIZE hex in
    let '(itemValue, state) := consumeBytes VALUE_SIZE state in
    let '(owner, state) := consumeBytes HASH160_SIZE state in
    let '(repRequired, state) := consumeBytes REP_REQUIRED_SIZE state in
    let '(itemSize, state) := consumeBytes CARRY_SPACE_SIZE state in
    let '(infoBlob, state) := consumeBytes INFO_BLOB_SIZE state in
    e <- hex2int expiry ;;
    v <- fixed82num itemValue ;;
    r <- hex2int repRequired ;;
    s <- hex2int itemSize ;;
    Ok (Some (mkDemand true (or_zero e * 1000) (or_zeroQ v) owner
                       (or_zero r) (or_zero s) (hexstring2a infoBlob))).

(** [parseTravelHex] on a string. *)
Definition parseTravelHex (hex : string) : result (option Travel) :=
  if negb (isTravelHex hex) then Ok None
  else
    let '(expiry, state) := consumeBytes TIMESTAMP_SIZE hex in
    let '(repRequired, state) := consumeBytes REP_REQUIRED_SIZE state in
    let '(carrySpace, state) := consumeBytes CARRY_SPACE_SIZE state in
    let '(owner, state) := consumeBytes HASH160_SIZE state in
    e <- hex2int expiry ;;
    r <- hex2int repRequired ;;
    c <- hex2int carrySpace ;;
    Ok (Some (mkTravel true (or_zero e * 1000) (or_zero r) (or_zero c) owner)).

End Chainline.

(** ** A sample instance

    Components of one byte each and the Contract kind (type 0x80), which
    has no kind-specific data; used to run the functions on concrete
    transactions. *)

Module Sample.

Import Transactions.

Definition ser_byte (o : Z) : result string := Ok (num2hexstring (Int o) 2).

Definition de_byte : stream Z :=
  s <~ read 1 ;;
  match parseInt16 s with
  | Int n => ret n
  | NaN => fun _ => Throw "not a byte"
  end.

Definition ser_witness (w : Witness) : result string :=
  Ok (num2VarInt (slen (invocationScript w) / 2) ++ invocationScript w ++
      num2VarInt (slen (verificationScript w) / 2) ++ verificationScript w).

Definition de_witness : stream Witness :=
  n <~ readVarInt ;;
  i <~ read (iterations n) ;;
  m <~ readVarInt ;;
  v <~ read (iterations m) ;;
  ret (mkWitness i v).

Definition serialize : Serialize Z unit :=
  mkSerialize ser_byte ser_byte ser_byte ser_witness
    (fun ty => if is_int ty 0x80 then Some (fun _ => Ok "") else None).

Definition deserialize : Deserialize Z unit :=
  mkDeserialize de_byte de_byte de_byte de_witness
    (fun ty => if is_int ty 0x80 then Some (ret tt) else None).

(** A Contract transaction with one attribute, two inputs and one output. *)
Definition tx1 : Transaction Z unit :=
  mkTransaction (Int 0x80) (Int 0) [0x20] [1; 2] [3] (Some []) tt.

(** Stand-ins for the library capabilities: a position-dependent checksum
    in place of the digests, two hex digits per byte in place of base58, a
    fixed curve point and a fixed signature rule. *)

Definition checksum (n : nat) (m : list Z) : list Z :=
  let mix := fold_left (fun a b => (a * 31 + b + 7) mod 65521) m 1 in
  map (fun i => (mix * (Z.of_nat i + 1) + Z.of_nat i) mod 256) (seq 0 n).

Definition hex_decode (s : string) : result (list Z) :=
  if (Nat.even (String.length s) && all_hex s)%bool then Ok (Bytes.Buffer_from_hex s)
  else Throw "Non-base58 character".

Definition primitives : Wallet.Primitives := {|
  Wallet.Hex_parse := Bytes.Buffer_from_hex;
  Wallet.SHA256 := checksum 32;
  Wallet.RIPEMD160 := checksum 20;
  Wallet.base58_encode := Bytes.bytes2hex;
  Wallet.base58_decode := hex_decode;
  Wallet.G_multiply_getEncoded := fun k _ => 2 :: checksum 32 (map Bytes.ToUint8 k);
  Wallet.decodeFrom_affineY := fun _ => Ok (repeat 0 32);
  Wallet.ec_sign :=
    fun h k => (fold_left Z.add h 1 mod 2 ^ 256, (slen k + 1) mod 2 ^ 256)
|}.

(** A private key and a WIF string for the stand-in codec. *)
Definition key1 : string :=
  "9ab7e154840daca3a2efadaf0df93cd3a5b51768c632f5433f86909d9b994a69".

Definition key2 : string :=
  "0000000000000000000000000000000000000000000000000000000000000001".

Definition wif1 : string :=
  let body := (0x80 :: Bytes.Buffer_from_hex key1 ++ [0x01])%list in
  Bytes.bytes2hex (body ++ firstn 4 (checksum 32 (checksum 32 body)))%list.

End Sample.

(** ** More sample values *)

Module MoreSample.

Import Sample.

(** A stand-in for [WIF.encode] over the stand-in codec. *)
Definition WIF_encode (version : Z) (key : list Z) (compressed : bool)
  : result string :=
  if negb (List.length key =? 32)%nat then Throw "Invalid privateKey length"
  else
    let body := (version :: key ++ (if compressed then [0x01] else []))%list in
    Ok (Bytes.bytes2hex (body ++ firstn 4 (checksum 32 (checksum 32 body)))%list).

Definition hash1 : list Z := map Z.of_nat (seq 1 20).

Definition address1 : string :=
  Bytes.bytes2hex
    ((23 :: hash1) ++ firstn 4 (checksum 32 (checksum 32 (23 :: hash1))))%list.

(** A transaction with one witness. *)
Definition witness1 : Transactions.Witness :=
  Transactions.mkWitness "4041" "2102ac".

Definition tx2 : Transactions.Transaction Z unit :=
  Transactions.mkTransaction (Int 0x80) (Int 0) [] [1; 2] [3] (Some [witness1]) tt.

(** An uncompressed public key [04 X Y] with an even [Y]. *)
Definition pointX : list Z := map Z.of_nat (seq 1 32).
Definition pointY : list Z := repeat 0 32.

(** A travel record: expiry, reputation, carry space, owner. *)
Definition travel1 : string :=
  "00e1f505" ++ "0a00" ++ "03" ++ "0102030405060708090a0b0c0d0e0f1011121314".

End MoreSample.

(** * Properties *)

(** ** Strings *)

Module StringFacts.

Lemma length_append (a b : string) :
  String.length (a ++ b) = (String.length a + String.length b)%nat.
Proof. induction a as [|c a IH]; simpl; [reflexivity | now rewrite IH]. Qed.

Lemma append_assoc (a b c : string) : (a ++ b) ++ c = a ++ (b ++ c).
Proof. induction a as [|x a IH]; simpl; [reflexivity | now rewrite IH]. Qed.

Lemma append_nil_r (a : string) : a ++ "" = a.
Proof. induction a as [|x a IH]; simpl; [reflexivity | now rewrite IH]. Qed.

Lemma substring_from_0 (s : string) : substring_from 0 s = s.
Proof. now destruct s. Qed.

Lemma substring_from_app (a b : string) :
  substring_from (String.length a) (a ++ b) = b.
Proof. induction a as [|x a IH]; simpl; [apply substring_from_0 | exact IH]. Qed.

Lemma substring_from_add (n m : nat) (s : string) :
  substring_from (n + m) s = substring_from m (substring_from n s).
Proof.
  revert s; induction n as [|n IH]; intros s; simpl.
  - reflexivity.
  - destruct s as [|c s]; simpl; [now destruct m | apply IH].
Qed.

Lemma substring_from_length (n : nat) (s : string) :
  String.length (substring_from n s) = (String.length s - n)%nat.
Proof.
  revert s; induction n as [|n IH]; intros [|c s]; simpl; auto.
Qed.

Lemma substring_from_all (n : nat) (s : string) :
  (String.length s <= n)%nat -> substring_from n s = "".
Proof.
  revert s; induction n as [|n IH]; intros [|c s]; simpl; intros H;
    try reflexivity; try lia.
  apply IH; lia.
Qed.

Lemma length_repeat0 (n : nat) : String.length (repeat0 n) = n.
Proof. induction n; simpl; congruence. Qed.

Lemma repeat0_add (n m : nat) : repeat0 (n + m) = repeat0 n ++ repeat0 m.
Proof. induction n as [|n IH]; simpl; [reflexivity | now rewrite IH]. Qed.

(** [substr] picks the middle of a three-part string. *)
Lemma substr_middle (a b c : string) :
  substr (a ++ b ++ c) (String.length a) (String.length b) = b.
Proof.
  unfold substr. induction a as [|x a IH]; simpl.
  - induction b as [|y b IHb]; simpl.
    + now destruct c.
    + now rewrite IHb.
  - exact IH.
Qed.

Lemma length_0_nil (s : string) : String.length s = 0%nat -> s = "".
Proof. destruct s; simpl; [reflexivity | discriminate]. Qed.

End StringFacts.

(** ** Hexadecimal digits and [parseInt] *)

Module HexFacts.

Import StringFacts.

Lemma digit_of_hexdigit (d : Z) :
  0 <= d < 16 -> digit_of (hexdigit d) = Some d.
Proof.
  intros H.
  assert (d = 0 \/ d = 1 \/ d = 2 \/ d = 3 \/ d = 4 \/ d = 5 \/ d = 6 \/ d = 7 \/
          d = 8 \/ d = 9 \/ d = 10 \/ d = 11 \/ d = 12 \/ d = 13 \/ d = 14 \/ d = 15)
    as C by lia.
  repeat (destruct C as [-> | C]; [reflexivity|]). now subst.
Qed.

Lemma digit_of_range (c : ascii) (d : Z) : digit_of c = Some d -> 0 <= d < 16.
Proof.
  intros H. destruct c as [[] [] [] [] [] [] [] []]; vm_compute in H;
    try discriminate; injection H as <-; lia.
Qed.

(** A digit is neither white space, nor a sign, nor the letter x. *)
Lemma digit_of_plain (c : ascii) (d : Z) :
  digit_of c = Some d ->
  is_white c = false /\ c <> "-"%char /\ c <> "+"%char /\
  c <> "x"%char /\ c <> "X"%char.
Proof.
  intros H. destruct c as [[] [] [] [] [] [] [] []]; vm_compute in H;
    try discriminate; repeat split; discriminate.
Qed.

Lemma hexval_from_app (s t : string) (acc : Z) :
  hexval_from acc (s ++ t) = hexval_from (hexval_from acc s) t.
Proof. revert acc; induction s as [|c s IH]; intros acc; simpl; auto. Qed.

Lemma hexval_from_shift (s : string) (acc : Z) :
  hexval_from acc s = acc * 16 ^ slen s + hexval s.
Proof.
  unfold hexval, slen. revert acc; induction s as [|c s IH]; intros acc.
  - simpl. lia.
  - cbn [hexval_from String.length]. rewrite IH, (IH (16 * 0 + _)).
    rewrite Nat2Z.inj_succ, Z.pow_succ_r by lia. ring.
Qed.

Lemma hexval_app (s t : string) :
  hexval (s ++ t) = hexval s * 16 ^ slen t + hexval t.
Proof.
  unfold hexval at 1. rewrite hexval_from_app, hexval_from_shift. reflexivity.
Qed.

Lemma hexval_cons (c : ascii) (s : string) :
  hexval (String c s) =
  match digit_of c with Some d => d | None => 0 end * 16 ^ slen s + hexval s.
Proof.
  change (String c s) with (String c "" ++ s). rewrite hexval_app.
  unfold hexval at 1. simpl. destruct (digit_of c); reflexivity.
Qed.

Lemma hexval_bounds (s : string) : all_hex s = true -> 0 <= hexval s < 16 ^ slen s.
Proof.
  induction s as [|c s IH]; intros H.
  - unfold hexval, slen; simpl; lia.
  - simpl in H. rewrite hexval_cons. destruct (digit_of c) as [d|] eqn:E; [|discriminate].
    apply digit_of_range in E. specialize (IH H).
    unfold slen in *. cbn [String.length]. rewrite Nat2Z.inj_succ, Z.pow_succ_r by lia.
    nia.
Qed.

Lemma hexval_repeat0 (n : nat) : hexval (repeat0 n) = 0.
Proof.
  induction n as [|n IH]; [reflexivity|].
  simpl. rewrite hexval_cons, IH. simpl. lia.
Qed.

Lemma all_hex_app (s t : string) :
  all_hex (s ++ t) = (all_hex s && all_hex t)%bool.
Proof.
  induction s as [|c s IH]; simpl; [reflexivity|].
  destruct (digit_of c); [exact IH | reflexivity].
Qed.

Lemma all_hex_repeat0 (n : nat) : all_hex (repeat0 n) = true.
Proof. induction n; simpl; auto. Qed.

Lemma all_hex_substring_from (n : nat) (s : string) :
  all_hex s = true -> all_hex (substring_from n s) = true.
Proof.
  revert s; induction n as [|n IH]; intros [|c s]; simpl; auto.
  destruct (digit_of c); [apply IH | discriminate].
Qed.

(** Dropping leading digits keeps the value modulo the remaining width. *)
Lemma hexval_substring_from (n : nat) (s : string) :
  all_hex s = true -> (n <= String.length s)%nat ->
  hexval (substring_from n s) = hexval s mod 16 ^ (slen s - Z.of_nat n).
Proof.
  revert s; induction n as [|n IH]; intros s Hs Hn.
  - rewrite substring_from_0, Z.sub_0_r.
    symmetry; apply Z.mod_small, hexval_bounds, Hs.
  - destruct s as [|c s]; [simpl in Hn; lia|].
    simpl in Hs, Hn. destruct (digit_of c) as [d|] eqn:E; [|discriminate].
    cbn [substring_from]. rewrite IH by (auto; lia).
    rewrite hexval_cons, E. unfold slen. cbn [String.length].
    replace (Z.of_nat (S (String.length s)) - Z.of_nat (S n))
      with (Z.of_nat (String.length s) - Z.of_nat n) by lia.
    set (k := Z.of_nat (String.length s) - Z.of_nat n).
    replace (Z.of_nat (String.length s)) with (Z.of_nat n + k) by lia.
    rewrite Z.pow_add_r by lia.
    replace (d * (16 ^ Z.of_nat n * 16 ^ k) + hexval s)
      with (hexval s + d * 16 ^ Z.of_nat n * 16 ^ k) by ring.
    now rewrite Z_mod_plus_full.
Qed.

Lemma parse_digits_hex (s : string) (acc : option Z) :
  all_hex s = true -> s <> "" ->
  parse_digits s acc =
  Some (hexval_from (match acc with Some a => a | None => 0 end) s).
Proof.
  revert acc; induction s as [|c s IH]; intros acc Hs Hne; [congruence|].
  simpl in *. destruct (digit_of c) as [d|]; [|discriminate].
  destruct s as [|c' s]; [reflexivity|]. rewrite IH by (auto; discriminate).
  reflexivity.
Qed.

(** [parseInt] of a non-empty string of digits is its value. *)
Lemma parseInt16_hex (s : string) :
  all_hex s = true -> s <> "" -> parseInt16 s = Int (hexval s).
Proof.
  intros Hs Hne. destruct s as [|c s]; [congruence|].
  assert (Hd : exists d, digit_of c = Some d).
  { simpl in Hs. destruct (digit_of c); [eauto | discriminate]. }
  destruct Hd as [d Hd]. destruct (digit_of_plain _ _ Hd) as (Hw & Hm & Hp & Hx & HX).
  unfold parseInt16. cbn [skip_white]. rewrite Hw.
  assert (Hsign :
    match String c s with
    | String "-" r => (-1, r)
    | String "+" r => (1, r)
    | _ => (1, String c s)
    end = (1, String c s)).
  { destruct c as [[] [] [] [] [] [] [] []]; try reflexivity; congruence. }
  rewrite Hsign.
  assert (H0x : strip_0x (String c s) = String c s).
  { unfold strip_0x. destruct s as [|c' s]; [now destruct c as [[] [] [] [] [] [] [] []]|].
    assert (Hd' : exists d', digit_of c' = Some d').
    { simpl in Hs. rewrite Hd in Hs. simpl in Hs.
      destruct (digit_of c'); [eauto | discriminate]. }
    destruct Hd' as [d' Hd']. destruct (digit_of_plain _ _ Hd') as (_ & _ & _ & Hx' & HX').
    destruct c as [[] [] [] [] [] [] [] []]; try reflexivity;
      destruct c' as [[] [] [] [] [] [] [] []]; try reflexivity; congruence. }
  rewrite H0x, parse_digits_hex by (auto; discriminate).
  unfold hexval. f_equal. lia.
Qed.


(** The digits produced by [hex_digits] when the fuel covers the number. *)
Lemma hex_digits_spec (fuel : nat) :
  forall (n : Z) (acc : string),
    0 <= n < 16 ^ Z.of_nat fuel -> (0 < fuel)%nat ->
    exists s,
      hex_digits fuel n acc = s ++ acc /\ all_hex s = true /\ hexval s = n /\
      (1 <= String.length s)%nat /\ n < 16 ^ slen s /\
      (0 < n -> 16 ^ (slen s - 1) <= n).
Proof.
  induction fuel as [|fuel IH]; intros n acc Hn Hf; [lia|].
  cbn [hex_digits].
  assert (Hm : 0 <= n mod 16 < 16) by (apply Z.mod_pos_bound; lia).
  destruct (n / 16 =? 0) eqn:Hq.
  - apply Z.eqb_eq in Hq.
    assert (Hsmall : n = n mod 16) by (rewrite (Z.div_mod n 16) at 1 by lia; lia).
    exists (String (hexdigit (n mod 16)) ""). repeat split.
    + simpl. now rewrite digit_of_hexdigit.
    + unfold hexval; simpl. rewrite digit_of_hexdigit by lia. lia.
    + simpl; lia.
    + unfold slen; simpl. lia.
    + intros Hpos. unfold slen; simpl. lia.
  - apply Z.eqb_neq in Hq.
    assert (Hq' : 0 < n / 16) by (pose proof (Z.div_pos n 16); lia).
    rewrite Nat2Z.inj_succ, Z.pow_succ_r in Hn by lia.
    assert (Hlt : n / 16 < 16 ^ Z.of_nat fuel) by (apply Z.div_lt_upper_bound; lia).
    assert (Hfuel : (0 < fuel)%nat).
    { destruct fuel; [simpl in Hlt; lia | lia]. }
    destruct (IH (n / 16) (String (hexdigit (n mod 16)) acc)) as
      (s & Hs & Hhex & Hval & Hlen & Hub & Hlb); [lia | assumption |].
    exists (s ++ String (hexdigit (n mod 16)) ""). repeat split.
    + rewrite Hs, append_assoc. reflexivity.
    + rewrite all_hex_app, Hhex. simpl. now rewrite digit_of_hexdigit.
    + rewrite hexval_app, Hval. unfold hexval at 1, slen; simpl.
      rewrite digit_of_hexdigit by lia. rewrite (Z.div_mod n 16) at 3 by lia. lia.
    + rewrite length_append. simpl. lia.
    + unfold slen in *. rewrite length_append. cbn [String.length].
      replace (Z.of_nat (String.length s + 1)) with (Z.succ (Z.of_nat (String.length s))) by lia.
      rewrite Z.pow_succ_r by lia.
      rewrite (Z.div_mod n 16) by lia. lia.
    + intros _. specialize (Hlb Hq'). unfold slen in *. rewrite length_append.
      cbn [String.length].
      replace (Z.of_nat (String.length s + 1) - 1)
        with (Z.succ (Z.of_nat (String.length s) - 1)) by lia.
      rewrite Z.pow_succ_r by lia.
      rewrite (Z.div_mod n 16) at 1 by lia. lia.
Qed.

(** [toString(16)] of a non-negative integer: its digits, without a
    leading zero unless the number is zero. *)
Lemma toString16_spec (n : Z) :
  0 <= n ->
  all_hex (toString16 n) = true /\ hexval (toString16 n) = n /\
  (1 <= String.length (toString16 n))%nat /\ n < 16 ^ slen (toString16 n) /\
  (0 < n -> 16 ^ (slen (toString16 n) - 1) <= n).
Proof.
  intros Hn. unfold toString16. destruct (n <? 0) eqn:E; [apply Z.ltb_lt in E; lia|].
  unfold hex_of_nonneg.
  destruct (hex_digits_spec (S (Z.to_nat (Z.log2 n))) n "") as (s & Hs & H); [| lia |].
  - split; [assumption|]. rewrite Nat2Z.inj_succ, Z2Nat.id by apply Z.log2_nonneg.
    destruct (Z.eq_dec n 0) as [->|Hnz]; [simpl; lia|].
    apply Z.lt_le_trans with (2 ^ Z.succ (Z.log2 n)).
    + apply Z.log2_spec; lia.
    + apply Z.pow_le_mono_l. lia.
  - rewrite Hs, append_nil_r. exact H.
Qed.

Lemma toString16_width (n : Z) (size : nat) :
  0 <= n -> (0 < size)%nat ->
  (String.length (toString16 n) <= size)%nat <-> n < 16 ^ Z.of_nat size.
Proof.
  intros Hn Hsize. destruct (toString16_spec n Hn) as (_ & _ & Hlen & Hub & Hlb).
  unfold slen in *. split; intros H.
  - apply Z.lt_le_trans with (16 ^ Z.of_nat (String.length (toString16 n))); [assumption|].
    apply Z.pow_le_mono_r; lia.
  - destruct (Z.eq_dec n 0) as [->|Hnz]; [vm_compute; lia|].
    destruct (le_lt_dec (String.length (toString16 n)) size) as [|Hgt]; [assumption|].
    exfalso. specialize (Hlb ltac:(lia)).
    assert (16 ^ Z.of_nat size <= 16 ^ (Z.of_nat (String.length (toString16 n)) - 1))
      by (apply Z.pow_le_mono_r; lia).
    lia.
Qed.

End HexFacts.

(** ** Fixed-width encodings *)

Module CodecFacts.

Import StringFacts HexFacts.

Lemma pad_short (h : string) (size : nat) :
  (String.length h <= size)%nat ->
  substring_from (String.length h) (repeat0 size ++ h) =
  repeat0 (size - String.length h) ++ h.
Proof.
  intros Hle.
  replace size with (String.length h + (size - String.length h))%nat at 1 by lia.
  rewrite repeat0_add, append_assoc.
  pose proof (substring_from_app (repeat0 (String.length h))
                (repeat0 (size - String.length h) ++ h)) as E.
  now rewrite length_repeat0 in E.
Qed.

Lemma pad_long (h : string) (size : nat) :
  (size < String.length h)%nat ->
  substring_from (String.length h) (repeat0 size ++ h) =
  substring_from (String.length h - size) h.
Proof.
  intros Hgt.
  replace (String.length h) with (size + (String.length h - size))%nat at 1 by lia.
  rewrite substring_from_add. f_equal.
  pose proof (substring_from_app (repeat0 size) h) as E.
  now rewrite length_repeat0 in E.
Qed.

(** Left-padding with zeros and keeping the last [size] characters. *)
Lemma pad_low_digits (h : string) (size : nat) :
  all_hex h = true ->
  let p := substring_from (String.length h) (repeat0 size ++ h) in
  String.length p = size /\ all_hex p = true /\
  hexval p = hexval h mod 16 ^ Z.of_nat size.
Proof.
  intros Hh p. subst p.
  destruct (le_lt_dec (String.length h) size) as [Hle|Hgt].
  - rewrite pad_short by assumption. repeat split.
    + rewrite length_append, length_repeat0. lia.
    + now rewrite all_hex_app, all_hex_repeat0.
    + rewrite hexval_app, hexval_repeat0. simpl.
      symmetry; apply Z.mod_small.
      pose proof (hexval_bounds h Hh) as Hb. split; [lia|].
      apply Z.lt_le_trans with (16 ^ slen h); [lia|].
      apply Z.pow_le_mono_r; unfold slen; lia.
  - rewrite pad_long by assumption. repeat split.
    + rewrite substring_from_length. lia.
    + now apply all_hex_substring_from.
    + rewrite hexval_substring_from by (auto; lia). f_equal. f_equal.
      unfold slen. lia.
Qed.

Lemma fit_hexstring_cases (h : string) (size : nat) :
  fit_hexstring h size =
  if (negb (size =? 0)%nat && (String.length h mod size =? 0)%nat)%bool then h
  else substring_from (String.length h) (repeat0 size ++ h).
Proof. reflexivity. Qed.

(** A number that fits its width is written exactly, at that width. *)
Lemma num2hexstring_fits (n : Z) (size : nat) :
  0 <= n < 16 ^ Z.of_nat size -> (0 < size)%nat ->
  String.length (num2hexstring (Int n) size) = size /\
  all_hex (num2hexstring (Int n) size) = true /\
  hexval (num2hexstring (Int n) size) = n.
Proof.
  intros Hn Hsize. unfold num2hexstring. cbn [number_toString16].
  destruct (toString16_spec n (proj1 Hn)) as (Hhex & Hval & Hlen & _ & _).
  assert (Hw : (String.length (toString16 n) <= size)%nat)
    by (apply toString16_width; lia).
  destruct (pad_low_digits (toString16 n) size Hhex) as (Pl & Ph & Pv).
  rewrite fit_hexstring_cases.
  destruct (negb (size =? 0)%nat && (String.length (toString16 n) mod size =? 0)%nat)%bool eqn:E.
  - apply andb_prop in E as [_ E]. apply Nat.eqb_eq in E.
    assert (String.length (toString16 n) = size).
    { destruct (Nat.eq_dec (String.length (toString16 n)) size) as [|Hne]; [assumption|].
      rewrite Nat.mod_small in E by lia. lia. }
    auto.
  - repeat split; [assumption.. |].
    rewrite Pv, Hval. apply Z.mod_small. lia.
Qed.

Lemma num2hexstring_parse (n : Z) (size : nat) :
  0 <= n < 16 ^ Z.of_nat size -> (0 < size)%nat ->
  parseInt16 (num2hexstring (Int n) size) = Int n.
Proof.
  intros Hn Hsize. destruct (num2hexstring_fits n size Hn Hsize) as (Hl & Hh & Hv).
  rewrite parseInt16_hex, Hv; [reflexivity | assumption |].
  intros E. rewrite E in Hl. simpl in Hl. lia.
Qed.

End CodecFacts.

Import StringFacts HexFacts CodecFacts.
Import Gas Bytes.

(** ** Claims about the codec primitives *)




(** C2: [num2VarInt] at the seven boundary values, and what [readVarInt]
    reads back.  The markers are the documented ones, but the value after
    the marker is written most significant byte first, while [readVarInt]
    reads it least significant byte first: 0xfd, 0x10000 and 0x100000000 do
    not come back. *)
Theorem num2VarInt_boundary_values :
  map num2VarInt [0x00; 0xfc; 0xfd; 0xffff; 0x10000; 0xffffffff; 0x100000000] =
    ["00"; "fc"; "fd00fd"; "fdffff"; "fe00010000"; "feffffffff";
     "ff0000000000000001"] /\
  map (fun n => decoded_VarInt (num2VarInt n))
      [0x00; 0xfc; 0xfd; 0xffff; 0x10000; 0xffffffff; 0x100000000] =
    [Ok (Int 0x00); Ok (Int 0xfc); Ok (Int 0xfd00); Ok (Int 0xffff);
     Ok (Int 0x100); Ok (Int 0xffffffff); Ok (Int 0x100000000000000)].
Proof. split; vm_compute; reflexivity. Qed.

(** ** Fee ceiling *)







(** ** Reading from a stream *)

Module StreamFacts.

Lemma positioned_new (s : string) : positioned (new_StringStream s) "" s.
Proof. split; reflexivity. Qed.

Lemma read_positioned (k : nat) (ss : StringStream) (pre s post : string) :
  positioned ss pre (s ++ post) -> String.length s = (k * 2)%nat -> (0 < k)%nat ->
  exists ss', read k ss = Ok (s, ss') /\ positioned ss' (pre ++ s) post.
Proof.
  intros [Hstr Hp] Hlen Hk. unfold read, isEmpty.
  rewrite Hstr, Hp, !length_append, Hlen.
  replace (String.length pre + (k * 2 + String.length post) <=? String.length pre)%nat
    with false by (symmetry; apply Nat.leb_gt; lia).
  eexists; split.
  - rewrite <- Hlen, substr_middle. reflexivity.
  - split; cbn [str pter].
    + now rewrite append_assoc.
    + rewrite length_append. lia.
Qed.

Lemma isEmpty_positioned (ss : StringStream) (pre post : string) :
  positioned ss pre post -> isEmpty ss = (String.length post =? 0)%nat.
Proof.
  intros [Hstr Hp]. unfold isEmpty. rewrite Hstr, Hp, length_append.
  destruct (String.length post); simpl.
  - apply Nat.leb_le. lia.
  - apply Nat.leb_gt. lia.
Qed.

(** A length below 0xfd is written on one byte and read back. *)
Lemma num2VarInt_small (n : Z) :
  0 <= n < 0xfd -> num2VarInt n = num2hexstring (Int n) 2.
Proof.
  intros H. unfold num2VarInt.
  now replace (n <? 253) with true by (symmetry; apply Z.ltb_lt; lia).
Qed.

Lemma readVarInt_small (n : Z) (ss : StringStream) (pre post : string) :
  0 <= n < 0xfd -> positioned ss pre (num2VarInt n ++ post) ->
  exists ss', readVarInt ss = Ok (Int n, ss') /\
              positioned ss' (pre ++ num2VarInt n) post.
Proof.
  intros Hn Hpos. rewrite num2VarInt_small in * by assumption.
  destruct (num2hexstring_fits n 2 ltac:(simpl; lia) ltac:(lia)) as (Hl & _ & _).
  destruct (read_positioned 1 ss pre _ post Hpos Hl ltac:(lia)) as (ss' & Hr & Hp').
  exists ss'. split; [|assumption].
  unfold readVarInt, sbind. rewrite Hr.
  rewrite num2hexstring_parse by (simpl; lia). cbn [is_int].
  replace (n =? 253) with false by (symmetry; apply Z.eqb_neq; lia).
  replace (n =? 254) with false by (symmetry; apply Z.eqb_neq; lia).
  replace (n =? 255) with false by (symmetry; apply Z.eqb_neq; lia).
  reflexivity.
Qed.

End StreamFacts.

(** ** Transactions *)

Import StreamFacts.
Import Transactions.

Section TransactionFacts.

Context {object exclusive : Type}.
Context (serialize : Serialize object exclusive)
        (deserialize : Deserialize object exclusive).

#[local] Abbreviation Transaction := (Transactions.Transaction object exclusive).

Lemma fold_push_inputs (xs : list object) (tx : Transaction) :
  fold_left push_inputs xs tx =
  mkTransaction (type tx) (version tx) (attributes tx) (inputs tx ++ xs)%list
                (outputs tx) (scripts tx) (exclusiveData tx).
Proof.
  revert tx; induction xs as [|x xs IH]; intros tx; simpl.
  - rewrite app_nil_r. now destruct tx.
  - rewrite IH. simpl. now rewrite <- app_assoc.
Qed.

Lemma fold_push_outputs (xs : list object) (tx : Transaction) :
  fold_left push_outputs xs tx =
  mkTransaction (type tx) (version tx) (attributes tx) (inputs tx)
                (outputs tx ++ xs)%list (scripts tx) (exclusiveData tx).
Proof.
  revert tx; induction xs as [|x xs IH]; intros tx; simpl.
  - rewrite app_nil_r. now destruct tx.
  - rewrite IH. simpl. now rewrite <- app_assoc.
Qed.

(** A loop over the count of a written list reads the list back, one
    [push] per element. *)
Lemma for_loop_reads (ser : object -> result string) (de : stream object)
  (push : Transaction -> object -> Transaction) (xs : list object) :
  Forall (round_trips ser de) xs ->
  exists s, concat_map ser xs = Ok s /\
    forall tx ss pre post, positioned ss pre (s ++ post) ->
      exists ss',
        for_loop (List.length xs) (fun tx => a <~ de ;; ret (push tx a)) tx ss
          = Ok (fold_left push xs tx, ss') /\
        positioned ss' (pre ++ s) post.
Proof.
  induction 1 as [|x xs (s1 & Hs1 & Hde) _ (s & Hs & IH)].
  - exists "". split; [reflexivity|]. intros tx ss pre post Hp.
    exists ss. split; [reflexivity|]. now rewrite append_nil_r.
  - exists (s1 ++ s). split.
    + simpl. rewrite Hs1. simpl. rewrite Hs. reflexivity.
    + intros tx ss pre post Hp. rewrite append_assoc in Hp.
      destruct (Hde ss pre (s ++ post) Hp) as (ss1 & Hd1 & Hp1).
      destruct (IH (push tx x) ss1 (pre ++ s1) post Hp1) as (ss' & Hl & Hp').
      exists ss'. split.
      * cbn [List.length for_loop]. unfold sbind at 1. unfold sbind at 1.
        rewrite Hd1. unfold ret at 1. exact Hl.
      * now rewrite <- append_assoc.
Qed.

Lemma iterations_len {A : Type} (xs : list A) :
  iterations (Int (len xs)) = List.length xs.
Proof. unfold iterations, len. apply Nat2Z.id. Qed.

(** C9: without a witness, the [signed] flag does not change the bytes. *)
Theorem serializeTransaction_signed_without_witness (tx : Transaction) :
  scripts tx = None \/ scripts tx = Some [] ->
  serializeTransaction serialize tx true = serializeTransaction serialize tx false.
Proof.
  intros H. unfold serializeTransaction.
  destruct (call (ser_exclusiveData serialize (type tx)) tx); [|reflexivity].
  destruct (concat_map (ser_attribute serialize) (attributes tx)); [|reflexivity].
  destruct (concat_map (ser_input serialize) (inputs tx)); [|reflexivity].
  destruct (concat_map (ser_output serialize) (outputs tx)); [|reflexivity].
  cbn [bind].
  destruct H as [-> | ->]; reflexivity.
Qed.

(** What [deserializeTransaction] rebuilds from the unsigned bytes of a
    transaction whose components round-trip and whose lists are shorter
    than 0xfd. *)
Lemma unsigned_bytes_read_back (tx : Transaction) (t v : Z) :
  type tx = Int t -> 0 <= t < 256 ->
  version tx = Int v -> 0 <= v < 256 ->
  len (attributes tx) < 0xfd -> len (inputs tx) < 0xfd ->
  len (outputs tx) < 0xfd ->
  exclusive_round_trips serialize deserialize tx ->
  Forall (round_trips (ser_attribute serialize) (de_attribute deserialize))
         (attributes tx) ->
  Forall (round_trips (ser_input serialize) (de_input deserialize)) (inputs tx) ->
  Forall (round_trips (ser_output serialize) (de_output deserialize))
         (outputs tx) ->
  exists data,
    serializeTransaction serialize tx false = Ok data /\
    deserializeTransaction deserialize data =
      Ok (mkTransaction (type tx) (version tx) []
                        (attributes tx ++ inputs tx)%list (outputs tx)
                        (Some []) (exclusiveData tx)).
Proof.
  intros Ht Htr Hv Hvr Hla Hli Hlo (e & He & Hde) Ha Hi Ho.
  destruct (for_loop_reads _ _ push_inputs _ Ha) as (sa & Hsa & Hra).
  destruct (for_loop_reads _ _ push_inputs _ Hi) as (si & Hsi & Hri).
  destruct (for_loop_reads _ _ push_outputs _ Ho) as (so & Hso & Hro).
  set (T := num2hexstring (type tx) 2) in *.
  set (V := num2hexstring (version tx) 2) in *.
  set (na := num2VarInt (len (attributes tx))).
  set (ni := num2VarInt (len (inputs tx))).
  set (no := num2VarInt (len (outputs tx))).
  exists (T ++ V ++ e ++ na ++ sa ++ ni ++ si ++ no ++ so ++ "").
  assert (Hser : serializeTransaction serialize tx false =
                 Ok (T ++ V ++ e ++ na ++ sa ++ ni ++ si ++ no ++ so ++ "")).
  { unfold serializeTransaction. rewrite He, Hsa, Hsi, Hso. cbn [bind].
    fold T V na ni no.
    assert (E : ((((((((("" ++ T) ++ V) ++ e) ++ na) ++ sa) ++ ni) ++ si) ++ no) ++ so)
                = T ++ V ++ e ++ na ++ sa ++ ni ++ si ++ no ++ so ++ "").
    { cbn [append]. rewrite !append_assoc, append_nil_r. reflexivity. }
    destruct (scripts tx); cbn [andb]; now rewrite E. }
  split; [exact Hser|].
  unfold deserializeTransaction.
  pose proof (positioned_new (T ++ V ++ e ++ na ++ sa ++ ni ++ si ++ no ++ so ++ ""))
    as P0.
  assert (HT : String.length T = (1 * 2)%nat /\ parseInt16 T = type tx).
  { subst T. rewrite Ht. split.
    - apply num2hexstring_fits; simpl; lia.
    - apply num2hexstring_parse; simpl; lia. }
  assert (HV : String.length V = (1 * 2)%nat /\ parseInt16 V = version tx).
  { subst V. rewrite Hv. split.
    - apply num2hexstring_fits; simpl; lia.
    - apply num2hexstring_parse; simpl; lia. }
  destruct HT as [HTl HTp], HV as [HVl HVp].
  destruct (read_positioned 1 _ _ _ _ P0 HTl ltac:(lia)) as (s1 & R1 & P1).
  destruct (read_positioned 1 _ _ _ _ P1 HVl ltac:(lia)) as (s2 & R2 & P2).
  cbn [append] in P2.
  destruct (Hde _ _ P2) as (s3 & R3 & P3).
  assert (Ba : 0 <= len (attributes tx) < 0xfd) by (unfold len in *; lia).
  assert (Bi : 0 <= len (inputs tx) < 0xfd) by (unfold len in *; lia).
  assert (Bo : 0 <= len (outputs tx) < 0xfd) by (unfold len in *; lia).
  destruct (readVarInt_small _ _ _ _ Ba P3) as (s4 & R4 & P4).
  fold na in P4.
  set (tx0 := mkTransaction (type tx) (version tx) ([] : list object) [] []
                            (Some []) (exclusiveData tx)).
  destruct (Hra tx0 _ _ _ P4) as (s5 & R5 & P5).
  destruct (readVarInt_small _ _ _ _ Bi P5) as (s6 & R6 & P6).
  fold ni in P6.
  destruct (Hri (fold_left push_inputs (attributes tx) tx0) _ _ _ P6) as (s7 & R7 & P7).
  destruct (readVarInt_small _ _ _ _ Bo P7) as (s8 & R8 & P8).
  fold no in P8.
  destruct (Hro (fold_left push_inputs (inputs tx)
                   (fold_left push_inputs (attributes tx) tx0)) _ _ _ P8)
    as (s9 & R9 & P9).
  pose proof (isEmpty_positioned _ _ _ P9) as E9. simpl in E9.
  unfold sbind in *. rewrite R1, R2, HTp, HVp, R3, R4, iterations_len.
  fold tx0. rewrite R5, R6, iterations_len, R7, R8, iterations_len, R9, E9.
  cbn [negb ret]. f_equal.
  rewrite fold_push_outputs, !fold_push_inputs. reflexivity.
Qed.

(** C1: the unsigned bytes of a transaction whose components round-trip
    and whose lists are shorter than 0xfd are read back with type, version,
    kind-specific data and outputs in place, but with the attributes in
    front of the inputs, inside [inputs], and with [attributes] empty.  So a
    transaction that has an attribute is not read back as itself. *)
Theorem deserializeTransaction_puts_attributes_in_inputs
  (tx : Transaction) (t v : Z) :
  type tx = Int t -> 0 <= t < 256 ->
  version tx = Int v -> 0 <= v < 256 ->
  len (attributes tx) < 0xfd -> len (inputs tx) < 0xfd ->
  len (outputs tx) < 0xfd ->
  exclusive_round_trips serialize deserialize tx ->
  Forall (round_trips (ser_attribute serialize) (de_attribute deserialize))
         (attributes tx) ->
  Forall (round_trips (ser_input serialize) (de_input deserialize)) (inputs tx) ->
  Forall (round_trips (ser_output serialize) (de_output deserialize))
         (outputs tx) ->
  exists data,
    serializeTransaction serialize tx false = Ok data /\
    deserializeTransaction deserialize data =
      Ok (mkTransaction (type tx) (version tx) []
                        (attributes tx ++ inputs tx)%list (outputs tx)
                        (Some []) (exclusiveData tx)) /\
    (attributes tx <> [] -> deserializeTransaction deserialize data <> Ok tx).
Proof.
  intros Ht Htr Hv Hvr Hla Hli Hlo He Ha Hi Ho.
  destruct (unsigned_bytes_read_back tx t v) as (data & H1 & H2); try assumption.
  exists data. split; [assumption|]. split; [assumption|].
  intros Hne E. rewrite H2 in E. injection E as E. apply Hne.
  rewrite <- E. reflexivity.
Qed.

(** Without attributes the unsigned bytes are read back as the
    transaction itself. *)
Corollary deserializeTransaction_round_trip_without_attributes
  (tx : Transaction) (t v : Z) :
  type tx = Int t -> 0 <= t < 256 ->
  version tx = Int v -> 0 <= v < 256 ->
  attributes tx = [] -> scripts tx = Some [] ->
  len (inputs tx) < 0xfd -> len (outputs tx) < 0xfd ->
  exclusive_round_trips serialize deserialize tx ->
  Forall (round_trips (ser_input serialize) (de_input deserialize)) (inputs tx) ->
  Forall (round_trips (ser_output serialize) (de_output deserialize))
         (outputs tx) ->
  exists data,
    serializeTransaction serialize tx false = Ok data /\
    deserializeTransaction deserialize data = Ok tx.
Proof.
  intros Ht Htr Hv Hvr Ha Hs Hli Hlo He Hi Ho.
  destruct (unsigned_bytes_read_back tx t v) as (data & H1 & H2);
    try assumption.
  - rewrite Ha. reflexivity.
  - rewrite Ha. constructor.
  - exists data. split; [assumption|]. rewrite H2. f_equal.
    destruct tx as [ty ve at_ i o sc ex]. cbn in *. now subst.
Qed.

End TransactionFacts.

(** ** Bytes and their hexadecimal form *)

Module ByteFacts.

Lemma byte_cases (P : Z -> Prop) :
  Forall P (map Z.of_nat (seq 0 256)) -> forall b, is_byte b -> P b.
Proof.
  intros H b Hb. rewrite Forall_forall in H. apply H.
  apply in_map_iff. exists (Z.to_nat b). split; [unfold is_byte in Hb; lia|].
  apply in_seq. unfold is_byte in Hb. lia.
Qed.

(** A byte printed by [toString(16)] and padded is its two digits. *)
Lemma pad2_toString16_byte (b : Z) :
  is_byte b ->
  pad2 (toString16 b) = String (hexdigit (b / 16)) (String (hexdigit (b mod 16)) "").
Proof.
  revert b. apply byte_cases.
  apply Forall_forall. intros b Hb.
  assert (Hchk : forallb (fun b =>
            (pad2 (toString16 b) =?
             String (hexdigit (b / 16)) (String (hexdigit (b mod 16)) ""))%string)
            (map Z.of_nat (seq 0 256)) = true) by (vm_compute; reflexivity).
  rewrite forallb_forall in Hchk. apply String.eqb_eq. now apply Hchk.
Qed.

Lemma parseInt16_two_digits (hi lo : Z) :
  0 <= hi < 16 -> 0 <= lo < 16 ->
  parseInt16 (String (hexdigit hi) (String (hexdigit lo) "")) = Int (16 * hi + lo).
Proof.
  intros Hhi Hlo. rewrite parseInt16_hex.
  - unfold hexval; simpl. rewrite !digit_of_hexdigit by assumption. f_equal; lia.
  - simpl. now rewrite !digit_of_hexdigit by assumption.
  - discriminate.
Qed.

Lemma byte_digits (b : Z) :
  is_byte b -> 0 <= b / 16 < 16 /\ 0 <= b mod 16 < 16 /\ 16 * (b / 16) + b mod 16 = b.
Proof.
  unfold is_byte. intros H. repeat split.
  - apply Z.div_pos; lia.
  - apply Z.div_lt_upper_bound; lia.
  - apply Z.mod_pos_bound; lia.
  - apply Z.mod_pos_bound; lia.
  - symmetry. apply Z.div_mod. lia.
Qed.

Lemma ab2hexstring_of_bytes (bs : list Z) :
  Forall is_byte bs -> ab2hexstring (of_bytes bs) = bytes2hex bs.
Proof.
  induction 1 as [|b bs Hb _ IH]; [reflexivity|].
  cbn [of_bytes map ab2hexstring bytes2hex number_toString16].
  unfold of_bytes in IH. rewrite IH, pad2_toString16_byte by assumption. reflexivity.
Qed.

Lemma hexstring2ab_bytes2hex (bs : list Z) :
  Forall is_byte bs -> hexstring2ab (bytes2hex bs) = of_bytes bs.
Proof.
  induction 1 as [|b bs Hb _ IH]; [reflexivity|].
  cbn [bytes2hex hexstring2ab of_bytes map].
  destruct (byte_digits b Hb) as (Hhi & Hlo & E).
  rewrite parseInt16_two_digits, E by assumption. unfold of_bytes in IH.
  now rewrite IH.
Qed.

Lemma Buffer_from_hex_bytes2hex (bs : list Z) :
  Forall is_byte bs -> Buffer_from_hex (bytes2hex bs) = bs.
Proof.
  induction 1 as [|b bs Hb _ IH]; [reflexivity|].
  cbn [bytes2hex Buffer_from_hex].
  destruct (byte_digits b Hb) as (Hhi & Hlo & E).
  rewrite !digit_of_hexdigit, E, IH by assumption. reflexivity.
Qed.

Lemma length_bytes2hex (bs : list Z) :
  String.length (bytes2hex bs) = (2 * List.length bs)%nat.
Proof. induction bs as [|b bs IH]; simpl; [reflexivity | rewrite IH; lia]. Qed.

Lemma bytes2hex_app (a b : list Z) :
  bytes2hex (a ++ b)%list = bytes2hex a ++ bytes2hex b.
Proof. induction a as [|x a IH]; simpl; [reflexivity | now rewrite IH]. Qed.

(** Reversing a hex string pair by pair reverses the bytes. *)
Lemma reverse_pairs_bytes2hex (bs : list Z) :
  reverse_pairs (bytes2hex bs) = bytes2hex (rev bs).
Proof.
  induction bs as [|b bs IH]; [reflexivity|].
  cbn [bytes2hex reverse_pairs rev]. rewrite IH, bytes2hex_app. reflexivity.
Qed.

Lemma reverseHex_bytes2hex (bs : list Z) :
  reverseHex (bytes2hex bs) = Ok (bytes2hex (rev bs)).
Proof.
  unfold reverseHex. rewrite length_bytes2hex, Nat.even_mul. simpl.
  now rewrite reverse_pairs_bytes2hex.
Qed.

Lemma of_bytes_inj (a b : list Z) : of_bytes a = of_bytes b -> a = b.
Proof.
  revert b; induction a as [|x a IH]; intros [|y b] H; try discriminate; auto.
  injection H as -> H. f_equal. auto.
Qed.

Lemma bytes2hex_inj (a b : list Z) :
  Forall is_byte a -> Forall is_byte b -> bytes2hex a = bytes2hex b -> a = b.
Proof.
  intros Ha Hb H. apply of_bytes_inj.
  rewrite <- !hexstring2ab_bytes2hex by assumption. now rewrite H.
Qed.

Lemma ToUint8_of_bytes (bs : list Z) :
  Forall is_byte bs -> map ToUint8 (of_bytes bs) = bs.
Proof.
  induction 1 as [|b bs Hb _ IH]; [reflexivity|].
  cbn [of_bytes map ToUint8]. unfold of_bytes in IH. rewrite IH.
  f_equal. apply Z.mod_small. exact Hb.
Qed.

Lemma ToUint8_is_byte (xs : list number) : Forall is_byte (map ToUint8 xs).
Proof.
  induction xs as [|x xs IH]; constructor; [|assumption].
  destruct x; simpl; unfold is_byte; [lia | apply Z.mod_pos_bound; lia].
Qed.

Lemma slice_of_bytes (bs : list Z) (i j : nat) :
  slice (of_bytes bs) i j = of_bytes (slice bs i j).
Proof. unfold slice, of_bytes. now rewrite <- firstn_map, <- skipn_map. Qed.

Lemma Forall_firstn {A : Type} (P : A -> Prop) (n : nat) (l : list A) :
  Forall P l -> Forall P (firstn n l).
Proof.
  intros H; revert n; induction H as [|x l Hx _ IH]; intros [|n]; simpl;
    constructor; auto.
Qed.

Lemma Forall_skipn {A : Type} (P : A -> Prop) (n : nat) (l : list A) :
  Forall P l -> Forall P (skipn n l).
Proof.
  intros H; revert n; induction H as [|x l Hx Hl IH]; intros [|n]; simpl;
    try constructor; auto.
Qed.

Lemma Forall_slice {A : Type} (P : A -> Prop) (l : list A) (i j : nat) :
  Forall P l -> Forall P (slice l i j).
Proof. intros H. unfold slice. apply Forall_firstn. now apply Forall_skipn. Qed.

(** Writing a whole source at the start of a fresh array, and at its end. *)
Lemma Uint8Array_set_start (src : list number) (k : nat) :
  Uint8Array_set (Uint8Array_new (List.length src + k)) src 0 =
  Ok (map ToUint8 src ++ Uint8Array_new k)%list.
Proof.
  unfold Uint8Array_set, Uint8Array_new. rewrite repeat_length.
  replace (List.length src + k <? 0 + List.length src)%nat with false
    by (symmetry; apply Nat.ltb_ge; lia).
  cbn [firstn Nat.add app]. f_equal. f_equal.
  rewrite repeat_app, skipn_app, repeat_length, Nat.sub_diag, skipn_all2
    by (rewrite repeat_length; lia).
  reflexivity.
Qed.

Lemma Uint8Array_set_end (arr : list Z) (src : list number) (offset : nat) :
  List.length arr = (offset + List.length src)%nat ->
  Uint8Array_set arr src offset = Ok (firstn offset arr ++ map ToUint8 src)%list.
Proof.
  intros H. unfold Uint8Array_set. rewrite H, Nat.ltb_irrefl, <- H, skipn_all.
  now rewrite app_nil_r.
Qed.

End ByteFacts.

(** ** Wallet *)

Import ByteFacts.
Import Wallet.

Section WalletFacts.

Context {P : Primitives} {L : PrimitivesLaws P}.

Lemma address_bytes_length (h : list Z) :
  List.length (address_bytes h) = (List.length h + 5)%nat.
Proof.
  unfold address_bytes. rewrite length_app, length_firstn, SHA256_length.
  simpl. lia.
Qed.

Lemma address_bytes_are_bytes (h : list Z) :
  Forall is_byte h -> Forall is_byte (address_bytes h).
Proof.
  intros H. unfold address_bytes. apply Forall_app. split.
  - constructor; [unfold is_byte; lia | assumption].
  - apply Forall_firstn, SHA256_bytes.
Qed.

(** [toAddress] on an array of 20 elements. *)
Lemma toAddress_20 (h : list number) :
  List.length h = 20%nat ->
  toAddress h = Ok (base58_encode (address_bytes (map ToUint8 h))).
Proof.
  intros Hlen. unfold toAddress. rewrite Hlen. cbn [Nat.eqb negb].
  pose proof (Uint8Array_set_start [Int 23] 20) as E1.
  cbn [List.length Nat.add map ToUint8 app] in E1.
  change (23 mod 256) with 23 in E1.
  change (1 + 20)%nat with 21%nat. rewrite E1. cbn [bind].
  pose proof (Uint8Array_set_end (23 :: Uint8Array_new 20) h 1) as E2.
  rewrite E2 by (rewrite Hlen; reflexivity). cbn [bind firstn app].
  set (data := 23 :: map ToUint8 h).
  assert (Hdata : Forall is_byte data).
  { constructor; [unfold is_byte; lia | apply ToUint8_is_byte]. }
  assert (Hdl : List.length data = 21%nat).
  { subst data. simpl. rewrite length_map. lia. }
  rewrite ab2hexstring_of_bytes, Hex_parse_bytes2hex by assumption.
  rewrite hexstring2ab_bytes2hex by apply SHA256_bytes.
  pose proof (Uint8Array_set_start (of_bytes data) 4) as E3.
  unfold of_bytes in E3 at 1. rewrite length_map, Hdl in E3.
  change (1 + 20 + 4)%nat with (21 + 4)%nat. rewrite E3. cbn [bind].
  rewrite ToUint8_of_bytes by assumption.
  rewrite slice_of_bytes.
  rewrite Uint8Array_set_end.
  - cbn [bind]. rewrite firstn_app, Hdl, Nat.sub_diag, firstn_O, app_nil_r.
    rewrite firstn_all2 by lia.
    rewrite ToUint8_of_bytes by (apply Forall_slice, SHA256_bytes).
    reflexivity.
  - unfold of_bytes, slice. rewrite length_app, length_map, length_firstn, Hdl.
    cbn [skipn]. rewrite SHA256_length. reflexivity.
Qed.

(** C10: [toAddress] throws exactly on an input that does not have 20
    elements; on 20 elements it returns the base58 encoding of the 25
    bytes made of the version byte 23, the input, and the first four
    bytes of the double SHA-256 of those 21 bytes, and this string is not
    empty.  The elements are stored through [ToUint8], which leaves bytes
    as they are. *)
Theorem toAddress_throws_iff_not_20_bytes (h : list number) :
  ((exists e, toAddress h = Throw e) <-> List.length h <> 20%nat) /\
  (List.length h = 20%nat ->
     toAddress h = Ok (base58_encode (address_bytes (map ToUint8 h))) /\
     List.length (address_bytes (map ToUint8 h)) = 25%nat /\
     base58_encode (address_bytes (map ToUint8 h)) <> "") /\
  (forall bs, Forall is_byte bs -> h = of_bytes bs -> List.length bs = 20%nat ->
     toAddress h = Ok (base58_encode (address_bytes bs))).
Proof.
  split; [|split].
  - split.
    + intros [e He] Hlen. rewrite toAddress_20 in He by assumption. discriminate.
    + intros Hlen. exists "Invalid ProgramHash length". unfold toAddress.
      now replace (List.length h =? 20)%nat with false
        by (symmetry; apply Nat.eqb_neq; assumption).
  - intros Hlen. split; [now apply toAddress_20|].
    assert (E : List.length (address_bytes (map ToUint8 h)) = 25%nat)
      by (rewrite address_bytes_length, length_map, Hlen; reflexivity).
    split; [assumption|].
    apply base58_encode_nonempty. intros E0. rewrite E0 in E. discriminate.
  - intros bs Hb -> Hlen.
    rewrite toAddress_20 by (unfold of_bytes; now rewrite length_map).
    now rewrite ToUint8_of_bytes.
Qed.

Lemma getHash_eq (script : string) :
  getHash script = bytes2hex (RIPEMD160 (SHA256 (Hex_parse script))).
Proof. reflexivity. Qed.

Lemma slice_address_bytes (h : list Z) :
  List.length h = 20%nat -> slice (address_bytes h) 1 21 = h.
Proof.
  intros Hlen. unfold slice, address_bytes. cbn [app skipn Nat.sub].
  rewrite firstn_app, Hlen, Nat.sub_diag, firstn_O, app_nil_r.
  apply firstn_all2. lia.
Qed.

(** The account of a public key that passes [verifyPublicKeyEncoded]. *)
Lemma getAccountFromPublicKey_valid (pub : string) (priv : option string) :
  verifyPublicKeyEncoded pub = Ok true ->
  getAccountFromPublicKey pub priv =
    Ok (Val (mkAccount priv pub (getHash pub)
               (getHash (createChainLineWalletScript pub))
               (base58_encode
                  (address_bytes
                     (RIPEMD160 (SHA256 (Hex_parse (createChainLineWalletScript pub)))))))).
Proof.
  intros Hv. unfold getAccountFromPublicKey. rewrite Hv. cbn [bind negb].
  rewrite (getHash_eq (createChainLineWalletScript pub)).
  set (h := RIPEMD160 (SHA256 (Hex_parse (createChainLineWalletScript pub)))).
  assert (Hb : Forall is_byte h) by apply RIPEMD160_bytes.
  assert (Hl : List.length h = 20%nat) by apply RIPEMD160_length.
  rewrite hexstring2ab_bytes2hex by assumption.
  rewrite toAddress_20 by (unfold of_bytes; now rewrite length_map).
  rewrite ToUint8_of_bytes by assumption. reflexivity.
Qed.

(** C6: an account built from a public key that passes
    [verifyPublicKeyEncoded] has as script hash the RIPEMD-160 of the
    SHA-256 of its wallet script, and its address decodes back to that
    script hash. *)
Theorem account_scriptHash_and_address (pub : string) (priv : option string) :
  verifyPublicKeyEncoded pub = Ok true ->
  exists a,
    getAccountFromPublicKey pub priv = Ok (Val a) /\
    publicKeyEncoded a = pub /\
    programHash a =
      bytes2hex (RIPEMD160 (SHA256 (Hex_parse (createChainLineWalletScript pub)))) /\
    String.length (programHash a) = 40%nat /\
    addressToScriptHash (address a) = Ok (programHash a).
Proof.
  intros Hv. eexists. split; [now apply getAccountFromPublicKey_valid|].
  cbn [publicKeyEncoded programHash address]. rewrite getHash_eq.
  set (h := RIPEMD160 (SHA256 (Hex_parse (createChainLineWalletScript pub)))).
  assert (Hb : Forall is_byte h) by apply RIPEMD160_bytes.
  assert (Hl : List.length h = 20%nat) by apply RIPEMD160_length.
  repeat split.
  - rewrite length_bytes2hex, Hl. reflexivity.
  - unfold addressToScriptHash.
    rewrite base58_decode_encode by now apply address_bytes_are_bytes.
    cbn [bind]. rewrite slice_address_bytes by assumption.
    now rewrite ab2hexstring_of_bytes.
Qed.

(** The same for an account derived from a private key. *)
Corollary account_from_private_key (k : string) :
  valid_key k ->
  exists a,
    getAccountFromPrivateKey k = Ok (Val a) /\
    privateKey a = Some k /\
    programHash a =
      bytes2hex (RIPEMD160 (SHA256 (Hex_parse
        (createChainLineWalletScript (publicKeyEncoded a))))).
Proof.
  intros [Hlen Hv]. unfold getAccountFromPrivateKey. rewrite Hlen.
  cbn [Nat.eqb negb]. eexists. split; [now apply getAccountFromPublicKey_valid|].
  split; reflexivity.
Qed.

Lemma nth_error_eqb (data : list Z) (i : nat) (b : Z) :
  match nth_error data i with Some x => x =? b | None => false end = true <->
  nth_error data i = Some b.
Proof.
  destruct (nth_error data i) as [x|].
  - rewrite Z.eqb_eq. split; congruence.
  - split; discriminate.
Qed.

(** The result of [getPrivateKeyFromWIF] once the decoding is known. *)
Lemma getPrivateKeyFromWIF_decoded (wif : string) (data : list Z) :
  base58_decode wif = Ok data ->
  (wif_conditions data /\
   getPrivateKeyFromWIF wif = Ok (Val (bytes2hex (slice data 1 33)))) \/
  (~ wif_conditions data /\
   (getPrivateKeyFromWIF wif = Ok (Code (-1)) \/
    getPrivateKeyFromWIF wif = Ok (Code (-2)))).
Proof.
  intros Hd. pose proof (base58_decode_bytes _ _ Hd) as Hb.
  unfold getPrivateKeyFromWIF. rewrite Hd. cbn [bind].
  destruct (List.length data =? 38)%nat eqn:E38; cbn [negb orb].
  2:{ right. split; [|now left]. intros (Hl & _).
      apply Nat.eqb_neq in E38. contradiction. }
  apply Nat.eqb_eq in E38.
  destruct (match nth_error data 0 with Some b => b =? 128 | None => false end) eqn:E0;
    cbn [negb orb].
  2:{ right. split; [|now left]. intros (_ & H0 & _).
      apply nth_error_eqb in H0. congruence. }
  apply nth_error_eqb in E0.
  destruct (match nth_error data 33 with Some b => b =? 1 | None => false end) eqn:E33;
    cbn [negb].
  2:{ right. split; [|now left]. intros (_ & _ & H33 & _).
      apply nth_error_eqb in H33. congruence. }
  apply nth_error_eqb in E33.
  rewrite E38. cbn [Nat.sub].
  assert (Hs : slice data 0 34 = firstn 34 data) by reflexivity.
  rewrite Hs.
  rewrite ab2hexstring_of_bytes, Hex_parse_bytes2hex by now apply Forall_firstn.
  rewrite hexstring2ab_bytes2hex by apply SHA256_bytes.
  rewrite slice_of_bytes.
  rewrite !ab2hexstring_of_bytes
    by first [apply Forall_slice, SHA256_bytes | now apply Forall_slice].
  assert (Hs4 : forall l : list Z, slice l 0 4 = firstn 4 l) by reflexivity.
  rewrite Hs4.
  destruct (String.eqb_spec
              (bytes2hex (firstn 4 (SHA256 (SHA256 (firstn 34 data)))))
              (bytes2hex (slice data 34 38))) as [Heq|Hne]; cbn [negb].
  - left. split; [|reflexivity]. repeat split; try assumption.
    symmetry. apply bytes2hex_inj; auto.
    + apply Forall_firstn, SHA256_bytes.
    + now apply Forall_slice.
  - right. split; [|now right]. intros (_ & _ & _ & Hc).
    apply Hne. now rewrite Hc.
Qed.

(** C7: [getPrivateKeyFromWIF] returns a key exactly when the decoded
    bytes meet the conditions, and the key is then bytes 1 to 32 in hex,
    64 characters.  In every other case the result is an exception from
    the decoder or one of the numbers -1 and -2, never a string. *)
Theorem getPrivateKeyFromWIF_key_iff_valid (wif : string) :
  (forall key,
     getPrivateKeyFromWIF wif = Ok (Val key) <->
     exists data, base58_decode wif = Ok data /\ wif_conditions data /\
                  key = bytes2hex (slice data 1 33)) /\
  (forall key, getPrivateKeyFromWIF wif = Ok (Val key) -> String.length key = 64%nat) /\
  ((forall key, getPrivateKeyFromWIF wif <> Ok (Val key)) ->
     getPrivateKeyFromWIF wif = Ok (Code (-1)) \/
     getPrivateKeyFromWIF wif = Ok (Code (-2)) \/
     exists e, getPrivateKeyFromWIF wif = Throw e /\ base58_decode wif = Throw e).
Proof.
  assert (Hiff : forall key,
     getPrivateKeyFromWIF wif = Ok (Val key) <->
     exists data, base58_decode wif = Ok data /\ wif_conditions data /\
                  key = bytes2hex (slice data 1 33)).
  { intros key. split.
    - intros H. destruct (base58_decode wif) as [data|e] eqn:Hd.
      + exists data. split; [reflexivity|].
        destruct (getPrivateKeyFromWIF_decoded wif data Hd) as [[Hc Hr]|[_ [Hr|Hr]]];
          rewrite Hr in H; try discriminate.
        injection H as <-. auto.
      + unfold getPrivateKeyFromWIF in H. rewrite Hd in H. discriminate.
    - intros (data & Hd & Hc & ->).
      destruct (getPrivateKeyFromWIF_decoded wif data Hd) as [[_ Hr]|[Hn _]];
        [assumption | contradiction]. }
  split; [exact Hiff|]. split.
  - intros key H. apply Hiff in H as (data & Hd & (Hl & _) & ->).
    rewrite length_bytes2hex. unfold slice.
    rewrite length_firstn, length_skipn, Hl. reflexivity.
  - intros Hno. destruct (base58_decode wif) as [data|e] eqn:Hd.
    + destruct (getPrivateKeyFromWIF_decoded wif data Hd) as [[_ Hr]|[_ [Hr|Hr]]]; auto.
      exfalso. eapply Hno, Hr.
    + right; right. exists e. split; [|reflexivity].
      unfold getPrivateKeyFromWIF. now rewrite Hd.
Qed.

End WalletFacts.

(** ** Signing and hashing *)

Import Signing.

Section SigningFacts.

Context {object exclusive : Type} {P : Primitives} {L : PrimitivesLaws P}.
Context (serialize : Serialize object exclusive).

#[local] Abbreviation Tx := (Transactions.Transaction object exclusive).

Lemma signatureData_eq (data k : string) :
  signatureData data k =
  Ok (bytes2hex (be_bytes 32 (fst (ec_sign (SHA256 (Hex_parse data)) k)) ++
                 be_bytes 32 (snd (ec_sign (SHA256 (Hex_parse data)) k)))%list).
Proof.
  unfold signatureData. rewrite Buffer_from_hex_bytes2hex by apply SHA256_bytes.
  destruct (ec_sign_range (SHA256 (Hex_parse data)) k) as [Hr Hs].
  unfold toArrayLike_be.
  change (256 ^ Z.of_nat 32) with (2 ^ 256).
  replace (fst (ec_sign (SHA256 (Hex_parse data)) k) <? 2 ^ 256) with true
    by (symmetry; apply Z.ltb_lt; lia).
  replace (snd (ec_sign (SHA256 (Hex_parse data)) k) <? 2 ^ 256) with true
    by (symmetry; apply Z.ltb_lt; lia).
  reflexivity.
Qed.

Lemma length_be_bytes (n : nat) (z : Z) : List.length (be_bytes n z) = n.
Proof. induction n as [|n IH]; simpl; congruence. Qed.

(** Serializing without witnesses does not look at [scripts], as long as
    the kind-specific serializer does not. *)
Lemma serializeTransaction_unsigned_push_scripts (tx : Tx) (w : Witness) :
  call (ser_exclusiveData serialize (type tx)) (push_scripts tx w) =
    call (ser_exclusiveData serialize (type tx)) tx ->
  serializeTransaction serialize (push_scripts tx w) false =
  serializeTransaction serialize tx false.
Proof.
  intros He. unfold serializeTransaction.
  cbn [push_scripts type version attributes inputs outputs scripts].
  rewrite He.
  destruct (call (ser_exclusiveData serialize (type tx)) tx); [|reflexivity].
  destruct (concat_map (ser_attribute serialize) (attributes tx)); [|reflexivity].
  destruct (concat_map (ser_input serialize) (inputs tx)); [|reflexivity].
  destruct (concat_map (ser_output serialize) (outputs tx)); [|reflexivity].
  cbn [bind andb]. now destruct (scripts tx).
Qed.

Lemma signTransaction_eq (tx : Tx) (k data : string) :
  serializeTransaction serialize tx false = Ok data -> valid_key k ->
  signTransaction serialize tx k = Ok (push_scripts tx (witness_of data k)).
Proof.
  intros Hser [Hlen Hv]. unfold signTransaction. rewrite Hser. cbn [bind].
  rewrite signatureData_eq. cbn [bind].
  unfold getAccountFromPrivateKey. rewrite Hlen. cbn [Nat.eqb negb].
  rewrite (getAccountFromPublicKey_valid _ (Some k) Hv). reflexivity.
Qed.

(** C3: signing with a valid key appends one witness: 0x40 followed by
    the 32-byte big-endian r and s of the signature over the SHA-256
    digest of the unsigned bytes, with the wallet script of the signer's
    public key.  Earlier witnesses stay in place, and a second signer
    signs the same bytes and is appended after the first. *)
Theorem signTransaction_appends_witness (tx : Tx) (k k' data : string) :
  serializeTransaction serialize tx false = Ok data ->
  valid_key k -> valid_key k' ->
  (forall w, call (ser_exclusiveData serialize (type tx)) (push_scripts tx w) =
             call (ser_exclusiveData serialize (type tx)) tx) ->
  let ws := match scripts tx with Some ws => ws | None => [] end in
  let w := witness_of data k in
  let w' := witness_of data k' in
  signTransaction serialize tx k = Ok (push_scripts tx w) /\
  scripts (push_scripts tx w) = Some (ws ++ [w])%list /\
  invocationScript w =
    "40" ++ bytes2hex (be_bytes 32 (fst (ec_sign (SHA256 (Hex_parse data)) k)) ++
                       be_bytes 32 (snd (ec_sign (SHA256 (Hex_parse data)) k)))%list /\
  String.length (invocationScript w) = 130%nat /\
  verificationScript w =
    createChainLineWalletScript (ab2hexstring (of_bytes (getPublicKey k true))) /\
  signTransaction serialize (push_scripts tx w) k' =
    Ok (push_scripts (push_scripts tx w) w') /\
  scripts (push_scripts (push_scripts tx w) w') = Some (ws ++ [w; w'])%list.
Proof.
  intros Hser Hk Hk' Hex ws w w'.
  split; [|split; [|split; [|split; [|split; [|split]]]]].
  - now apply signTransaction_eq.
  - reflexivity.
  - reflexivity.
  - subst w. unfold witness_of. cbn [invocationScript].
    change ("40" ++ ?s) with (String "4" (String "0" s)). cbn [String.length].
    rewrite length_bytes2hex, length_app, !length_be_bytes. reflexivity.
  - reflexivity.
  - apply signTransaction_eq; [|assumption].
    rewrite serializeTransaction_unsigned_push_scripts; [assumption | apply Hex].
  - cbn [push_scripts scripts]. fold ws. now rewrite <- app_assoc.
Qed.

(** C4: the transaction hash is the hex form of the reversed bytes of the
    double SHA-256 of the unsigned serialization. *)
Theorem getTransactionHash_reversed_double_sha256 (tx : Tx) (data : string) :
  serializeTransaction serialize tx false = Ok data ->
  getTransactionHash serialize tx =
    Ok (bytes2hex (rev (SHA256 (SHA256 (Hex_parse data))))) /\
  reverseHex (bytes2hex (SHA256 (SHA256 (Hex_parse data)))) =
    Ok (bytes2hex (rev (SHA256 (SHA256 (Hex_parse data))))).
Proof.
  intros Hser. unfold getTransactionHash. rewrite Hser. cbn [bind].
  split; apply reverseHex_bytes2hex.
Qed.

End SigningFacts.

(** ** The sample instance *)

Module SampleFacts.

Import Sample.

Lemma all_hex_bytes2hex (bs : list Z) :
  Forall is_byte bs -> all_hex (bytes2hex bs) = true.
Proof.
  induction 1 as [|b bs Hb _ IH]; [reflexivity|].
  destruct (byte_digits b Hb) as (Hhi & Hlo & _).
  cbn [bytes2hex all_hex]. now rewrite !digit_of_hexdigit by assumption.
Qed.

Lemma Buffer_from_hex_bytes (s : string) : Forall is_byte (Buffer_from_hex s).
Proof.
  remember (String.length s) as k eqn:Hk. revert s Hk.
  induction k as [k IH] using lt_wf_ind.
  intros [|a [|b r]] Hk; try constructor.
  cbn [Buffer_from_hex].
  destruct (digit_of a) as [x|] eqn:Ea; [|constructor].
  destruct (digit_of b) as [y|] eqn:Eb; [|constructor].
  apply digit_of_range in Ea, Eb. constructor; [unfold is_byte; lia|].
  apply (IH (String.length r)); [simpl in Hk; lia | reflexivity].
Qed.

Lemma checksum_length (n : nat) (m : list Z) : List.length (checksum n m) = n.
Proof. unfold checksum. now rewrite length_map, length_seq. Qed.

Lemma checksum_bytes (n : nat) (m : list Z) : Forall is_byte (checksum n m).
Proof.
  unfold checksum. apply Forall_forall. intros x Hx.
  apply in_map_iff in Hx as (i & <- & _). apply Z.mod_pos_bound. lia.
Qed.

Lemma laws : PrimitivesLaws primitives.
Proof.
  constructor; cbn [Hex_parse SHA256 RIPEMD160 base58_encode base58_decode
                    ec_sign primitives fst snd].
  - apply Buffer_from_hex_bytes2hex.
  - intros m. apply checksum_length.
  - intros m. apply checksum_bytes.
  - intros m. apply checksum_length.
  - intros m. apply checksum_bytes.
  - intros bs Hb. unfold hex_decode.
    rewrite length_bytes2hex, Nat.even_mul, all_hex_bytes2hex by assumption.
    cbn [Nat.even orb andb]. now rewrite Buffer_from_hex_bytes2hex.
  - intros s bs. unfold hex_decode.
    destruct (Nat.even (String.length s) && all_hex s)%bool; [|discriminate].
    intros H; injection H as <-. apply Buffer_from_hex_bytes.
  - intros [|b bs] H; [congruence | discriminate].
  - intros h k. split; apply Z.mod_pos_bound; lia.
Qed.

Lemma byte_round_trips (o : Z) : 0 <= o < 256 -> round_trips ser_byte de_byte o.
Proof.
  intros Ho. exists (num2hexstring (Int o) 2). split; [reflexivity|].
  intros ss pre post Hp.
  destruct (num2hexstring_fits o 2 ltac:(simpl; lia) ltac:(lia)) as (Hl & _).
  destruct (read_positioned 1 ss pre _ post Hp Hl ltac:(lia)) as (ss' & Hr & Hp').
  exists ss'. split; [|assumption].
  unfold de_byte, sbind. rewrite Hr, num2hexstring_parse by (simpl; lia).
  reflexivity.
Qed.

Lemma contract_exclusive_round_trips (tx : Transaction Z unit) :
  type tx = Int 0x80 -> exclusive_round_trips serialize deserialize tx.
Proof.
  intros Ht. unfold exclusive_round_trips. rewrite Ht. exists "".
  split; [reflexivity|]. intros ss post Hp. exists ss.
  split; [now destruct (exclusiveData tx) | now rewrite append_nil_r].
Qed.

End SampleFacts.

(** ** Runs on the sample instance *)

Section Runs.

Import Sample SampleFacts.

#[local] Existing Instance primitives.
#[local] Existing Instance laws.

Lemma deserializeTransaction_puts_attributes_in_inputs_witness :
  exists data,
    serializeTransaction serialize tx1 false = Ok data /\
    deserializeTransaction deserialize data =
      Ok (mkTransaction (Int 0x80) (Int 0) [] [0x20; 1; 2] [3] (Some []) tt) /\
    (attributes tx1 <> [] -> deserializeTransaction deserialize data <> Ok tx1).
Proof.
  apply (deserializeTransaction_puts_attributes_in_inputs
           serialize deserialize tx1 0x80 0);
    try reflexivity; try lia.
  - apply contract_exclusive_round_trips. reflexivity.
  - repeat constructor; apply byte_round_trips; lia.
  - repeat constructor; apply byte_round_trips; lia.
  - repeat constructor; apply byte_round_trips; lia.
Defined.

Lemma serializeTransaction_signed_without_witness_witness :
  scripts tx1 = Some [] /\
  serializeTransaction serialize tx1 true = serializeTransaction serialize tx1 false.
Proof.
  split; [reflexivity|].
  apply (serializeTransaction_signed_without_witness serialize tx1).
  right. reflexivity.
Defined.

Lemma toAddress_throws_iff_not_20_bytes_witness :
  toAddress (hexstring2ab "5df31f6f59e6a4fbdd75103786bf73db1000b235") =
    Ok (base58_encode
          (address_bytes
             (map ToUint8 (hexstring2ab "5df31f6f59e6a4fbdd75103786bf73db1000b235")))).
Proof.
  destruct (toAddress_throws_iff_not_20_bytes (L := laws)
              (hexstring2ab "5df31f6f59e6a4fbdd75103786bf73db1000b235"))
    as (_ & H & _).
  destruct (H eq_refl) as (E & _). exact E.
Defined.

Lemma account_scriptHash_and_address_witness :
  exists a,
    getAccountFromPublicKey (ab2hexstring (of_bytes (getPublicKey key1 true))) None
      = Ok (Val a) /\
    addressToScriptHash (address a) = Ok (programHash a).
Proof.
  destruct (account_scriptHash_and_address (L := laws)
              (ab2hexstring (of_bytes (getPublicKey key1 true))) None)
    as (a & Ha & _ & _ & _ & Hr); [vm_compute; reflexivity|].
  exists a. split; assumption.
Defined.

Lemma getPrivateKeyFromWIF_key_iff_valid_witness :
  getPrivateKeyFromWIF wif1 = Ok (Val key1).
Proof.
  destruct (getPrivateKeyFromWIF_key_iff_valid (L := laws) wif1) as (H & _).
  apply H.
  exists (0x80 :: Buffer_from_hex key1 ++ [0x01]
          ++ firstn 4 (checksum 32 (checksum 32 (0x80 :: Buffer_from_hex key1 ++ [0x01]))))%list.
  vm_compute. repeat split; reflexivity.
Defined.

Lemma signTransaction_appends_witness_witness :
  exists w w',
    signTransaction serialize tx1 key1 = Ok (push_scripts tx1 w) /\
    signTransaction serialize (push_scripts tx1 w) key2 =
      Ok (push_scripts (push_scripts tx1 w) w') /\
    scripts (push_scripts (push_scripts tx1 w) w') = Some [w; w'].
Proof.
  destruct (signTransaction_appends_witness (L := laws) serialize tx1 key1 key2
              "800001200201020103")
    as (H1 & _ & _ & _ & _ & H2 & H3).
  - reflexivity.
  - split; [reflexivity | vm_compute; reflexivity].
  - split; [reflexivity | vm_compute; reflexivity].
  - intros w. reflexivity.
  - do 2 eexists. split; [exact H1|]. split; [exact H2 | exact H3].
Defined.

Lemma getTransactionHash_reversed_double_sha256_witness :
  getTransactionHash serialize tx1 =
    Ok (bytes2hex (rev (SHA256 (SHA256 (Hex_parse "800001200201020103"))))).
Proof.
  apply (getTransactionHash_reversed_double_sha256 serialize tx1).
  reflexivity.
Defined.

End Runs.

(** ** More on hex strings *)

Module MoreHexFacts.

Import MoreUtils.

Lemma string_pair_ind (Q : string -> Prop) :
  Q "" -> (forall a, Q (String a "")) ->
  (forall a b r, Q r -> Q (String a (String b r))) ->
  forall s, Q s.
Proof.
  intros H0 H1 H2.
  fix IH 1. intros [|a [|b r]]; [exact H0 | apply H1 | apply H2, IH].
Qed.

Lemma length_reverse_pairs (s : string) :
  Nat.even (String.length s) = true ->
  String.length (reverse_pairs s) = String.length s.
Proof.
  induction s as [| a | a b r IH] using string_pair_ind; intros H;
    [reflexivity | discriminate |].
  cbn [reverse_pairs]. rewrite length_append. cbn [String.length] in *.
  rewrite IH by exact H. lia.
Qed.

Lemma reverse_pairs_app (s t : string) :
  Nat.even (String.length s) = true ->
  reverse_pairs (s ++ t) = reverse_pairs t ++ reverse_pairs s.
Proof.
  induction s as [| a | a b r IH] using string_pair_ind; intros H.
  - simpl. now rewrite append_nil_r.
  - discriminate.
  - cbn [append reverse_pairs]. rewrite IH by exact H. apply append_assoc.
Qed.

Lemma reverse_pairs_involutive (s : string) :
  Nat.even (String.length s) = true -> reverse_pairs (reverse_pairs s) = s.
Proof.
  induction s as [| a | a b r IH] using string_pair_ind; intros H;
    [reflexivity | discriminate |].
  cbn [reverse_pairs]. rewrite reverse_pairs_app.
  - rewrite IH by exact H. reflexivity.
  - rewrite length_reverse_pairs; exact H.
Qed.

Lemma even_negb_odd (n : nat) : Nat.even n = negb (Nat.odd n).
Proof. unfold Nat.odd. now rewrite negb_involutive. Qed.

(** *** Lower-case digit strings are determined by length and value *)

Lemma lower_hex_all_hex (s : string) : lower_hex s = true -> all_hex s = true.
Proof.
  induction s as [|c s IH]; [reflexivity|]. simpl.
  destruct (digit_of c); [|discriminate].
  intros H. apply andb_prop in H as [_ H]. auto.
Qed.

Lemma lower_hex_app (s t : string) :
  lower_hex (s ++ t) = (lower_hex s && lower_hex t)%bool.
Proof.
  induction s as [|c s IH]; [reflexivity|]. simpl.
  destruct (digit_of c); [|reflexivity]. rewrite IH. now rewrite andb_assoc.
Qed.

Lemma lower_hex_hexdigit (d : Z) (s : string) :
  0 <= d < 16 -> lower_hex (String (hexdigit d) s) = lower_hex s.
Proof.
  intros H. simpl. rewrite digit_of_hexdigit by assumption.
  now rewrite Ascii.eqb_refl.
Qed.

Lemma lower_hex_repeat0 (n : nat) : lower_hex (repeat0 n) = true.
Proof. induction n as [|n IH]; [reflexivity|]. exact IH. Qed.

Lemma lower_hex_substring_from (n : nat) (s : string) :
  lower_hex s = true -> lower_hex (substring_from n s) = true.
Proof.
  revert s; induction n as [|n IH]; intros [|c s]; simpl; auto.
  destruct (digit_of c); [|discriminate].
  intros H. apply andb_prop in H as [_ H]. auto.
Qed.

Lemma lower_hex_hex_digits (fuel : nat) :
  forall n acc, 0 <= n -> lower_hex acc = true ->
                lower_hex (hex_digits fuel n acc) = true.
Proof.
  induction fuel as [|fuel IH]; intros n acc Hn Hacc; [exact Hacc|].
  cbn [hex_digits].
  assert (Hm : 0 <= n mod 16 < 16) by (apply Z.mod_pos_bound; lia).
  assert (Hc : lower_hex (String (hexdigit (n mod 16)) acc) = true)
    by now rewrite lower_hex_hexdigit.
  destruct (n / 16 =? 0); [exact Hc|].
  apply IH; [apply Z.div_pos; lia | exact Hc].
Qed.

Lemma lower_hex_toString16 (n : Z) : 0 <= n -> lower_hex (toString16 n) = true.
Proof.
  intros Hn. unfold toString16.
  destruct (n <? 0) eqn:E; [apply Z.ltb_lt in E; lia|].
  now apply lower_hex_hex_digits.
Qed.

Lemma lower_hex_bytes2hex (bs : list Z) :
  Forall is_byte bs -> lower_hex (bytes2hex bs) = true.
Proof.
  induction 1 as [|b bs Hb _ IH]; [reflexivity|].
  destruct (byte_digits b Hb) as (Hhi & Hlo & _).
  cbn [bytes2hex]. now rewrite !lower_hex_hexdigit.
Qed.

Lemma lower_hex_inj (s : string) :
  forall t, lower_hex s = true -> lower_hex t = true ->
            String.length s = String.length t -> hexval s = hexval t -> s = t.
Proof.
  induction s as [|c s IH]; intros [|c' t] Hs Ht Hl Hv; try discriminate;
    [reflexivity|].
  pose proof (lower_hex_all_hex _ Hs) as As. pose proof (lower_hex_all_hex _ Ht) as At.
  simpl in Hs, Ht, As, At.
  destruct (digit_of c) as [d|] eqn:Ec; [|discriminate].
  destruct (digit_of c') as [d'|] eqn:Ec'; [|discriminate].
  apply andb_prop in Hs as [Hc Hs]. apply andb_prop in Ht as [Hc' Ht].
  apply Ascii.eqb_eq in Hc, Hc'.
  injection Hl as Hl. rewrite !hexval_cons, Ec, Ec' in Hv.
  pose proof (hexval_bounds s As) as Bs. pose proof (hexval_bounds t At) as Bt.
  unfold slen in *. rewrite <- Hl in *.
  apply digit_of_range in Ec, Ec'.
  assert (d = d') by nia. subst d'.
  assert (hexval s = hexval t) by lia.
  rewrite <- Hc, <- Hc'. f_equal. apply IH; auto.
Qed.

Lemma pad_short_or_long_lower (h : string) (size : nat) :
  lower_hex h = true ->
  lower_hex (substring_from (String.length h) (repeat0 size ++ h)) = true.
Proof.
  intros Hh. apply lower_hex_substring_from.
  now rewrite lower_hex_app, lower_hex_repeat0.
Qed.

(** *** Big-endian bytes *)

Lemma be_value_app (a b : list Z) :
  be_value (a ++ b) = be_value a * 256 ^ Z.of_nat (List.length b) + be_value b.
Proof.
  unfold be_value. rewrite fold_left_app.
  generalize (fold_left (fun acc b0 => acc * 256 + b0) a 0) as x.
  induction b as [|y b IH]; intros x.
  - simpl. lia.
  - cbn [fold_left List.length]. rewrite IH, (IH (0 * 256 + y)).
    rewrite Nat2Z.inj_succ, Z.pow_succ_r by lia. ring.
Qed.

Lemma hexval_bytes2hex (bs : list Z) :
  Forall is_byte bs -> hexval (bytes2hex bs) = be_value bs.
Proof.
  induction 1 as [|b bs Hb _ IH]; [reflexivity|].
  destruct (byte_digits b Hb) as (Hhi & Hlo & E).
  cbn [bytes2hex]. rewrite !hexval_cons, !digit_of_hexdigit by assumption.
  change (b :: bs) with ([b] ++ bs)%list. rewrite be_value_app, IH.
  unfold slen. cbn [String.length]. rewrite length_bytes2hex.
  replace (Z.of_nat (S (2 * List.length bs))) with (Z.succ (2 * Z.of_nat (List.length bs))) by lia.
  rewrite Z.pow_succ_r by lia.
  replace (Z.of_nat (2 * List.length bs)) with (2 * Z.of_nat (List.length bs)) by lia.
  replace (256 ^ Z.of_nat (List.length bs)) with (16 ^ (2 * Z.of_nat (List.length bs))).
  - change (be_value [b]) with (0 * 256 + b).
    replace (0 * 256 + b) with (16 * (b / 16) + b mod 16) by lia. ring.
  - rewrite Z.pow_mul_r by lia. reflexivity.
Qed.

Lemma be_bytes_are_bytes (k : nat) (n : Z) : Forall is_byte (be_bytes k n).
Proof.
  induction k as [|k IH]; constructor; [|exact IH].
  apply Z.mod_pos_bound. lia.
Qed.

Lemma be_value_be_bytes (k : nat) (n : Z) :
  0 <= n -> be_value (be_bytes k n) = n mod 256 ^ Z.of_nat k.
Proof.
  intros Hn. induction k as [|k IH].
  - simpl. now rewrite Z.mod_1_r.
  - cbn [be_bytes]. change (?x :: be_bytes k n) with ([x] ++ be_bytes k n)%list.
    rewrite be_value_app, IH, length_be_bytes.
    unfold be_value. cbn [fold_left].
    rewrite Nat2Z.inj_succ, Z.pow_succ_r by lia.
    set (p := 256 ^ Z.of_nat k). assert (Hp : 0 < p) by (apply Z.pow_pos_nonneg; lia).
    rewrite (Z.mul_comm 256 p), Z.rem_mul_r by lia. lia.
Qed.

End MoreHexFacts.

(** ** Further properties of the codec primitives *)

Import MoreUtils MoreHexFacts.

(** X1: [reverseHex] throws exactly on a string of odd length; otherwise
    the result has the same length and reversing it again gives the string
    back. *)
Theorem reverseHex_round_trip (hex : string) :
  ((exists e, reverseHex hex = Throw e) <-> Nat.odd (String.length hex) = true) /\
  (forall r, reverseHex hex = Ok r ->
             String.length r = String.length hex /\ reverseHex r = Ok hex).
Proof.
  unfold reverseHex. rewrite even_negb_odd.
  destruct (Nat.odd (String.length hex)) eqn:E; cbn [negb].
  - split; [split; eauto | discriminate].
  - assert (Ev : Nat.even (String.length hex) = true)
      by (rewrite even_negb_odd, E; reflexivity).
    split; [split; [intros [e He]; discriminate | discriminate]|].
    intros r Hr. injection Hr as <-.
    rewrite length_reverse_pairs by assumption. split; [reflexivity|].
    rewrite even_negb_odd, E. cbn [negb].
    now rewrite reverse_pairs_involutive.
Qed.

(** X2: a byte array and its hex string determine each other:
    [hexstring2ab] undoes [ab2hexstring], [ab2hexstring] undoes
    [hexstring2ab] on the strings it produces, and the string has two
    characters per byte. *)
Theorem ab2hexstring_hexstring2ab_round_trip (bs : list Z) :
  Forall is_byte bs ->
  hexstring2ab (ab2hexstring (of_bytes bs)) = of_bytes bs /\
  ab2hexstring (hexstring2ab (ab2hexstring (of_bytes bs))) = ab2hexstring (of_bytes bs) /\
  String.length (ab2hexstring (of_bytes bs)) = (2 * List.length bs)%nat.
Proof.
  intros H. rewrite ab2hexstring_of_bytes, hexstring2ab_bytes2hex by assumption.
  rewrite ab2hexstring_of_bytes by assumption.
  repeat split. apply length_bytes2hex.
Qed.

Lemma ab2hexstring_hexstring2ab_round_trip_witness :
  hexstring2ab (ab2hexstring (of_bytes [0; 255; 16])) = of_bytes [0; 255; 16].
Proof.
  apply (ab2hexstring_hexstring2ab_round_trip [0; 255; 16]).
  repeat constructor; unfold is_byte; lia.
Defined.

(** Zero-padding the digits of a number that fits [k] bytes gives its
    big-endian bytes in hex. *)
Lemma padded_digits_big_endian (n : Z) (k : nat) :
  0 <= n < 256 ^ Z.of_nat k ->
  substring_from (String.length (toString16 n)) (repeat0 (2 * k) ++ toString16 n)
  = bytes2hex (be_bytes k n).
Proof.
  intros Hn.
  destruct (toString16_spec n (proj1 Hn)) as (Hhex & Hval & _).
  destruct (pad_low_digits (toString16 n) (2 * k) Hhex) as (Pl & _ & Pv).
  assert (E256 : 16 ^ Z.of_nat (2 * k) = 256 ^ Z.of_nat k).
  { rewrite Nat2Z.inj_mul, Z.pow_mul_r by lia. reflexivity. }
  apply lower_hex_inj.
  - rewrite pad_short_or_long_lower; [reflexivity | now apply lower_hex_toString16].
  - apply lower_hex_bytes2hex, be_bytes_are_bytes.
  - rewrite Pl, length_bytes2hex, length_be_bytes. reflexivity.
  - rewrite Pv, Hval, hexval_bytes2hex by apply be_bytes_are_bytes.
    rewrite be_value_be_bytes, E256 by lia. reflexivity.
Qed.

Lemma num2hexstring_fixed_width (n : Z) (k : nat) :
  0 <= n < 256 ^ Z.of_nat k -> (0 < k)%nat ->
  num2hexstring (Int n) (2 * k) = bytes2hex (be_bytes k n).
Proof.
  intros Hn Hk. unfold num2hexstring. cbn [number_toString16].
  rewrite fit_hexstring_cases.
  destruct (negb (2 * k =? 0)%nat && (String.length (toString16 n) mod (2 * k) =? 0)%nat)%bool eqn:E.
  - apply andb_prop in E as [_ E]. apply Nat.eqb_eq in E.
    assert (E256 : 16 ^ Z.of_nat (2 * k) = 256 ^ Z.of_nat k).
    { rewrite Nat2Z.inj_mul, Z.pow_mul_r by lia. reflexivity. }
    assert (Hw : (String.length (toString16 n) <= 2 * k)%nat)
      by (apply toString16_width; lia).
    destruct (toString16_spec n (proj1 Hn)) as (_ & _ & Hlen & _).
    assert (Hl : String.length (toString16 n) = (2 * k)%nat).
    { destruct (Nat.eq_dec (String.length (toString16 n)) (2 * k)) as [|Hne];
        [assumption|]. rewrite Nat.mod_small in E by lia. lia. }
    rewrite <- padded_digits_big_endian by assumption.
    rewrite pad_short by lia. rewrite Hl, Nat.sub_diag. reflexivity.
  - now apply padded_digits_big_endian.
Qed.

(** X3: for a number that fits [k] bytes, [num2hexstring(num, 2k)] is the
    hex form of its [k] bytes, most significant byte first. *)
Theorem num2hexstring_big_endian (n : Z) (k : nat) :
  0 <= n < 256 ^ Z.of_nat k -> (0 < k)%nat ->
  num2hexstring (Int n) (2 * k) = bytes2hex (be_bytes k n).
Proof.
  apply num2hexstring_fixed_width.
Qed.

Lemma num2hexstring_big_endian_witness :
  num2hexstring (Int 0x1234) (2 * 4) = bytes2hex (be_bytes 4 0x1234).
Proof. apply num2hexstring_big_endian; [simpl; lia | lia]. Defined.

Lemma parseInt16_bytes2hex (bs : list Z) :
  Forall is_byte bs -> bs <> [] -> parseInt16 (bytes2hex bs) = Int (be_value bs).
Proof.
  intros Hb Hne. rewrite parseInt16_hex.
  - now rewrite hexval_bytes2hex.
  - now apply lower_hex_all_hex, lower_hex_bytes2hex.
  - destruct bs; [congruence | discriminate].
Qed.

(** What [readVarInt] reads after a marker followed by [k] bytes. *)
Lemma readVarInt_marker (marker : string) (k : nat) (bs : list Z) :
  (marker = "fd" /\ k = 2%nat) \/ (marker = "fe" /\ k = 4%nat) ->
  Forall is_byte bs -> List.length bs = k ->
  decoded_VarInt (marker ++ bytes2hex bs) = Ok (Int (be_value (rev bs))).
Proof.
  intros Hm Hb Hl. unfold decoded_VarInt.
  pose proof (positioned_new (marker ++ bytes2hex bs ++ "")) as P0.
  rewrite append_nil_r in P0.
  assert (Hml : String.length marker = (1 * 2)%nat)
    by (destruct Hm as [[-> _]|[-> _]]; reflexivity).
  destruct (read_positioned 1 _ _ _ _ P0 Hml ltac:(lia)) as (s1 & R1 & P1).
  cbn [append] in P1.
  assert (Hbl : String.length (bytes2hex bs) = (k * 2)%nat)
    by (rewrite length_bytes2hex; lia).
  rewrite <- (append_nil_r (bytes2hex bs)) in P1.
  assert (Hk : (0 < k)%nat) by (destruct Hm as [[_ ->]|[_ ->]]; lia).
  destruct (read_positioned k _ _ _ _ P1 Hbl Hk) as (s2 & R2 & P2).
  assert (Hrev : Forall is_byte (rev bs)) by now apply Forall_rev.
  assert (Hne : rev bs <> []).
  { intros E. apply (f_equal (@List.length Z)) in E. rewrite length_rev in E.
    simpl in E. lia. }
  unfold readVarInt, sbind. rewrite R1.
  destruct Hm as [[-> ->]|[-> ->]].
  - change (parseInt16 "fd") with (Int 253). cbn [is_int Z.eqb Pos.eqb].
    rewrite R2. unfold lift. rewrite reverseHex_bytes2hex. unfold ret.
    now rewrite parseInt16_bytes2hex.
  - change (parseInt16 "fe") with (Int 254). cbn [is_int Z.eqb Pos.eqb].
    rewrite R2. unfold lift. rewrite reverseHex_bytes2hex. unfold ret.
    now rewrite parseInt16_bytes2hex.
Qed.

(** X4: what comes back from [readVarInt] after [num2VarInt], over the
    whole range below [2 ^ 32].  A value below 0xfd comes back.  From 0xfd
    to 0xffff the two bytes are written most significant first and come
    back swapped; up to 0xffffffff the four bytes come back in reverse
    order. *)
Theorem num2VarInt_read_back (n : Z) :
  (0 <= n < 0xfd -> decoded_VarInt (num2VarInt n) = Ok (Int n)) /\
  (0xfd <= n <= 0xffff ->
     num2VarInt n = "fd" ++ bytes2hex (be_bytes 2 n) /\
     decoded_VarInt (num2VarInt n) = Ok (Int (n mod 256 * 256 + n / 256))) /\
  (0xffff < n <= 0xffffffff ->
     num2VarInt n = "fe" ++ bytes2hex (be_bytes 4 n) /\
     decoded_VarInt (num2VarInt n) = Ok (Int (be_value (rev (be_bytes 4 n))))).
Proof.
  split; [|split].
  - intros Hn. unfold decoded_VarInt.
    pose proof (positioned_new (num2VarInt n ++ "")) as P0.
    rewrite append_nil_r in P0 at 1.
    destruct (readVarInt_small n _ "" "" Hn P0) as (ss' & R & _).
    now rewrite R.
  - intros Hn.
    assert (E : num2VarInt n = "fd" ++ bytes2hex (be_bytes 2 n)).
    { unfold num2VarInt.
      replace (n <? 253) with false by (symmetry; apply Z.ltb_ge; lia).
      replace (n <=? 65535) with true by (symmetry; apply Z.leb_le; lia).
      change 4%nat with (2 * 2)%nat.
      rewrite num2hexstring_fixed_width by (simpl; lia). reflexivity. }
    split; [exact E|]. rewrite E.
    rewrite (readVarInt_marker "fd" 2) by
      first [now left | apply be_bytes_are_bytes | apply length_be_bytes].
    do 2 f_equal. cbn [be_bytes rev app]. unfold be_value. cbn [fold_left].
    change (256 ^ Z.of_nat 1) with 256. change (256 ^ Z.of_nat 0) with 1.
    rewrite Z.div_1_r, (Z.mod_small (n / 256)) by
      (split; [apply Z.div_pos; lia | apply Z.div_lt_upper_bound; lia]).
    lia.
  - intros Hn.
    assert (E : num2VarInt n = "fe" ++ bytes2hex (be_bytes 4 n)).
    { unfold num2VarInt.
      replace (n <? 253) with false by (symmetry; apply Z.ltb_ge; lia).
      replace (n <=? 65535) with false by (symmetry; apply Z.leb_gt; lia).
      replace (n <=? 4294967295) with true by (symmetry; apply Z.leb_le; lia).
      change 8%nat with (2 * 4)%nat.
      rewrite num2hexstring_fixed_width by (simpl; lia). reflexivity. }
    split; [exact E|]. rewrite E.
    apply (readVarInt_marker "fe" 4);
      first [now right | apply be_bytes_are_bytes | apply length_be_bytes].
Qed.

(** X5: [int2hex] writes a non-negative integer on an even number of
    digits; with [reverse] set, [hex2int] reads the integer back. *)
Theorem int2hex_hex2int_round_trip (n : Z) :
  0 <= n ->
  exists h r,
    int2hex n false = Ok h /\ Nat.even (String.length h) = true /\
    parseInt16 h = Int n /\
    int2hex n true = Ok r /\ String.length r = String.length h /\
    hex2int r = Ok (Int n).
Proof.
  intros Hn. unfold int2hex, hex2int.
  destruct (toString16_spec n Hn) as (Hhex & Hval & Hlen & _).
  set (h := if Nat.odd (String.length (toString16 n))
            then "0" ++ toString16 n else toString16 n).
  assert (Hh : Nat.even (String.length h) = true /\ all_hex h = true /\
               hexval h = n /\ h <> "").
  { subst h. destruct (Nat.odd (String.length (toString16 n))) eqn:E.
    - repeat split.
      + cbn [append String.length]. rewrite Nat.even_succ. exact E.
      + exact Hhex.
      + rewrite hexval_app. unfold hexval at 1. simpl. lia.
      + discriminate.
    - repeat split; try assumption.
      + now rewrite even_negb_odd, E.
      + intros E0. rewrite E0 in Hlen. simpl in Hlen. lia. }
  destruct Hh as (Hev & Hah & Hv & Hne).
  exists h, (reverse_pairs h).
  split; [reflexivity|]. split; [assumption|].
  split; [now rewrite parseInt16_hex, Hv|].
  unfold reverseHex. rewrite Hev.
  split; [reflexivity|]. split; [now apply length_reverse_pairs|].
  rewrite length_reverse_pairs, Hev by assumption. cbn [bind].
  rewrite reverse_pairs_involutive by assumption.
  now rewrite parseInt16_hex, Hv.
Qed.

Lemma int2hex_hex2int_round_trip_witness :
  exists h r,
    int2hex 4660 false = Ok h /\ Nat.even (String.length h) = true /\
    parseInt16 h = Int 4660 /\
    int2hex 4660 true = Ok r /\ String.length r = String.length h /\
    hex2int r = Ok (Int 4660).
Proof. apply int2hex_hex2int_round_trip. lia. Defined.



Lemma lxor_byte (a b : Z) : is_byte a -> is_byte b -> is_byte (Z.lxor a b).
Proof.
  unfold is_byte. intros Ha Hb.
  assert (Hn : 0 <= Z.lxor a b) by (apply Z.lxor_nonneg; lia).
  split; [assumption|].
  destruct (Z.eq_dec (Z.lxor a b) 0) as [->|Hz]; [lia|].
  change 256 with (2 ^ 8). apply Z.log2_lt_pow2; [lia|].
  apply Z.le_lt_trans with (Z.max (Z.log2 a) (Z.log2 b)).
  - apply Z.log2_lxor; lia.
  - apply Z.max_lub_lt.
    + destruct (Z.eq_dec a 0) as [->|]; [simpl; lia|].
      apply Z.log2_lt_pow2; [lia | change (2 ^ 8) with 256; lia].
    + destruct (Z.eq_dec b 0) as [->|]; [simpl; lia|].
      apply Z.log2_lt_pow2; [lia | change (2 ^ 8) with 256; lia].
Qed.

Lemma ToInt32_byte (b : Z) : is_byte b -> ToInt32 (Int b) = b.
Proof.
  unfold is_byte, ToInt32. intros H.
  rewrite Z.mod_small by lia. lia.
Qed.

(** The bytewise exclusive or of two byte lists. *)
Lemma xor_pairs_bytes2hex (a : list Z) :
  forall b, Forall is_byte a -> Forall is_byte b -> List.length a = List.length b ->
  xor_pairs (bytes2hex a) (bytes2hex b) =
  of_bytes (map (fun p => Z.lxor (fst p) (snd p)) (combine a b)).
Proof.
  induction a as [|x a IH]; intros [|y b] Ha Hb Hl; try discriminate;
    [reflexivity|].
  inversion Ha as [|? ? Hx Ha']; inversion Hb as [|? ? Hy Hb']; subst.
  destruct (byte_digits x Hx) as (X1 & X2 & EX).
  destruct (byte_digits y Hy) as (Y1 & Y2 & EY).
  cbn [bytes2hex xor_pairs combine map fst snd of_bytes].
  rewrite !parseInt16_two_digits, EX, EY by assumption.
  unfold bitxor. rewrite !ToInt32_byte by assumption.
  f_equal. apply IH; auto.
Qed.

Lemma xor_bytes_are_bytes (a : list Z) :
  forall b, Forall is_byte a -> Forall is_byte b ->
  Forall is_byte (map (fun p => Z.lxor (fst p) (snd p)) (combine a b)).
Proof.
  induction a as [|x a IH]; intros [|y b] Ha Hb; try constructor.
  - inversion Ha; inversion Hb; subst. now apply lxor_byte.
  - inversion Ha; inversion Hb; subst. now apply IH.
Qed.

Lemma xor_bytes_involutive (a : list Z) :
  forall b, List.length a = List.length b ->
  map (fun p => Z.lxor (fst p) (snd p))
      (combine (map (fun p => Z.lxor (fst p) (snd p)) (combine a b)) b) = a.
Proof.
  induction a as [|x a IH]; intros [|y b] Hl; try discriminate; [reflexivity|].
  cbn [combine map fst snd]. rewrite IH by (simpl in Hl; lia).
  f_equal. rewrite Z.lxor_assoc, Z.lxor_nilpotent. apply Z.lxor_0_r.
Qed.

(** X7: [hexXor] throws when the lengths differ or are odd.  On the hex
    strings of two byte arrays of the same length it is the hex string of
    the bytewise exclusive or, and applying it again with the same second
    argument gives the first argument back. *)
Theorem hexXor_bytes (a b : list Z) :
  Forall is_byte a -> Forall is_byte b -> List.length a = List.length b ->
  hexXor (bytes2hex a) (bytes2hex b) =
    Ok (bytes2hex (map (fun p => Z.lxor (fst p) (snd p)) (combine a b))) /\
  (r <- hexXor (bytes2hex a) (bytes2hex b) ;; hexXor r (bytes2hex b)) =
    Ok (bytes2hex a) /\
  (forall s t, String.length s <> String.length t \/
               Nat.odd (String.length s) = true ->
               exists e, hexXor s t = Throw e).
Proof.
  intros Ha Hb Hl.
  assert (E : forall u v, Forall is_byte u -> Forall is_byte v ->
                List.length u = List.length v ->
                hexXor (bytes2hex u) (bytes2hex v) =
                Ok (bytes2hex (map (fun p => Z.lxor (fst p) (snd p)) (combine u v)))).
  { intros u v Hu Hv Huv. unfold hexXor.
    rewrite !length_bytes2hex, Huv, Nat.eqb_refl. cbn [negb].
    replace (2 * List.length v mod 2 =? 0)%nat with true
      by (symmetry; apply Nat.eqb_eq; rewrite Nat.mul_comm; apply Nat.Div0.mod_mul).
    cbn [negb]. rewrite xor_pairs_bytes2hex by assumption.
    now rewrite ab2hexstring_of_bytes by now apply xor_bytes_are_bytes. }
  split; [now apply E|]. split.
  - rewrite E by assumption. cbn [bind].
    rewrite E.
    + now rewrite xor_bytes_involutive.
    + now apply xor_bytes_are_bytes.
    + assumption.
    + rewrite length_map, length_combine. lia.
  - intros s t [Hne|Hodd]; unfold hexXor.
    + replace (String.length s =? String.length t)%nat with false
        by (symmetry; now apply Nat.eqb_neq).
      cbn [negb]. eauto.
    + destruct (String.length s =? String.length t)%nat; cbn [negb]; eauto.
      replace (String.length s mod 2 =? 0)%nat with false; cbn [negb]; eauto.
      symmetry. apply Nat.eqb_neq. intros E0.
      apply Nat.Div0.mod_divides in E0 as [c Hc].
      rewrite Hc, Nat.odd_mul in Hodd. discriminate.
Qed.

Lemma hexXor_bytes_witness :
  hexXor "0ff0" "ff00" = Ok "f0f0" /\
  (r <- hexXor "0ff0" "ff00" ;; hexXor r "ff00") = Ok "0ff0".
Proof.
  destruct (hexXor_bytes [0x0f; 0xf0] [0xff; 0x00]) as (H1 & H2 & _).
  - repeat constructor; unfold is_byte; lia.
  - repeat constructor; unfold is_byte; lia.
  - reflexivity.
  - split; [exact H1 | exact H2].
Defined.

(** X8: [reverseArray] returns the elements in reverse order, each stored
    as a byte; on a byte array, reversing twice gives the array back. *)
Theorem reverseArray_rev (arr : list number) :
  reverseArray arr = rev (map ToUint8 arr) /\
  List.length (reverseArray arr) = List.length arr /\
  (forall bs, Forall is_byte bs -> arr = of_bytes bs ->
              reverseArray (of_bytes (reverseArray arr)) = bs).
Proof.
  assert (E : forall l : list number, reverseArray l = rev (map ToUint8 l)).
  { intros l. unfold reverseArray. rewrite <- map_rev.
    rewrite <- (map_map (fun i => nth (List.length l - 1 - i) l NaN) ToUint8).
    f_equal. apply nth_ext with (d := NaN) (d' := NaN).
    - now rewrite length_map, length_seq, length_rev.
    - intros i Hi. rewrite length_map, length_seq in Hi.
      rewrite (nth_indep _ NaN (nth (List.length l - 1 - 0) l NaN))
        by now rewrite length_map, length_seq.
      rewrite (map_nth (fun i => nth (List.length l - 1 - i) l NaN)), seq_nth by assumption.
      rewrite rev_nth by assumption. f_equal. lia. }
  split; [apply E|]. split.
  - now rewrite E, length_rev, length_map.
  - intros bs Hb ->. rewrite (E (of_bytes bs)), ToUint8_of_bytes by assumption.
    rewrite E, ToUint8_of_bytes by now apply Forall_rev.
    apply rev_involutive.
Qed.


(** ** Further properties of the stream and of the transaction codec *)

Lemma substring_rest (pre post : string) (n : nat) :
  (String.length post <= n)%nat ->
  String.substring (String.length pre) n (pre ++ post) = post.
Proof.
  intros Hn. induction pre as [|c pre IH]; [|exact IH].
  cbn [String.length append]. revert n Hn.
  induction post as [|c post IH]; intros [|n] Hn; simpl in *; try reflexivity; try lia.
  rewrite IH by lia. reflexivity.
Qed.

(** X10: a read that asks for more than what is left returns the shorter
    remainder without an exception and leaves the stream empty; only the
    next read throws.  So [readVarInt] accepts a two-byte value of which
    one byte is missing and returns that byte. *)
Theorem read_past_the_end (ss : StringStream) (pre post : string) (k : nat) :
  positioned ss pre post -> post <> "" -> (String.length post < k * 2)%nat ->
  (exists ss', read k ss = Ok (post, ss') /\ isEmpty ss' = true /\
               forall j, read j ss' = Throw "") /\
  (forall b, is_byte b -> decoded_VarInt ("fd" ++ bytes2hex [b]) = Ok (Int b)).
Proof.
  intros [Hs Hp] Hne Hlen. split.
  - assert (Hpos : (0 < String.length post)%nat)
      by (destruct post; [congruence | simpl; lia]).
    unfold read, isEmpty. rewrite Hs, Hp, length_append.
    replace (String.length pre + String.length post <=? String.length pre)%nat
      with false by (symmetry; apply Nat.leb_gt; lia).
    unfold substr. rewrite substring_rest by lia.
    eexists. split; [reflexivity|]. cbn [str pter]. rewrite length_append.
    assert (E : (String.length pre + String.length post <=? String.length pre + k * 2)%nat = true)
      by (apply Nat.leb_le; lia).
    split; [exact E|]. intros j. now rewrite E.
  - intros b Hb. destruct (byte_digits b Hb) as (Hhi & Hlo & E).
    assert (R : forall c1 c2,
               decoded_VarInt (String "f" (String "d" (String c1 (String c2 ""))))
               = Ok (parseInt16 (String c1 (String c2 "")))) by reflexivity.
    cbn [append bytes2hex]. rewrite R.
    now rewrite parseInt16_two_digits, E.
Qed.

Lemma read_past_the_end_witness :
  exists ss', read 4 (mkStream "fe0102" 2) = Ok ("0102", ss') /\ isEmpty ss' = true /\
              forall j, read j ss' = Throw "".
Proof.
  apply (read_past_the_end (mkStream "fe0102" 2) "fe" "0102" 4).
  - split; reflexivity.
  - discriminate.
  - simpl. lia.
Defined.

Section MoreTransactionFacts.

Context {object exclusive : Type}.
Context (serialize : Serialize object exclusive)
        (deserialize : Deserialize object exclusive).

#[local] Abbreviation Txn := (Transactions.Transaction object exclusive).

(** X11: with at least one witness, the signed bytes are the unsigned
    bytes followed by the number of witnesses and the witnesses. *)
Theorem serializeTransaction_signed_extends_unsigned
  (tx : Txn) (ws : list Witness) (data w : string) :
  scripts tx = Some ws -> ws <> [] ->
  serializeTransaction serialize tx false = Ok data ->
  concat_map (ser_script serialize) ws = Ok w ->
  serializeTransaction serialize tx true = Ok (data ++ num2VarInt (len ws) ++ w).
Proof.
  intros Hs Hne Hd Hw. unfold serializeTransaction in *. rewrite Hs in *.
  destruct (call (ser_exclusiveData serialize (type tx)) tx); [|discriminate].
  destruct (concat_map (ser_attribute serialize) (attributes tx)); [|discriminate].
  destruct (concat_map (ser_input serialize) (inputs tx)); [|discriminate].
  destruct (concat_map (ser_output serialize) (outputs tx)); [|discriminate].
  cbn [bind andb] in *. injection Hd as <-.
  replace (0 <? len ws) with true.
  - rewrite Hw. cbn [bind]. now rewrite append_assoc.
  - symmetry. apply Z.ltb_lt. unfold len. destruct ws; [congruence | simpl; lia].
Qed.

(** X12: an input that is empty or whose first byte is not the type of a
    known kind is rejected with an exception; no transaction is built. *)
Theorem deserializeTransaction_unknown_type (data : string) :
  data = "" \/ de_exclusiveData deserialize (parseInt16 (substr data 0 2)) = None ->
  exists e, deserializeTransaction deserialize data = Throw e.
Proof.
  intros H. unfold deserializeTransaction, sbind, read, isEmpty, new_StringStream.
  cbn [str pter]. destruct data as [|c data]; [simpl; eauto|].
  destruct H as [H|H]; [discriminate|].
  cbn [String.length Nat.leb Nat.add Nat.mul]. rewrite H.
  match goal with |- context [if ?b then _ else _] => destruct b end; [eauto|].
  cbn [scall]. eauto.
Qed.

Lemma fold_push_scripts (ws : list Witness) (tx : Txn) :
  fold_left push_scripts ws tx =
  mkTransaction (type tx) (version tx) (attributes tx) (inputs tx) (outputs tx)
                (match ws with
                 | [] => scripts tx
                 | _ => Some (match scripts tx with Some l => l | None => [] end ++ ws)%list
                 end)
                (exclusiveData tx).
Proof.
  revert tx; induction ws as [|w ws IH]; intros tx; [now destruct tx|].
  cbn [fold_left]. rewrite IH. cbn [push_scripts type version attributes inputs
                                     outputs scripts exclusiveData].
  destruct ws; [reflexivity | now rewrite <- app_assoc].
Qed.

Lemma for_loop_reads_scripts (ws : list Witness) :
  Forall (round_trips (ser_script serialize) (de_script deserialize)) ws ->
  exists s, concat_map (ser_script serialize) ws = Ok s /\
    forall (tx : Txn) ss pre post, positioned ss pre (s ++ post) ->
      exists ss',
        for_loop (List.length ws)
          (fun tx => w <~ de_script deserialize ;; ret (push_scripts tx w)) tx ss
          = Ok (fold_left push_scripts ws tx, ss') /\
        positioned ss' (pre ++ s) post.
Proof.
  induction 1 as [|x xs (s1 & Hs1 & Hde) _ (s & Hs & IH)].
  - exists "". split; [reflexivity|]. intros tx ss pre post Hp.
    exists ss. split; [reflexivity|]. now rewrite append_nil_r.
  - exists (s1 ++ s). split.
    + simpl. rewrite Hs1. simpl. rewrite Hs. reflexivity.
    + intros tx ss pre post Hp. rewrite append_assoc in Hp.
      destruct (Hde ss pre (s ++ post) Hp) as (ss1 & Hd1 & Hp1).
      destruct (IH (push_scripts tx x) ss1 (pre ++ s1) post Hp1) as (ss' & Hl & Hp').
      exists ss'. split.
      * cbn [List.length for_loop]. unfold sbind at 1. unfold sbind at 1.
        rewrite Hd1. unfold ret at 1. exact Hl.
      * now rewrite <- append_assoc.
Qed.

(** X13: the signed bytes of a transaction with witnesses are read back
    with the witnesses in [scripts], in order (and, as for the unsigned
    bytes, with the attributes in front of the inputs). *)
Theorem deserializeTransaction_reads_witnesses
  (tx : Txn) (t v : Z) (ws : list Witness) :
  type tx = Int t -> 0 <= t < 256 ->
  version tx = Int v -> 0 <= v < 256 ->
  len (attributes tx) < 0xfd -> len (inputs tx) < 0xfd ->
  len (outputs tx) < 0xfd ->
  scripts tx = Some ws -> 0 < len ws < 0xfd ->
  exclusive_round_trips serialize deserialize tx ->
  Forall (round_trips (ser_attribute serialize) (de_attribute deserialize))
         (attributes tx) ->
  Forall (round_trips (ser_input serialize) (de_input deserialize)) (inputs tx) ->
  Forall (round_trips (ser_output serialize) (de_output deserialize))
         (outputs tx) ->
  Forall (round_trips (ser_script serialize) (de_script deserialize)) ws ->
  exists data,
    serializeTransaction serialize tx true = Ok data /\
    deserializeTransaction deserialize data =
      Ok (mkTransaction (type tx) (version tx) []
                        (attributes tx ++ inputs tx)%list (outputs tx)
                        (Some ws) (exclusiveData tx)).
Proof.
  intros Ht Htr Hv Hvr Hla Hli Hlo Hsc Hlw (e & He & Hde) Ha Hi Ho Hw.
  destruct (for_loop_reads (exclusive := exclusive) _ _ push_inputs _ Ha) as (sa & Hsa & Hra).
  destruct (for_loop_reads (exclusive := exclusive) _ _ push_inputs _ Hi) as (si & Hsi & Hri).
  destruct (for_loop_reads (exclusive := exclusive) _ _ push_outputs _ Ho) as (so & Hso & Hro).
  destruct (for_loop_reads_scripts _ Hw) as (sw & Hsw & Hrw).
  set (T := num2hexstring (type tx) 2) in *.
  set (V := num2hexstring (version tx) 2) in *.
  set (na := num2VarInt (len (attributes tx))).
  set (ni := num2VarInt (len (inputs tx))).
  set (no := num2VarInt (len (outputs tx))).
  set (nw := num2VarInt (len ws)).
  exists (T ++ V ++ e ++ na ++ sa ++ ni ++ si ++ no ++ so ++ nw ++ sw ++ "").
  assert (Hser : serializeTransaction serialize tx true =
                 Ok (T ++ V ++ e ++ na ++ sa ++ ni ++ si ++ no ++ so ++ nw ++ sw ++ "")).
  { unfold serializeTransaction. rewrite He, Hsa, Hsi, Hso, Hsc. cbn [bind andb].
    replace (0 <? len ws) with true by (symmetry; apply Z.ltb_lt; lia).
    rewrite Hsw. cbn [bind]. fold T V na ni no nw.
    cbn [append]. rewrite !append_assoc, append_nil_r. reflexivity. }
  split; [exact Hser|].
  unfold deserializeTransaction.
  pose proof (positioned_new
    (T ++ V ++ e ++ na ++ sa ++ ni ++ si ++ no ++ so ++ nw ++ sw ++ "")) as P0.
  assert (HT : String.length T = (1 * 2)%nat /\ parseInt16 T = type tx).
  { subst T. rewrite Ht. split.
    - apply num2hexstring_fits; simpl; lia.
    - apply num2hexstring_parse; simpl; lia. }
  assert (HV : String.length V = (1 * 2)%nat /\ parseInt16 V = version tx).
  { subst V. rewrite Hv. split.
    - apply num2hexstring_fits; simpl; lia.
    - apply num2hexstring_parse; simpl; lia. }
  destruct HT as [HTl HTp], HV as [HVl HVp].
  destruct (read_positioned 1 _ _ _ _ P0 HTl ltac:(lia)) as (s1 & R1 & P1).
  destruct (read_positioned 1 _ _ _ _ P1 HVl ltac:(lia)) as (s2 & R2 & P2).
  cbn [append] in P2.
  destruct (Hde _ _ P2) as (s3 & R3 & P3).
  assert (Ba : 0 <= len (attributes tx) < 0xfd) by (unfold len in *; lia).
  assert (Bi : 0 <= len (inputs tx) < 0xfd) by (unfold len in *; lia).
  assert (Bo : 0 <= len (outputs tx) < 0xfd) by (unfold len in *; lia).
  assert (Bw : 0 <= len ws < 0xfd) by lia.
  destruct (readVarInt_small _ _ _ _ Ba P3) as (s4 & R4 & P4).
  fold na in P4.
  set (tx0 := mkTransaction (type tx) (version tx) ([] : list object) [] []
                            (Some []) (exclusiveData tx)).
  destruct (Hra tx0 _ _ _ P4) as (s5 & R5 & P5).
  destruct (readVarInt_small _ _ _ _ Bi P5) as (s6 & R6 & P6).
  fold ni in P6.
  destruct (Hri (fold_left push_inputs (attributes tx) tx0) _ _ _ P6) as (s7 & R7 & P7).
  destruct (readVarInt_small _ _ _ _ Bo P7) as (s8 & R8 & P8).
  fold no in P8.
  destruct (Hro (fold_left push_inputs (inputs tx)
                   (fold_left push_inputs (attributes tx) tx0)) _ _ _ P8)
    as (s9 & R9 & P9).
  pose proof (isEmpty_positioned _ _ _ P9) as E9.
  assert (Hnw : String.length nw = 2%nat).
  { subst nw. rewrite num2VarInt_small by assumption.
    apply num2hexstring_fits; simpl; lia. }
  rewrite !length_append, Hnw in E9. cbn [Nat.add Nat.eqb] in E9.
  destruct (readVarInt_small _ _ _ _ Bw P9) as (s10 & R10 & P10).
  fold nw in P10.
  destruct (Hrw (fold_left push_outputs (outputs tx)
                   (fold_left push_inputs (inputs tx)
                      (fold_left push_inputs (attributes tx) tx0))) _ _ _ P10)
    as (s11 & R11 & P11).
  unfold sbind in *. rewrite R1, R2, HTp, HVp, R3, R4, iterations_len.
  fold tx0. rewrite R5, R6, iterations_len, R7, R8, iterations_len, R9, E9.
  cbn [negb]. rewrite R10, iterations_len, R11. f_equal.
  rewrite fold_push_scripts, fold_push_outputs, !fold_push_inputs.
  cbn [type version attributes inputs outputs scripts exclusiveData app].
  destruct ws; [unfold len in Hlw; simpl in Hlw; lia | reflexivity].
Qed.

End MoreTransactionFacts.

(** ** Further properties of the wallet *)

Import MoreWallet.

Lemma substring_bytes2hex_firstn (bs : list Z) (n : nat) :
  String.substring 0 (2 * n) (bytes2hex bs) = bytes2hex (firstn n bs).
Proof.
  revert bs; induction n as [|n IH]; intros bs.
  - now destruct bs.
  - replace (2 * S n)%nat with (S (S (2 * n))) by lia.
    destruct bs as [|b bs]; [reflexivity|].
    cbn [bytes2hex firstn String.substring]. now rewrite IH.
Qed.

Lemma substr_bytes2hex (bs : list Z) (i n : nat) :
  substr (bytes2hex bs) (2 * i) (2 * n) = bytes2hex (slice bs i (i + n)).
Proof.
  unfold substr, slice. replace (i + n - i)%nat with n by lia.
  revert bs; induction i as [|i IH]; intros bs.
  - apply substring_bytes2hex_firstn.
  - replace (2 * S i)%nat with (S (S (2 * i))) by lia.
    destruct bs as [|b bs].
    + cbn [bytes2hex skipn firstn String.substring]. now destruct n.
    + cbn [bytes2hex skipn String.substring]. apply IH.
Qed.

Section MoreWalletFacts.

Context {P : Primitives} {L : PrimitivesLaws P}.

Lemma address_bytes_head (h : list Z) :
  List.length h = 20%nat -> slice (address_bytes h) 0 21 = 23 :: h.
Proof.
  intros Hlen. unfold slice, address_bytes. cbn [skipn Nat.sub].
  rewrite firstn_app. cbn [List.length]. rewrite Hlen, Nat.sub_diag, firstn_O, app_nil_r.
  apply firstn_all2. simpl. lia.
Qed.

Lemma address_bytes_checksum (h : list Z) :
  List.length h = 20%nat ->
  slice (address_bytes h) 21 25 = firstn 4 (SHA256 (SHA256 (23 :: h))).
Proof.
  intros Hlen. unfold slice, address_bytes.
  rewrite skipn_app. cbn [List.length]. rewrite Hlen.
  rewrite skipn_all2 by (simpl; lia). cbn [Nat.sub app skipn].
  apply firstn_all2. rewrite length_firstn. lia.
Qed.

(** X14: [getScriptHashFromAddress] and [addressToScriptHash] read bytes
    1 to 20 of whatever the address decodes to, the first in reversed
    byte order; neither checks the version byte or the checksum. *)
Theorem getScriptHashFromAddress_reverses_bytes (address : string) (data : list Z) :
  base58_decode address = Ok data ->
  getScriptHashFromAddress address = Ok (bytes2hex (rev (slice data 1 21))) /\
  addressToScriptHash address = Ok (bytes2hex (slice data 1 21)) /\
  (forall h, List.length h = 20%nat -> data = address_bytes h ->
     getScriptHashFromAddress address = Ok (bytes2hex (rev h))).
Proof.
  intros Hd. pose proof (base58_decode_bytes _ _ Hd) as Hb.
  assert (E : getScriptHashFromAddress address = Ok (bytes2hex (rev (slice data 1 21)))).
  { unfold getScriptHashFromAddress. rewrite Hd. cbn [bind].
    rewrite ab2hexstring_of_bytes by assumption.
    rewrite (substr_bytes2hex data 1 20 :
               substr (bytes2hex data) 2 40 = bytes2hex (slice data 1 21)).
    apply reverseHex_bytes2hex. }
  split; [exact E|]. split.
  - unfold addressToScriptHash. rewrite Hd. cbn [bind].
    now rewrite ab2hexstring_of_bytes by now apply Forall_slice.
  - intros h Hl ->. rewrite E. now rewrite slice_address_bytes.
Qed.

(** X15: [getScriptHashFromPublicKey] never throws: it returns the
    RIPEMD-160 of the SHA-256 of the wallet script of the key, in reversed
    byte order, which is [reverseHex] of the program hash. *)
Theorem getScriptHashFromPublicKey_reversed_program_hash (publicKey : string) :
  getScriptHashFromPublicKey publicKey =
    Ok (bytes2hex
          (rev (RIPEMD160 (SHA256 (Hex_parse (createChainLineWalletScript publicKey)))))) /\
  getScriptHashFromPublicKey publicKey =
    reverseHex (getHash (createChainLineWalletScript publicKey)).
Proof.
  unfold getScriptHashFromPublicKey. rewrite getHash_eq.
  set (h := RIPEMD160 (SHA256 (Hex_parse (createChainLineWalletScript publicKey)))).
  assert (Hb : Forall is_byte h) by apply RIPEMD160_bytes.
  assert (Hl : List.length h = 20%nat) by apply RIPEMD160_length.
  rewrite hexstring2ab_bytes2hex by assumption.
  rewrite toAddress_20 by (unfold of_bytes; now rewrite length_map).
  rewrite ToUint8_of_bytes by assumption. cbn [bind].
  unfold getScriptHashFromAddress.
  rewrite base58_decode_encode by now apply address_bytes_are_bytes.
  cbn [bind]. rewrite ab2hexstring_of_bytes by now apply address_bytes_are_bytes.
  rewrite (substr_bytes2hex (address_bytes h) 1 20 :
             substr (bytes2hex (address_bytes h)) 2 40
             = bytes2hex (slice (address_bytes h) 1 21)).
  rewrite slice_address_bytes by assumption.
  rewrite reverseHex_bytes2hex. split; reflexivity.
Qed.

Lemma verifyAddress_decoded (address : string) (data : list Z) :
  base58_decode address = Ok data ->
  (firstn 4 (SHA256 (SHA256 (slice data 0 21))) = slice data 21 25 /\
   List.length (slice data 1 21) = 20%nat /\
   verifyAddress address =
     Ok (base58_encode (address_bytes (slice data 1 21)) =? address)%string) \/
  (firstn 4 (SHA256 (SHA256 (slice data 0 21))) <> slice data 21 25 /\
   verifyAddress address = Ok false).
Proof.
  intros Hd. pose proof (base58_decode_bytes _ _ Hd) as Hb.
  unfold verifyAddress. rewrite Hd. cbn [bind].
  rewrite ab2hexstring_of_bytes, Hex_parse_bytes2hex by now apply Forall_slice.
  rewrite hexstring2ab_bytes2hex by apply SHA256_bytes.
  rewrite slice_of_bytes.
  rewrite !ab2hexstring_of_bytes
    by first [apply Forall_slice, SHA256_bytes | now apply Forall_slice].
  assert (Hs4 : forall l : list Z, slice l 0 4 = firstn 4 l) by reflexivity.
  rewrite Hs4.
  destruct (String.eqb_spec
              (bytes2hex (firstn 4 (SHA256 (SHA256 (slice data 0 21)))))
              (bytes2hex (slice data 21 25))) as [Heq|Hne]; cbn [negb].
  - apply bytes2hex_inj in Heq;
      [|apply Forall_firstn, SHA256_bytes | now apply Forall_slice].
    assert (Hl : List.length (slice data 1 21) = 20%nat).
    { apply (f_equal (@List.length Z)) in Heq. unfold slice in *.
      rewrite !length_firstn, length_skipn, SHA256_length in *. lia. }
    left. split; [exact Heq|]. split; [exact Hl|].
    rewrite toAddress_20 by (unfold of_bytes; now rewrite length_map).
    rewrite ToUint8_of_bytes by now apply Forall_slice.
    cbn [bind]. now destruct String.eqb.
  - right. split; [|reflexivity]. intros Hc. apply Hne. now rewrite Hc.
Qed.

(** X16: [verifyAddress] returns [true] exactly for the addresses that
    [toAddress] produces from 20 bytes; it throws exactly when the base58
    decoder does, and returns [false] otherwise. *)
Theorem verifyAddress_true_iff (address : string) :
  (verifyAddress address = Ok true <->
   exists h, List.length h = 20%nat /\ Forall is_byte h /\
             address = base58_encode (address_bytes h)) /\
  (forall e, verifyAddress address = Throw e <-> base58_decode address = Throw e) /\
  (forall h, List.length h = 20%nat -> Forall is_byte h ->
     exists a, toAddress (of_bytes h) = Ok a /\ verifyAddress a = Ok true).
Proof.
  assert (Hgood : forall h, List.length h = 20%nat -> Forall is_byte h ->
            verifyAddress (base58_encode (address_bytes h)) = Ok true).
  { intros h Hl Hh.
    assert (Hd : base58_decode (base58_encode (address_bytes h)) = Ok (address_bytes h))
      by now apply base58_decode_encode, address_bytes_are_bytes.
    destruct (verifyAddress_decoded _ _ Hd) as [(_ & _ & ->)|(Hne & _)].
    - rewrite slice_address_bytes by assumption. now rewrite String.eqb_refl.
    - exfalso. apply Hne.
      now rewrite address_bytes_head, address_bytes_checksum. }
  split; [|split].
  - split.
    + intros Hv.
      destruct (base58_decode address) as [data|e] eqn:Hd.
      * pose proof (base58_decode_bytes _ _ Hd) as Hb.
        destruct (verifyAddress_decoded _ _ Hd) as [(_ & Hl & E)|(_ & E)];
          rewrite E in Hv; [|discriminate].
        injection Hv as Hv. apply String.eqb_eq in Hv.
        exists (slice data 1 21). split; [exact Hl|]. split.
        -- now apply Forall_slice.
        -- now symmetry.
      * unfold verifyAddress in Hv. rewrite Hd in Hv. discriminate.
    + intros (h & Hl & Hh & ->). now apply Hgood.
  - intros e. destruct (base58_decode address) as [data|e'] eqn:Hd.
    + destruct (verifyAddress_decoded _ _ Hd) as [(_ & _ & E)|(_ & E)];
        rewrite E; split; discriminate.
    + unfold verifyAddress. rewrite Hd. cbn [bind].
      split; intros H; injection H as ->; reflexivity.
  - intros h Hl Hh. exists (base58_encode (address_bytes h)). split.
    + rewrite toAddress_20 by (unfold of_bytes; now rewrite length_map).
      now rewrite ToUint8_of_bytes.
    + now apply Hgood.
Qed.

End MoreWalletFacts.

Section MoreKeyFacts.

Context {P : Primitives} {L : PrimitivesLaws P}.
Context (WIF_encode : Z -> list Z -> bool -> result string).

Lemma wif_bytes_are_bytes (key : list Z) :
  Forall is_byte key -> Forall is_byte (wif_bytes key).
Proof.
  intros Hk. unfold wif_bytes. apply Forall_app. split.
  - constructor; [unfold is_byte; lia|]. apply Forall_app. split; [assumption|].
    constructor; [unfold is_byte; lia | constructor].
  - apply Forall_firstn, SHA256_bytes.
Qed.

Lemma wif_bytes_conditions (key : list Z) :
  List.length key = 32%nat ->
  wif_conditions (wif_bytes key) /\ slice (wif_bytes key) 1 33 = key.
Proof.
  intros Hl. unfold wif_conditions, wif_bytes.
  set (body := (128 :: key ++ [1])%list).
  set (c := firstn 4 (SHA256 (SHA256 body))).
  assert (Hbl : List.length body = 34%nat).
  { subst body. cbn [List.length]. rewrite length_app, Hl. reflexivity. }
  assert (Hcl : List.length c = 4%nat).
  { subst c. rewrite length_firstn, SHA256_length. reflexivity. }
  repeat split.
  - rewrite length_app, Hbl, Hcl. reflexivity.
  - rewrite nth_error_app1 by lia. subst body.
    change (nth_error (128 :: key ++ [1]) 33) with (nth_error (key ++ [1]) 32).
    rewrite nth_error_app2 by lia. now rewrite Hl.
  - unfold slice. rewrite skipn_app, Hbl, skipn_all2 by lia.
    cbn [Nat.sub app skipn]. rewrite firstn_all2 by lia.
    subst c. do 3 f_equal. rewrite firstn_app, Hbl, firstn_all2 by lia.
    cbn [Nat.sub firstn]. now rewrite app_nil_r.
  - unfold slice. subst body. cbn [app skipn Nat.sub].
    rewrite <- app_assoc, firstn_app, Hl, Nat.sub_diag, firstn_O, app_nil_r.
    apply firstn_all2. lia.
Qed.

Lemma getPrivateKeyFromWIF_of_wif_bytes (key : list Z) :
  Forall is_byte key -> List.length key = 32%nat ->
  getPrivateKeyFromWIF (base58_encode (wif_bytes key)) = Ok (Val (bytes2hex key)).
Proof.
  intros Hk Hl.
  assert (Hd : base58_decode (base58_encode (wif_bytes key)) = Ok (wif_bytes key))
    by now apply base58_decode_encode, wif_bytes_are_bytes.
  destruct (wif_bytes_conditions key Hl) as [Hc Hs].
  destruct (getPrivateKeyFromWIF_decoded _ _ Hd) as [(_ & E)|(Hn & _)].
  - now rewrite E, Hs.
  - contradiction.
Qed.

(** X17: a 32-byte key written by [getWIFFromPrivateKey] is read back by
    [getPrivateKeyFromWIF], when [WIF.encode] writes version, key,
    compression flag and checksum in base58. *)
Theorem getWIFFromPrivateKey_round_trip (key : list Z) :
  Forall is_byte key -> List.length key = 32%nat ->
  WIF_encode 128 key true = Ok (base58_encode (wif_bytes key)) ->
  exists wif,
    getWIFFromPrivateKey WIF_encode (of_bytes key) = Ok wif /\
    getPrivateKeyFromWIF wif = Ok (Val (bytes2hex key)) /\
    hexstring2ab (bytes2hex key) = of_bytes key.
Proof.
  intros Hk Hl Hw. exists (base58_encode (wif_bytes key)). split; [|split].
  - unfold getWIFFromPrivateKey.
    now rewrite ab2hexstring_of_bytes, Buffer_from_hex_bytes2hex.
  - now apply getPrivateKeyFromWIF_of_wif_bytes.
  - now apply hexstring2ab_bytes2hex.
Qed.

(** X18: the two error codes of [getPrivateKeyFromWIF]: -1 exactly when
    the decoded bytes are not 38 bytes with 0x80 first and 0x01 at index
    33, and -2 exactly when they are but the last four bytes are not the
    checksum of the first 34. *)
Theorem getPrivateKeyFromWIF_error_codes (wif : string) (data : list Z) :
  base58_decode wif = Ok data ->
  let shape := List.length data = 38%nat /\ nth_error data 0 = Some 0x80 /\
               nth_error data 33 = Some 0x01 in
  (getPrivateKeyFromWIF wif = Ok (Code (-1)) <-> ~ shape) /\
  (getPrivateKeyFromWIF wif = Ok (Code (-2)) <->
   shape /\ slice data 34 38 <> firstn 4 (SHA256 (SHA256 (firstn 34 data)))).
Proof.
  intros Hd shape. subst shape. pose proof (base58_decode_bytes _ _ Hd) as Hb.
  unfold getPrivateKeyFromWIF. rewrite Hd. cbn [bind].
  destruct (List.length data =? 38)%nat eqn:E38; cbn [negb orb].
  2:{ apply Nat.eqb_neq in E38. split; split; try discriminate; tauto. }
  apply Nat.eqb_eq in E38.
  destruct (match nth_error data 0 with Some b => b =? 128 | None => false end) eqn:E0;
    cbn [negb orb].
  2:{ assert (nth_error data 0 <> Some 128)
        by (intros H0; apply nth_error_eqb in H0; congruence).
      split; split; try discriminate; tauto. }
  apply nth_error_eqb in E0.
  destruct (match nth_error data 33 with Some b => b =? 1 | None => false end) eqn:E33;
    cbn [negb].
  2:{ assert (nth_error data 33 <> Some 1)
        by (intros H0; apply nth_error_eqb in H0; congruence).
      split; split; try discriminate; tauto. }
  apply nth_error_eqb in E33.
  rewrite E38. cbn [Nat.sub].
  assert (Hs : slice data 0 34 = firstn 34 data) by reflexivity.
  rewrite Hs.
  rewrite ab2hexstring_of_bytes, Hex_parse_bytes2hex by now apply Forall_firstn.
  rewrite hexstring2ab_bytes2hex by apply SHA256_bytes.
  rewrite slice_of_bytes.
  rewrite !ab2hexstring_of_bytes
    by first [apply Forall_slice, SHA256_bytes | now apply Forall_slice].
  assert (Hs4 : forall l : list Z, slice l 0 4 = firstn 4 l) by reflexivity.
  rewrite Hs4.
  destruct (String.eqb_spec
              (bytes2hex (firstn 4 (SHA256 (SHA256 (firstn 34 data)))))
              (bytes2hex (slice data 34 38))) as [Heq|Hne]; cbn [negb].
  - apply bytes2hex_inj in Heq;
      [|apply Forall_firstn, SHA256_bytes | now apply Forall_slice].
    split; split; try discriminate.
    + intros Hn. exfalso. apply Hn. repeat split; assumption.
    + intros (_ & Hn). exfalso. apply Hn. now symmetry.
  - split; split; try discriminate.
    + intros Hn. exfalso. apply Hn. repeat split; assumption.
    + intros _. split; [repeat split; assumption|].
      intros Hc. apply Hne. now rewrite Hc.
    + reflexivity.
Qed.

(** X19: for a well-formed WIF string the key handed on by
    [getAccountFromWIFKey] always has 64 characters, so the result is that
    of [getAccountFromPublicKey] on the derived public key; an error code
    of the WIF decoding is returned unchanged. *)
Theorem getAccountFromWIFKey_composition (wif : string) (data : list Z) :
  base58_decode wif = Ok data -> wif_conditions data ->
  let key := bytes2hex (slice data 1 33) in
  String.length key = 64%nat /\
  getAccountFromWIFKey wif =
    getAccountFromPublicKey (ab2hexstring (of_bytes (getPublicKey key true)))
                            (Some key) /\
  (valid_key key ->
     exists a, getAccountFromWIFKey wif = Ok (Val a) /\ privateKey a = Some key /\
               addressToScriptHash (address a) = Ok (programHash a)).
Proof.
  intros Hd Hc key.
  assert (Hk : String.length key = 64%nat).
  { subst key. rewrite length_bytes2hex. unfold slice.
    rewrite length_firstn, length_skipn. destruct Hc as (-> & _). reflexivity. }
  assert (E : getAccountFromWIFKey wif =
              getAccountFromPublicKey (ab2hexstring (of_bytes (getPublicKey key true)))
                                      (Some key)).
  { unfold getAccountFromWIFKey.
    destruct (getPrivateKeyFromWIF_decoded _ _ Hd) as [(_ & ->)|(Hn & _)];
      [|contradiction].
    cbn [bind]. fold key. unfold getAccountFromPrivateKey. now rewrite Hk. }
  split; [exact Hk|]. split; [exact E|].
  intros (_ & Hv). rewrite E, (getAccountFromPublicKey_valid _ _ Hv).
  eexists. split; [reflexivity|]. cbn [privateKey address programHash].
  split; [reflexivity|]. rewrite getHash_eq.
  set (h := RIPEMD160 _).
  assert (Hb : Forall is_byte h) by apply RIPEMD160_bytes.
  assert (Hl : List.length h = 20%nat) by apply RIPEMD160_length.
  unfold addressToScriptHash.
  rewrite base58_decode_encode by now apply address_bytes_are_bytes.
  cbn [bind]. rewrite slice_address_bytes by assumption.
  now rewrite ab2hexstring_of_bytes.
Qed.

End MoreKeyFacts.

Section MorePublicKeyFacts.

Context {P : Primitives} {L : PrimitivesLaws P}.

Lemma verifyPublicKeyEncoded_cases (pub : string) :
  let first := nth_error (hexstring2ab pub) 0 in
  ((first = Some (Int 2) \/ first = Some (Int 3)) /\
   verifyPublicKeyEncoded pub =
     (y <- decodeFrom_affineY pub ;;
      Ok (match first, option_map (fun b => Z.rem b 2) (nth_error y 31) with
          | Some (Int 2), Some 0 => true
          | Some (Int 3), Some 1 => true
          | _, _ => false
          end))) \/
  (first <> Some (Int 2) /\ first <> Some (Int 3) /\
   verifyPublicKeyEncoded pub = Ok false).
Proof.
  intros first. unfold verifyPublicKeyEncoded. fold first.
  destruct first as [[|[|[[]|[]|]|]]|];
    try (right; split; [discriminate | split; [discriminate | reflexivity]]).
  - left. split; [first [now left | now right]|].
    destruct (decodeFrom_affineY pub) as [y|e]; cbn [bind]; [|reflexivity].
    destruct (option_map (fun b => Z.rem b 2) (nth_error y 31)) as [[|[]|]|];
      reflexivity.
  - left. split; [first [now left | now right]|].
    destruct (decodeFrom_affineY pub) as [y|e]; cbn [bind]; [|reflexivity].
    destruct (option_map (fun b => Z.rem b 2) (nth_error y 31)) as [[|[]|]|];
      reflexivity.
Qed.

(** X20: the three outcomes of [getAccountFromPublicKey].  It returns an
    account exactly when [verifyPublicKeyEncoded] is true, the code -1
    exactly when it is false, and it throws only when the point decoder
    throws: [toAddress] cannot fail on the program hash.  The
    verification itself is true only for a key that starts with byte 2 or
    3 and whose decoded Y coordinate has the matching parity. *)
Theorem getAccountFromPublicKey_outcomes (pub : string) (priv : option string) :
  (forall a, getAccountFromPublicKey pub priv = Ok (Val a) ->
     verifyPublicKeyEncoded pub = Ok true /\ privateKey a = priv /\
     publicKeyEncoded a = pub /\ publicKeyHash a = getHash pub) /\
  (forall c, getAccountFromPublicKey pub priv = Ok (Code c) <->
     verifyPublicKeyEncoded pub = Ok false /\ c = -1) /\
  (forall e, getAccountFromPublicKey pub priv = Throw e <->
     (nth_error (hexstring2ab pub) 0 = Some (Int 2) \/
      nth_error (hexstring2ab pub) 0 = Some (Int 3)) /\
     decodeFrom_affineY pub = Throw e) /\
  (verifyPublicKeyEncoded pub = Ok true ->
     exists p y b, nth_error (hexstring2ab pub) 0 = Some (Int p) /\
                   decodeFrom_affineY pub = Ok y /\ nth_error y 31 = Some b /\
                   (p = 2 \/ p = 3) /\ Z.rem b 2 = p - 2).
Proof.
  assert (Hthrow : forall e, verifyPublicKeyEncoded pub = Throw e <->
            (nth_error (hexstring2ab pub) 0 = Some (Int 2) \/
             nth_error (hexstring2ab pub) 0 = Some (Int 3)) /\
            decodeFrom_affineY pub = Throw e).
  { intros e.
    destruct (verifyPublicKeyEncoded_cases pub) as [(Hf & ->)|(H2 & H3 & ->)].
    - destruct (decodeFrom_affineY pub) as [y|e0]; cbn [bind].
      + split; [discriminate | intros (_ & H); discriminate].
      + split.
        * intros H. injection H as ->. split; [exact Hf | reflexivity].
        * intros (_ & H). injection H as ->. reflexivity.
    - split; [discriminate|]. intros ([Hn|Hn] & _); contradiction. }
  assert (Htrue : verifyPublicKeyEncoded pub = Ok true ->
     exists p y b, nth_error (hexstring2ab pub) 0 = Some (Int p) /\
                   decodeFrom_affineY pub = Ok y /\ nth_error y 31 = Some b /\
                   (p = 2 \/ p = 3) /\ Z.rem b 2 = p - 2).
  { destruct (verifyPublicKeyEncoded_cases pub) as [(Hf & ->)|(_ & _ & ->)];
      [|discriminate].
    destruct (decodeFrom_affineY pub) as [y|e0]; cbn [bind]; [|discriminate].
    destruct (nth_error y 31) as [b|] eqn:Hb; cbn [option_map].
    - destruct Hf as [Hf | Hf]; rewrite Hf; intros H.
      + exists 2, y, b. split; [reflexivity|]. split; [reflexivity|].
        split; [exact Hb|]. split; [now left|].
        destruct (Z.rem b 2) as [|[]|]; try discriminate. reflexivity.
      + exists 3, y, b. split; [reflexivity|]. split; [reflexivity|].
        split; [exact Hb|]. split; [now right|].
        destruct (Z.rem b 2) as [|[[]|[]|]|]; try discriminate. reflexivity.
    - destruct Hf as [Hf | Hf]; rewrite Hf; discriminate. }
  split; [|split; [|split; [|exact Htrue]]].
  - intros a Ha.
    destruct (verifyPublicKeyEncoded pub) as [[|]|e] eqn:Hv.
    + rewrite (getAccountFromPublicKey_valid _ priv Hv) in Ha.
      injection Ha as <-. repeat split.
    + unfold getAccountFromPublicKey in Ha. rewrite Hv in Ha. discriminate.
    + unfold getAccountFromPublicKey in Ha. rewrite Hv in Ha. discriminate.
  - intros c.
    destruct (verifyPublicKeyEncoded pub) as [[|]|e] eqn:Hv.
    + rewrite (getAccountFromPublicKey_valid _ priv Hv).
      split; [discriminate | intros (H & _); discriminate].
    + unfold getAccountFromPublicKey. rewrite Hv. cbn [bind negb].
      split; [intros H; injection H as <-; now split | intros (_ & ->); reflexivity].
    + unfold getAccountFromPublicKey. rewrite Hv. cbn [bind].
      split; [discriminate | intros (H & _); discriminate].
  - intros e. rewrite <- Hthrow.
    destruct (verifyPublicKeyEncoded pub) as [[|]|e0] eqn:Hv.
    + rewrite (getAccountFromPublicKey_valid _ priv Hv). split; discriminate.
    + unfold getAccountFromPublicKey. rewrite Hv. cbn [bind negb]. split; discriminate.
    + unfold getAccountFromPublicKey. rewrite Hv. cbn [bind].
      split; intros H; injection H as ->; reflexivity.
Qed.

Lemma length_wallet_script (pk : string) :
  String.length (createChainLineWalletScript pk) = (1276 + String.length pk)%nat.
Proof.
  unfold createChainLineWalletScript. rewrite !length_append.
  change (String.length wallet_script_head) with 54%nat.
  replace (String.length wallet_script_tail) with 1222%nat by (vm_compute; reflexivity).
  lia.
Qed.

(** X21: the wallet script embeds the public key at character 54, is 1276
    characters longer than the key, and two keys with the same script are
    the same key. *)
Theorem createChainLineWalletScript_embeds_key (pk pk2 : string) :
  substr (createChainLineWalletScript pk) 54 (String.length pk) = pk /\
  String.length (createChainLineWalletScript pk) = (1276 + String.length pk)%nat /\
  (createChainLineWalletScript pk = createChainLineWalletScript pk2 -> pk = pk2).
Proof.
  assert (E : forall k, substr (createChainLineWalletScript k) 54 (String.length k) = k).
  { intros k. unfold createChainLineWalletScript.
    apply (substr_middle wallet_script_head k wallet_script_tail). }
  split; [apply E|]. split; [apply length_wallet_script|].
  intros H. pose proof (f_equal String.length H) as Hl.
  rewrite !length_wallet_script in Hl.
  rewrite <- (E pk), <- (E pk2), H. f_equal. lia.
Qed.

(** X22: [getPublicKeyEncoded] compresses an uncompressed key [04 X Y] to
    [02 X] when the last byte of [Y] is even and to [03 X] when it is odd;
    the result has 33 bytes and passes [verifyPublicKeyEncoded] when the
    point decoder recovers [Y] from it. *)
Theorem getPublicKeyEncoded_compresses (X Y : list Z) (y : Z) :
  Forall is_byte X -> Forall is_byte Y ->
  List.length X = 32%nat -> List.length Y = 32%nat -> nth_error Y 31 = Some y ->
  let pk := getPublicKeyEncoded (bytes2hex (4 :: X ++ Y)) in
  pk = bytes2hex ((if Z.odd y then 3 else 2) :: X) /\
  String.length pk = 66%nat /\
  (decodeFrom_affineY pk = Ok Y -> verifyPublicKeyEncoded pk = Ok true).
Proof.
  intros HX HY HlX HlY Hy pk.
  assert (Hyb : is_byte y).
  { rewrite Forall_forall in HY. apply HY. eapply nth_error_In; eassumption. }
  assert (Hall : Forall is_byte (4 :: X ++ Y)).
  { constructor; [unfold is_byte; lia|]. apply Forall_app. now split. }
  assert (Hrem : Z.rem y 2 = if Z.odd y then 1 else 0).
  { unfold is_byte in Hyb. rewrite Z.rem_mod_nonneg by lia. apply Zmod_odd. }
  assert (E : pk = bytes2hex ((if Z.odd y then 3 else 2) :: X)).
  { subst pk. unfold getPublicKeyEncoded.
    rewrite hexstring2ab_bytes2hex by assumption.
    assert (H64 : nth_error (of_bytes (4 :: X ++ Y)) 64 = Some (Int y)).
    { unfold of_bytes. rewrite nth_error_map.
      change (nth_error (4 :: X ++ Y) 64) with (nth_error (X ++ Y) 63).
      rewrite nth_error_app2 by lia. rewrite HlX.
      change (63 - 32)%nat with 31%nat. now rewrite Hy. }
    rewrite H64, slice_of_bytes.
    assert (Hs : slice (4 :: X ++ Y) 1 33 = X).
    { unfold slice. change (skipn 1 (4 :: X ++ Y)) with (X ++ Y)%list.
      change (33 - 1)%nat with 32%nat.
      rewrite firstn_app, HlX, Nat.sub_diag, firstn_O, app_nil_r.
      apply firstn_all2. lia. }
    rewrite Hs, ab2hexstring_of_bytes by assumption.
    rewrite Hrem. destruct (Z.odd y); reflexivity. }
  split; [exact E|]. split.
  - rewrite E, length_bytes2hex. cbn [List.length]. rewrite HlX. reflexivity.
  - intros Hd. unfold verifyPublicKeyEncoded. rewrite Hd. cbn [bind].
    rewrite Hy. cbn [option_map]. rewrite Hrem, E.
    rewrite hexstring2ab_bytes2hex.
    + destruct (Z.odd y); reflexivity.
    + constructor; [|assumption]. destruct (Z.odd y); unfold is_byte; lia.
Qed.

End MorePublicKeyFacts.

(** ** Further properties of signing *)

Section MoreSigningFacts.

Context {object exclusive : Type} {P : Primitives} {L : PrimitivesLaws P}.
Context (serialize : Serialize object exclusive).

#[local] Abbreviation STx := (Transactions.Transaction object exclusive).

Lemma length_signature (data k sig : string) :
  signatureData data k = Ok sig -> String.length sig = 128%nat.
Proof.
  rewrite signatureData_eq. intros H.
  match type of H with Ok ?x = _ => assert (E : x = sig) by congruence end.
  rewrite <- E, length_bytes2hex, length_app, !length_be_bytes. reflexivity.
Qed.

(** X23: whatever the key, a transaction returned by [signTransaction]
    is the given one with one witness appended, whose invocation script
    has 65 bytes; when the kind-specific serializer does not read the
    witnesses, the unsigned bytes and the transaction hash are those of
    the given transaction. *)
Theorem signTransaction_keeps_hash (tx tx' : STx) (k : string) :
  signTransaction serialize tx k = Ok tx' ->
  (exists w, tx' = push_scripts tx w /\
             String.length (invocationScript w) = 130%nat) /\
  ((forall w, call (ser_exclusiveData serialize (type tx)) (push_scripts tx w) =
              call (ser_exclusiveData serialize (type tx)) tx) ->
   serializeTransaction serialize tx' false = serializeTransaction serialize tx false /\
   getTransactionHash serialize tx' = getTransactionHash serialize tx).
Proof.
  intros H.
  assert (Hw : exists w, tx' = push_scripts tx w /\
                         String.length (invocationScript w) = 130%nat).
  { unfold signTransaction in H.
    destruct (serializeTransaction serialize tx false) as [data|e]; [|discriminate].
    cbn [bind] in H.
    destruct (signatureData data k) as [sig|e] eqn:Hs; [|discriminate].
    cbn [bind] in H.
    destruct (getAccountFromPrivateKey k) as [account|e]; [|discriminate].
    cbn [bind] in H. injection H as <-. eexists. split; [reflexivity|].
    cbn [invocationScript append String.length].
    now rewrite (length_signature _ _ _ Hs). }
  split; [exact Hw|]. intros Hx. destruct Hw as (w & -> & _).
  assert (E : serializeTransaction serialize (push_scripts tx w) false =
              serializeTransaction serialize tx false)
    by apply serializeTransaction_unsigned_push_scripts, Hx.
  split; [exact E|]. unfold getTransactionHash. now rewrite E.
Qed.

(** X24: when the key has no account (its length is not 64, or its public
    key fails the verification), [signTransaction] raises no error: the
    witness it appends carries the wallet script built around the text
    [undefined], which is not a hex string. *)
Theorem signTransaction_without_account (tx : STx) (k data sig : string) (c : Z) :
  serializeTransaction serialize tx false = Ok data ->
  signatureData data k = Ok sig ->
  getAccountFromPrivateKey k = Ok (Code c) ->
  signTransaction serialize tx k =
    Ok (push_scripts tx
          (mkWitness ("40" ++ sig) (createChainLineWalletScript "undefined"))) /\
  all_hex (createChainLineWalletScript "undefined") = false /\
  (forall k', String.length k' <> 64%nat ->
     getAccountFromPrivateKey k' = Ok (Code (-1))).
Proof.
  intros Hd Hs Ha. split; [|split].
  - unfold signTransaction. rewrite Hd. cbn [bind]. rewrite Hs. cbn [bind].
    rewrite Ha. reflexivity.
  - vm_compute. reflexivity.
  - intros k' Hk. unfold getAccountFromPrivateKey.
    apply Nat.eqb_neq in Hk. now rewrite Hk.
Qed.

End MoreSigningFacts.

(** ** Demand and travel records, and [addContract] *)

Import Chainline.

Lemma length_substring_0 (n : nat) (s : string) :
  String.length (String.substring 0 n s) = Nat.min n (String.length s).
Proof. revert s; induction n as [|n IH]; intros [|c s]; simpl; auto. Qed.

Lemma substring_0_substring_from (n m : nat) (s : string) :
  String.substring 0 m (substring_from n s) = String.substring n m s.
Proof.
  revert s; induction n as [|n IH]; intros s; [reflexivity|].
  destruct s as [|c s]; [now destruct m | apply IH].
Qed.

Lemma consumeBytes_bytes2hex (k : nat) (a rest : list Z) :
  List.length a = k ->
  consumeBytes k (bytes2hex (a ++ rest)) = (bytes2hex a, bytes2hex rest).
Proof.
  intros Hl. unfold consumeBytes. rewrite bytes2hex_app.
  assert (Hk : (k * 2)%nat = String.length (bytes2hex a))
    by (rewrite length_bytes2hex; lia).
  rewrite Hk. f_equal.
  - apply (substr_middle "" (bytes2hex a) (bytes2hex rest)).
  - apply substring_from_app.
Qed.

Lemma hex2int_bytes2hex (bs : list Z) :
  Forall is_byte bs -> bs <> [] ->
  hex2int (bytes2hex bs) = Ok (Int (be_value (rev bs))).
Proof.
  intros Hb Hne. unfold hex2int. rewrite reverseHex_bytes2hex. cbn [bind].
  rewrite parseInt16_bytes2hex; [reflexivity | now apply Forall_rev |].
  intros E. apply Hne. apply (f_equal (@rev Z)) in E.
  now rewrite rev_involutive in E.
Qed.

Lemma hexstring2a_bytes2hex (bs : list Z) :
  Forall is_byte bs -> hexstring2a (bytes2hex bs) = bs.
Proof.
  induction 1 as [|b bs Hb _ IH]; [reflexivity|].
  destruct (byte_digits b Hb) as (Hhi & Hlo & E).
  cbn [bytes2hex hexstring2a]. rewrite parseInt16_two_digits, E, IH by assumption.
  cbn [ToUint16]. unfold is_byte in Hb. now rewrite Z.mod_small by lia.
Qed.

Lemma nonempty_of_length {A : Type} (l : list A) (n : nat) :
  List.length l = S n -> l <> [].
Proof. destruct l; [discriminate | discriminate]. Qed.

(** X25: [parseTravelHex] reads a travel record of 27 bytes, with or
    without a trailing timestamp of 4 bytes: the expiry (seconds, turned
    into milliseconds), the required reputation and the carry space are
    read least significant byte first, and the owner is kept in hex. *)
Theorem parseTravelHex_fields (E R O T : list Z) (c : Z) :
  Forall is_byte E -> Forall is_byte R -> is_byte c -> Forall is_byte O ->
  Forall is_byte T ->
  List.length E = 4%nat -> List.length R = 2%nat -> List.length O = 20%nat ->
  List.length T = 0%nat \/ List.length T = 4%nat ->
  parseTravelHex (bytes2hex (E ++ R ++ [c] ++ O ++ T)) =
    Ok (Some (mkTravel true (be_value (rev E) * 1000) (be_value (rev R)) c
                       (bytes2hex O))).
Proof.
  intros HE HR Hc HO HT HlE HlR HlO HlT. unfold parseTravelHex.
  assert (Hsize : isTravelHex (bytes2hex (E ++ R ++ [c] ++ O ++ T)) = true).
  { unfold isTravelHex. rewrite length_bytes2hex, !length_app, HlE, HlR, HlO.
    destruct HlT as [-> | ->]; reflexivity. }
  rewrite Hsize. cbn [negb].
  unfold TIMESTAMP_SIZE, REP_REQUIRED_SIZE, CARRY_SPACE_SIZE, HASH160_SIZE.
  rewrite (consumeBytes_bytes2hex 4 E _ HlE).
  rewrite (consumeBytes_bytes2hex 2 R _ HlR).
  rewrite (consumeBytes_bytes2hex 1 [c] _ eq_refl).
  rewrite (consumeBytes_bytes2hex 20 O _ HlO).
  rewrite !hex2int_bytes2hex
    by first [assumption | discriminate | eapply nonempty_of_length; eassumption
             | now constructor].
  reflexivity.
Qed.

(** X26: [parseDemandHex] reads a demand record of 160 bytes, with or
    without a trailing timestamp: expiry, item value (a Fixed8 amount),
    owner, required reputation, item size and the 128 characters of the
    information blob, the numbers least significant byte first. *)
Theorem parseDemandHex_fields (E V O R B T : list Z) (s : Z) :
  Forall is_byte E -> Forall is_byte V -> Forall is_byte O -> Forall is_byte R ->
  is_byte s -> Forall is_byte B -> Forall is_byte T ->
  List.length E = 4%nat -> List.length V = 5%nat -> List.length O = 20%nat ->
  List.length R = 2%nat -> List.length B = 128%nat ->
  List.length T = 0%nat \/ List.length T = 4%nat ->
  parseDemandHex (bytes2hex (E ++ V ++ O ++ R ++ [s] ++ B ++ T)) =
    Ok (Some (mkDemand true (be_value (rev E) * 1000)
                       (inject_Z (be_value (rev V)) / inject_Z 100000000)%Q
                       (bytes2hex O) (be_value (rev R)) s B)).
Proof.
  intros HE HV HO HR Hs HB HT HlE HlV HlO HlR HlB HlT. unfold parseDemandHex.
  assert (Hsize : isDemandHex (bytes2hex (E ++ V ++ O ++ R ++ [s] ++ B ++ T)) = true).
  { unfold isDemandHex.
    rewrite length_bytes2hex, !length_app, HlE, HlV, HlO, HlR, HlB.
    destruct HlT as [-> | ->]; reflexivity. }
  rewrite Hsize. cbn [negb].
  unfold TIMESTAMP_SIZE, VALUE_SIZE, REP_REQUIRED_SIZE, CARRY_SPACE_SIZE,
    HASH160_SIZE, INFO_BLOB_SIZE.
  rewrite (consumeBytes_bytes2hex 4 E _ HlE).
  rewrite (consumeBytes_bytes2hex 5 V _ HlV).
  rewrite (consumeBytes_bytes2hex 20 O _ HlO).
  rewrite (consumeBytes_bytes2hex 2 R _ HlR).
  rewrite (consumeBytes_bytes2hex 1 [s] _ eq_refl).
  rewrite (consumeBytes_bytes2hex 128 B _ HlB).
  rewrite !hex2int_bytes2hex
    by first [assumption | discriminate | eapply nonempty_of_length; eassumption
             | now constructor].
  cbn [bind or_zero]. unfold fixed82num. rewrite reverseHex_bytes2hex.
  cbn [bind].
  rewrite parseInt16_bytes2hex.
  - cbn [or_zeroQ]. rewrite hexstring2a_bytes2hex by assumption.
    reflexivity.
  - now apply Forall_rev.
  - intros E0. apply (f_equal (@List.length Z)) in E0.
    rewrite length_rev, HlV in E0. discriminate.
Qed.

Lemma hex2int_even (s : string) :
  Nat.even (String.length s) = true -> exists v, hex2int s = Ok v.
Proof. intros H. unfold hex2int, reverseHex. rewrite H. cbn [bind]. eauto. Qed.

Lemma fixed82num_even (s : string) :
  Nat.even (String.length s) = true -> exists v, fixed82num s = Ok v.
Proof. intros H. unfold fixed82num, reverseHex. rewrite H. cbn [bind]. eauto. Qed.

Lemma even_piece (n m : nat) (hex : string) :
  (n + m <= String.length hex)%nat -> Nat.even m = true ->
  Nat.even (String.length (substr (substring_from n hex) 0 m)) = true.
Proof.
  intros Hl Hm. unfold substr.
  rewrite length_substring_0, substring_from_length.
  now rewrite Nat.min_l by lia.
Qed.

Ltac consume_even :=
  repeat match goal with
    | |- context [hex2int ?s] =>
        let v := fresh "v" in
        destruct (hex2int_even s) as [v ->];
        [unfold substr; rewrite length_substring_0, ?substring_from_length;
         rewrite Nat.min_l by (simpl; lia); reflexivity
        | cbn [bind]]
    | |- context [fixed82num ?s] =>
        let v := fresh "v" in
        destruct (fixed82num_even s) as [v ->];
        [unfold substr; rewrite length_substring_0, ?substring_from_length;
         rewrite Nat.min_l by (simpl; lia); reflexivity
        | cbn [bind]]
    end.

Lemma parseTravelHex_sized (hex : string) :
  isTravelHex hex = true ->
  exists e r c, parseTravelHex hex = Ok (Some (mkTravel true e r c (substr hex 14 40))).
Proof.
  intros Hs. unfold parseTravelHex. rewrite Hs. cbn [negb].
  assert (Hl : (54 <= String.length hex)%nat).
  { unfold isTravelHex in Hs. apply orb_true_iff in Hs.
    destruct Hs as [Hs|Hs]; apply Nat.eqb_eq in Hs; rewrite Hs; simpl; lia. }
  unfold consumeBytes, TIMESTAMP_SIZE, REP_REQUIRED_SIZE, CARRY_SPACE_SIZE,
    HASH160_SIZE.
  consume_even.
  rewrite <- !substring_from_add. unfold substr.
  rewrite !substring_0_substring_from. do 3 eexists. reflexivity.
Qed.

Lemma parseDemandHex_sized (hex : string) :
  isDemandHex hex = true ->
  exists e v r s b,
    parseDemandHex hex = Ok (Some (mkDemand true e v (substr hex 18 40) r s b)).
Proof.
  intros Hs. unfold parseDemandHex. rewrite Hs. cbn [negb].
  assert (Hl : (320 <= String.length hex)%nat).
  { unfold isDemandHex in Hs. apply orb_true_iff in Hs.
    destruct Hs as [Hs|Hs]; apply Nat.eqb_eq in Hs; rewrite Hs; simpl; lia. }
  unfold consumeBytes, TIMESTAMP_SIZE, VALUE_SIZE, REP_REQUIRED_SIZE,
    CARRY_SPACE_SIZE, HASH160_SIZE, INFO_BLOB_SIZE.
  consume_even.
  rewrite <- !substring_from_add. unfold substr.
  rewrite !substring_0_substring_from. do 5 eexists. reflexivity.
Qed.

(** X27: on any string, [parseTravelHex] and [parseDemandHex] never throw;
    they return [null] exactly when the length is neither that of the
    record nor that of the record followed by a timestamp, and otherwise
    an object with the flag set and the owner taken from its fixed
    position. *)
Theorem parse_hex_never_throws (hex : string) :
  (parseTravelHex hex = Ok None <->
   String.length hex <> 54%nat /\ String.length hex <> 62%nat) /\
  (parseDemandHex hex = Ok None <->
   String.length hex <> 320%nat /\ String.length hex <> 328%nat) /\
  (exists t, parseTravelHex hex = Ok t) /\
  (exists d, parseDemandHex hex = Ok d) /\
  (forall t, parseTravelHex hex = Ok (Some t) ->
     isTravel t = true /\ travel_owner t = substr hex 14 40) /\
  (forall d, parseDemandHex hex = Ok (Some d) ->
     isDemand d = true /\ demand_owner d = substr hex 18 40).
Proof.
  assert (HT : isTravelHex hex = false <->
               String.length hex <> 54%nat /\ String.length hex <> 62%nat).
  { unfold isTravelHex. rewrite orb_false_iff, !Nat.eqb_neq. reflexivity. }
  assert (HD : isDemandHex hex = false <->
               String.length hex <> 320%nat /\ String.length hex <> 328%nat).
  { unfold isDemandHex. rewrite orb_false_iff, !Nat.eqb_neq. reflexivity. }
  assert (T0 : isTravelHex hex = false -> parseTravelHex hex = Ok None).
  { intros ET. unfold parseTravelHex. now rewrite ET. }
  assert (D0 : isDemandHex hex = false -> parseDemandHex hex = Ok None).
  { intros ED. unfold parseDemandHex. now rewrite ED. }
  rewrite <- HT, <- HD. split; [|split; [|split; [|split; [|split]]]].
  - destruct (isTravelHex hex) eqn:ET.
    + destruct (parseTravelHex_sized hex ET) as (e & r & c & E).
      rewrite E. split; discriminate.
    + split; [reflexivity | intros _; exact (T0 eq_refl)].
  - destruct (isDemandHex hex) eqn:ED.
    + destruct (parseDemandHex_sized hex ED) as (e & v & r & s & b & E).
      rewrite E. split; discriminate.
    + split; [reflexivity | intros _; exact (D0 eq_refl)].
  - destruct (isTravelHex hex) eqn:ET.
    + destruct (parseTravelHex_sized hex ET) as (e & r & c & E). eauto.
    + rewrite (T0 eq_refl). eauto.
  - destruct (isDemandHex hex) eqn:ED.
    + destruct (parseDemandHex_sized hex ED) as (e & v & r & s & b & E). eauto.
    + rewrite (D0 eq_refl). eauto.
  - intros t Ht. destruct (isTravelHex hex) eqn:ET.
    + destruct (parseTravelHex_sized hex ET) as (e & r & c & E).
      rewrite E in Ht. injection Ht as Ht. subst t. split; reflexivity.
    + rewrite (T0 eq_refl) in Ht. discriminate.
  - intros d Hd. destruct (isDemandHex hex) eqn:ED.
    + destruct (parseDemandHex_sized hex ED) as (e & v & r & s & b & E).
      rewrite E in Hd. injection Hd as Hd. subst d. split; reflexivity.
    + rewrite (D0 eq_refl) in Hd. discriminate.
Qed.

(** X28: [addContract] appends one witness whose invocation length byte
    0x41 is right for a signature of 64 bytes, but whose verification
    length byte 0x23 (35 bytes, the length of [createSignatureScript] for
    a key of 33 bytes) is not the length of the wallet script that
    follows, which has 671 bytes. *)
Theorem addContract_layout (txData sign pk : string) :
  String.length sign = 128%nat -> String.length pk = 66%nat ->
  addContract txData sign pk =
    txData ++ "01" ++ "41" ++ ("40" ++ sign) ++ "23" ++ createChainLineWalletScript pk /\
  String.length ("40" ++ sign) = (2 * 65)%nat /\
  String.length (createSignatureScript pk) = (2 * 35)%nat /\
  String.length (createChainLineWalletScript pk) = (2 * 671)%nat.
Proof.
  intros Hs Hp. split; [|split; [|split]].
  - unfold addContract. now rewrite !append_assoc.
  - cbn [append String.length]. now rewrite Hs.
  - unfold createSignatureScript. cbn [append String.length].
    rewrite length_append, Hp. reflexivity.
  - rewrite length_wallet_script, Hp. reflexivity.
Qed.

(** ** The further properties on the sample instance *)

Module MoreSampleFacts.

Import Sample SampleFacts MoreSample.

Lemma witness_round_trips (i v : list Z) :
  (0 < List.length i < 253)%nat -> (0 < List.length v < 253)%nat ->
  round_trips ser_witness de_witness (mkWitness (bytes2hex i) (bytes2hex v)).
Proof.
  intros Hi Hv.
  assert (Hhalf : forall bs : list Z, slen (bytes2hex bs) / 2 = Z.of_nat (List.length bs)).
  { intros bs. unfold slen. rewrite length_bytes2hex, Nat2Z.inj_mul.
    change (Z.of_nat 2) with 2. rewrite Z.mul_comm. apply Z.div_mul. lia. }
  eexists. split; [reflexivity|]. cbn [invocationScript verificationScript].
  rewrite !Hhalf. intros ss pre post Hp. rewrite !append_assoc in Hp.
  assert (Bi : 0 <= Z.of_nat (List.length i) < 0xfd) by lia.
  assert (Bv : 0 <= Z.of_nat (List.length v) < 0xfd) by lia.
  destruct (readVarInt_small _ _ _ _ Bi Hp) as (s1 & R1 & P1).
  assert (Li : String.length (bytes2hex i) = (List.length i * 2)%nat)
    by (rewrite length_bytes2hex; lia).
  assert (Lv : String.length (bytes2hex v) = (List.length v * 2)%nat)
    by (rewrite length_bytes2hex; lia).
  destruct (read_positioned (List.length i) _ _ _ _ P1 Li (proj1 Hi)) as (s2 & R2 & P2).
  destruct (readVarInt_small _ _ _ _ Bv P2) as (s3 & R3 & P3).
  destruct (read_positioned (List.length v) _ _ _ _ P3 Lv (proj1 Hv)) as (s4 & R4 & P4).
  exists s4. split.
  - unfold de_witness, sbind. rewrite R1. cbn [iterations]. rewrite Nat2Z.id, R2, R3.
    cbn [iterations]. rewrite Nat2Z.id, R4. reflexivity.
  - now rewrite !append_assoc in *.
Qed.

End MoreSampleFacts.

Section MoreRuns.

Import Sample SampleFacts MoreSample MoreSampleFacts.

#[local] Existing Instance primitives.
#[local] Existing Instance laws.

Lemma serializeTransaction_signed_extends_unsigned_witness :
  serializeTransaction serialize tx2 true =
    Ok ("80000002010201030102404103" ++ "2102ac").
Proof.
  apply (serializeTransaction_signed_extends_unsigned serialize tx2 [witness1]
           "8000000201020103" ("02404103" ++ "2102ac")).
  - reflexivity.
  - discriminate.
  - reflexivity.
  - reflexivity.
Defined.

Lemma deserializeTransaction_unknown_type_witness :
  exists e, deserializeTransaction deserialize "0200" = Throw e.
Proof.
  apply (deserializeTransaction_unknown_type deserialize "0200").
  right. reflexivity.
Defined.

Lemma deserializeTransaction_reads_witnesses_witness :
  exists data,
    serializeTransaction serialize tx2 true = Ok data /\
    deserializeTransaction deserialize data = Ok tx2.
Proof.
  apply (deserializeTransaction_reads_witnesses serialize deserialize tx2 0x80 0
           [witness1]); try reflexivity; try (unfold len; simpl; lia).
  - apply contract_exclusive_round_trips. reflexivity.
  - constructor.
  - repeat constructor; apply byte_round_trips; lia.
  - repeat constructor; apply byte_round_trips; lia.
  - constructor; [|constructor].
    apply (witness_round_trips [0x40; 0x41] [0x21; 0x02; 0xac]); simpl; lia.
Defined.

Lemma getScriptHashFromAddress_reverses_bytes_witness :
  getScriptHashFromAddress address1 = Ok (bytes2hex (rev hash1)) /\
  addressToScriptHash address1 = Ok (bytes2hex hash1).
Proof.
  destruct (getScriptHashFromAddress_reverses_bytes (L := laws) address1
              (address_bytes hash1)) as (H1 & H2 & _).
  - vm_compute. reflexivity.
  - split; [exact H1 | exact H2].
Defined.

Lemma getWIFFromPrivateKey_round_trip_witness :
  exists wif,
    getWIFFromPrivateKey WIF_encode (of_bytes (Buffer_from_hex key1)) = Ok wif /\
    getPrivateKeyFromWIF wif = Ok (Val key1).
Proof.
  destruct (getWIFFromPrivateKey_round_trip (L := laws) WIF_encode
              (Buffer_from_hex key1)) as (wif & H1 & H2 & _).
  - apply Buffer_from_hex_bytes.
  - reflexivity.
  - reflexivity.
  - exists wif. split; [exact H1 | exact H2].
Defined.

Lemma getPrivateKeyFromWIF_error_codes_witness :
  getPrivateKeyFromWIF "8001" = Ok (Code (-1)).
Proof.
  destruct (getPrivateKeyFromWIF_error_codes (L := laws) "8001" [0x80; 0x01])
    as (H & _).
  - reflexivity.
  - apply H. intros (Hl & _). discriminate.
Defined.

Lemma getAccountFromWIFKey_composition_witness :
  getAccountFromWIFKey wif1 =
    getAccountFromPublicKey (ab2hexstring (of_bytes (getPublicKey key1 true)))
                            (Some key1).
Proof.
  destruct (getAccountFromWIFKey_composition (L := laws) wif1
              (0x80 :: Buffer_from_hex key1 ++ [0x01]
               ++ firstn 4 (checksum 32 (checksum 32
                    (0x80 :: Buffer_from_hex key1 ++ [0x01]))))%list)
    as (_ & H & _).
  - vm_compute. reflexivity.
  - vm_compute. repeat split; reflexivity.
  - exact H.
Defined.

Lemma getPublicKeyEncoded_compresses_witness :
  getPublicKeyEncoded (bytes2hex (4 :: pointX ++ pointY)) = bytes2hex (2 :: pointX) /\
  verifyPublicKeyEncoded (getPublicKeyEncoded (bytes2hex (4 :: pointX ++ pointY)))
    = Ok true.
Proof.
  destruct (getPublicKeyEncoded_compresses pointX pointY 0) as (H1 & _ & H2).
  - repeat constructor; unfold is_byte; simpl; lia.
  - repeat constructor; unfold is_byte; lia.
  - reflexivity.
  - reflexivity.
  - reflexivity.
  - split; [exact H1 | apply H2; reflexivity].
Defined.

Lemma signTransaction_keeps_hash_witness :
  getTransactionHash serialize
    (push_scripts tx1 (witness_of "800001200201020103" key1))
  = getTransactionHash serialize tx1.
Proof.
  destruct (signTransaction_keeps_hash serialize tx1
              (push_scripts tx1 (witness_of "800001200201020103" key1)) key1)
    as (_ & H).
  - vm_compute. reflexivity.
  - apply H. intros w. reflexivity.
Defined.

Lemma signTransaction_without_account_witness :
  exists sig,
    signTransaction serialize tx1 "00" =
      Ok (push_scripts tx1
            (mkWitness ("40" ++ sig) (createChainLineWalletScript "undefined"))).
Proof.
  destruct (signatureData "800001200201020103" "00") as [sig|e] eqn:Hs;
    [|vm_compute in Hs; discriminate].
  exists sig.
  apply (signTransaction_without_account serialize tx1 "00" "800001200201020103"
           sig (-1)).
  - reflexivity.
  - exact Hs.
  - reflexivity.
Defined.

Lemma parseTravelHex_fields_witness :
  parseTravelHex travel1 =
    Ok (Some (mkTravel true (100000000 * 1000) 10 3
                       "0102030405060708090a0b0c0d0e0f1011121314")).
Proof.
  apply (parseTravelHex_fields [0x00; 0xe1; 0xf5; 0x05] [0x0a; 0x00]
           (map Z.of_nat (seq 1 20)) [] 3);
    try reflexivity;
    try (repeat constructor; unfold is_byte; simpl; lia).
Defined.

Lemma parseDemandHex_fields_witness :
  parseDemandHex
    (bytes2hex ([0x00; 0xe1; 0xf5; 0x05] ++ [0x00; 0xe1; 0xf5; 0x05; 0x00]
                ++ map Z.of_nat (seq 1 20) ++ [0x0a; 0x00] ++ [3]
                ++ repeat 0x41 128 ++ [])) =
    Ok (Some (mkDemand true (100000000 * 1000)
                       (inject_Z 100000000 / inject_Z 100000000)%Q
                       "0102030405060708090a0b0c0d0e0f1011121314" 10 3
                       (repeat 0x41 128))).
Proof.
  apply (parseDemandHex_fields [0x00; 0xe1; 0xf5; 0x05] [0x00; 0xe1; 0xf5; 0x05; 0x00]
           (map Z.of_nat (seq 1 20)) [0x0a; 0x00] (repeat 0x41 128) [] 3);
    try reflexivity;
    try (repeat constructor; unfold is_byte; simpl; lia).
Defined.

Lemma addContract_layout_witness :
  String.length
    (createChainLineWalletScript (bytes2hex (2 :: pointX))) = (2 * 671)%nat.
Proof.
  destruct (addContract_layout "800001200201020103" (bytes2hex (repeat 7 64))
              (bytes2hex (2 :: pointX))) as (_ & _ & _ & H).
  - reflexivity.
  - reflexivity.
  - exact H.
Defined.

Lemma getScriptHashFromPublicKey_reversed_program_hash_witness :
  getScriptHashFromPublicKey (bytes2hex (2 :: pointX)) =
    reverseHex (getHash (createChainLineWalletScript (bytes2hex (2 :: pointX)))).
Proof.
  apply (getScriptHashFromPublicKey_reversed_program_hash (L := laws)
           (bytes2hex (2 :: pointX))).
Defined.

Lemma verifyAddress_true_iff_witness : verifyAddress address1 = Ok true.
Proof.
  destruct (verifyAddress_true_iff (L := laws) address1) as (H & _).
  apply H. exists hash1. split; [reflexivity|]. split.
  - repeat constructor; unfold is_byte; simpl; lia.
  - reflexivity.
Defined.

Lemma getAccountFromPublicKey_outcomes_witness :
  getAccountFromPublicKey "00" None = Ok (Code (-1)).
Proof.
  destruct (getAccountFromPublicKey_outcomes (L := laws) "00" None) as (_ & H & _).
  apply H. split; reflexivity.
Defined.

End MoreRuns.
